(** * Connect4: the game-state engine and the turn orchestrator

    A shallow embedding of [src/connect4/game.py] (the package) and of the
    single-file predecessor [src/connect4.py], with the properties of the
    specification proved about them.

    Python values are modelled as follows: integers are [Z]; a list is a
    [list], read with Python's indexing rules ([py_getitem], a negative index
    counts from the end, an index out of range raises [IndexError]); a
    [dict] is a [gmap]; [None] in a cell is [None : option _]; a raised
    exception is the [Raise] alternative of [res]. *)

From stdpp Require Import numbers strings gmap list.

(** ** Python primitives *)

Inductive exn : Type :=
| ActionError | ValueError | TypeError | KeyError | IndexError
| StopIteration.

Inductive res (A : Type) : Type :=
| Ok (a : A)
| Raise (e : exn).
Arguments Ok {A} a.
Arguments Raise {A} e.

#[global] Instance exn_eq_dec : EqDecision exn.
Proof. solve_decision. Defined.
#[global] Instance res_eq_dec {A : Type} `{EqDecision A} : EqDecision (res A).
Proof. solve_decision. Defined.

Definition res_bind {A B : Type} (m : res A) (f : A → res B) : res B :=
  match m with
  | Ok a => f a
  | Raise e => Raise e
  end.

Notation "'do' x <- m ; k" := (res_bind m (λ x, k))
  (at level 10, x name, m at level 100, k at level 200).

(** [range(n)] and [range(a, b)]: empty when the bound is not above the start. *)
Definition range (n : Z) : list Z := seqZ 0 n.
Definition range2 (a b : Z) : list Z := seqZ a (b - a).

(** [l[i]]: the position read by index [i] in a list of length [len]. *)
Definition py_index (len : nat) (i : Z) : option nat :=
  if decide (0 ≤ i < Z.of_nat len)%Z then Some (Z.to_nat i)
  else if decide (- Z.of_nat len ≤ i < 0)%Z then Some (Z.to_nat (i + Z.of_nat len))
  else None.

Definition py_getitem {A : Type} (l : list A) (i : Z) : option A :=
  py_index (length l) i ≫= λ n, l !! n.

(** [l[i] = x]; [None] stands for [IndexError]. *)
Definition py_setitem {A : Type} (l : list A) (i : Z) (x : A) : option (list A) :=
  (λ n, <[n:=x]> l) <$> py_index (length l) i.

(** [l[start:stop:step]] for a positive step: both bounds are brought into
    [0, len] (a negative one counts from the end), then every [step]-th
    position from [start] below [stop] is taken. *)
Definition slice_bound (len : Z) (i : Z) : Z :=
  if decide (i < 0)%Z then Z.max (i + len) 0 else Z.min i len.

Definition slice_indices (len : nat) (start stop step : Z) : list Z :=
  let lo := slice_bound (Z.of_nat len) start in
  let hi := slice_bound (Z.of_nat len) stop in
  (λ k, lo + k * step)%Z <$> range ((hi - lo + step - 1) / step).

Definition py_slice {A : Type} (l : list A) (start stop step : Z) : list A :=
  omap (λ i, l !! Z.to_nat i) (slice_indices (length l) start stop step).

(** [len(set(line))] *)
Definition len_set {A : Type} `{EqDecision A} (line : list A) : nat :=
  length (remove_dups line).

(** ** The token map: a bidict built from a dict *)

Section dict.
Context {K V : Type} `{Countable K} `{Countable V}.

(** [{k: v for k, v in pairs}]: a later pair replaces an earlier one with
    the same key. *)
Definition dict_of_pairs (pairs : list (K * V)) : gmap K V :=
  foldl (λ m kv, <[kv.1:=kv.2]> m) ∅ pairs.

Record bidict : Type := Bidict {
  fwd : gmap K V;
  inverse : gmap V K
}.

(** [bidict.bidict(d)] for a dict [d] whose values are pairwise distinct. *)
Definition bidict_of_dict (d : gmap K V) : bidict :=
  {| fwd := d; inverse := list_to_map (prod_swap <$> map_to_list d) |}.

End dict.
Arguments bidict K V {_ _ _ _}.

(** ** game.py: State *)

Inductive Outcomes : Type := WIN | LOSE | DRAW.

#[global] Instance Outcomes_eq_dec : EqDecision Outcomes.
Proof. solve_decision. Defined.

Section state.
Context {Token : Type} `{Countable Token}.

Record State : Type := mkState {
  _token_map : bidict Token Z;
  _n_rows : Z;
  _n_columns : Z;
  _board : list (option Z)
}.

Record StateView : Type := mkStateView {
  board_size : Z * Z;
  board : list (option Token)
}.

(** [State.__init__] *)
Definition State_init (external_tokens : list Token) (size : Z * Z) : State :=
  {| _token_map :=
       bidict_of_dict
         (dict_of_pairs (zip external_tokens (range (Z.of_nat (length external_tokens)))));
     _n_rows := size.1;
     _n_columns := size.2;
     _board := replicate (Z.to_nat size.1 * Z.to_nat size.2) None |}.

Definition set_board (s : State) (b : list (option Z)) : State :=
  {| _token_map := _token_map s; _n_rows := _n_rows s;
     _n_columns := _n_columns s; _board := b |}.

(** [State.expose_view]. In the view a cell is [None] when the cell of the
    board is empty, and [Some] of its token otherwise: the values of [Token]
    are taken to be other than Python's [None], which the view of the source
    cannot tell from an empty cell. *)
Definition view_cell (m : bidict Token Z) (cell : option Z) : option (option Token) :=
  match cell with
  | None => Some None
  | Some id => Some <$> inverse m !! id
  end.

Definition expose_view (s : State) : res StateView :=
  match mapM (view_cell (_token_map s)) (_board s) with
  | Some b => Ok {| board_size := (_n_rows s, _n_columns s); board := b |}
  | None => Raise KeyError
  end.

(** [State.place_token]: the [for] loop over the rows, with its [break]. *)
Fixpoint scan_column (b : list (option Z)) (n_columns column : Z)
    (rows : list Z) (lowest_open_cell_in_column : option Z) : res (option Z) :=
  match rows with
  | [] => Ok lowest_open_cell_in_column
  | row :: rows' =>
      match py_getitem b (row * n_columns + column - 1) with
      | None => Raise IndexError
      | Some (Some _) => Ok lowest_open_cell_in_column
      | Some None => scan_column b n_columns column rows' (Some row)
      end
  end.

(** The call returns its result together with the state it leaves behind. *)
Definition place_token (column : Z) (token : Token) (s : State) : res unit * State :=
  match scan_column (_board s) (_n_columns s) column (range (_n_rows s)) None with
  | Raise e => (Raise e, s)
  | Ok None => (Raise ActionError, s)
  | Ok (Some row) =>
      match fwd (_token_map s) !! token with
      | None => (Raise KeyError, s)
      | Some id =>
          match py_setitem (_board s) (row * _n_columns s + column - 1) (Some id) with
          | None => (Raise IndexError, s)
          | Some b' => (Ok (), set_board s b')
          end
      end
  end.

(** [State._generate_lines]: the slices taken, as (start, stop, step), in the
    order of the four loops. *)
Definition line_slices (n_rows n_columns : Z) : list (Z * Z * Z) :=
  (row ← range n_rows; column ← range (n_columns - 3);
     [(row * n_columns + column, row * n_columns + column + 4, 1)])%Z
  ++ (row ← range (n_rows - 3); column ← range n_columns;
     [(row * n_columns + column, (row + 4) * n_columns + column, n_columns)])%Z
  ++ (row ← range (n_rows - 3); column ← range (n_columns - 3);
     [(row * n_columns + column, (row + 4) * n_columns + column + 4, n_columns + 1)])%Z
  ++ (row ← range (n_rows - 3); column ← range2 3 n_columns;
     [(row * n_columns + column, (row + 4) * n_columns + column - 4, n_columns - 1)])%Z.

Definition _generate_lines (s : State) : list (list (option Z)) :=
  (λ '(start, stop, step), py_slice (_board s) start stop step)
    <$> line_slices (_n_rows s) (_n_columns s).

(** The cells each yielded line is made of, as positions of the flat board. *)
Definition generated_cells (len : nat) (n_rows n_columns : Z) : list (list Z) :=
  (λ '(start, stop, step), slice_indices len start stop step)
    <$> line_slices n_rows n_columns.

(** [State.check_for_outcome]: the loop over the lines, with its [break]. *)
Fixpoint scan_lines (m : bidict Token Z) (lines : list (list (option Z)))
    : res (option Outcomes * option Token) :=
  match lines with
  | [] => Ok (None, None)
  | line :: lines' =>
      match line with
      | [] => Raise IndexError
      | line0 :: _ =>
          if bool_decide (line0 ≠ None) && bool_decide (len_set line = 1) then
            match line0 ≫= λ id, inverse m !! id with
            | Some winning_token => Ok (Some WIN, Some winning_token)
            | None => Raise KeyError
            end
          else scan_lines m lines'
      end
  end.

Definition check_for_outcome (s : State) : res (option Outcomes * option Token) :=
  do r <- scan_lines (_token_map s) (_generate_lines s);
  let '(outcome, winning_token) := r in
  if bool_decide (outcome = None) && bool_decide (None ∉ _board s)
  then Ok (Some DRAW, winning_token)
  else Ok (outcome, winning_token).

End state.
Arguments State Token {_ _}.
Arguments StateView Token : clear implicits.

(** ** game.py: Action, Agent, Outcome *)

Inductive Actions : Type := PLACE.

(** The Python values an agent or a caller may hand over where the code
    checks a type at run time. [bool] is a subclass of [int]. *)
Inductive pyval : Type :=
| VNone
| VBool (b : bool)
| VInt (z : Z)
| VStr (s : string)
| VActions (a : Actions)
| VObject (class_name : string).

#[global] Instance Actions_eq_dec : EqDecision Actions.
Proof. solve_decision. Defined.
#[global] Instance pyval_eq_dec : EqDecision pyval.
Proof. solve_decision. Defined.

(** [isinstance(v, int)], with the integer when it holds. *)
Definition as_int (v : pyval) : option Z :=
  match v with
  | VInt z => Some z
  | VBool b => Some (if b then 1 else 0)%Z
  | _ => None
  end.

Record Action : Type := mkAction {
  action : pyval;
  place_column : pyval
}.

Inductive pyseq (A : Type) : Type :=
| PyList (l : list A)
| PyTuple (l : list A)
| PyNotSeq (v : pyval).
Arguments PyList {A} l.
Arguments PyTuple {A} l.
Arguments PyNotSeq {A} v.

Definition seq_items {A : Type} (s : pyseq A) : option (list A) :=
  match s with
  | PyList l | PyTuple l => Some l
  | PyNotSeq _ => None
  end.

(** [itertools.cycle(iterable)]: the elements are handed out and saved on the
    first pass, then the saved copy is replayed for ever. *)
Record cycle (A : Type) : Type := mkCycle {
  pending : list A;
  saved : list A;
  first_pass : bool
}.
Arguments mkCycle {A}.
Arguments pending {A}.
Arguments saved {A}.
Arguments first_pass {A}.

Definition cycle_of {A : Type} (iterable : list A) : cycle A :=
  mkCycle iterable [] true.

(** [next(c)]; [None] stands for [StopIteration]. *)
Definition cycle_next {A : Type} (c : cycle A) : option (A * cycle A) :=
  match pending c with
  | x :: rest =>
      Some (x, mkCycle rest (if first_pass c then saved c ++ [x] else saved c) (first_pass c))
  | [] =>
      match saved c with
      | x :: rest => Some (x, mkCycle rest (saved c) false)
      | [] => None
      end
  end.

Section game.
Context {Token : Type} `{Countable Token}.

(** An agent is an object: [agent_id] is its identity. Its answer may depend
    on its own history and on chance, which the number of [select_action]
    calls made so far in the game stands for. *)
Record Agent : Type := mkAgent {
  agent_id : nat;
  token : Token;
  select_action : nat → StateView Token → Action
}.

Record Outcome : Type := mkOutcome {
  agent_outcomes : list (Agent * option Outcomes);
  record : list (Token * Action)
}.

(** [d[agent] = v] on a dict keyed by the agent objects, in insertion order. *)
Fixpoint dict_set (d : list (Agent * option Outcomes)) (a : Agent) (v : option Outcomes)
    : list (Agent * option Outcomes) :=
  match d with
  | [] => [(a, v)]
  | (a', v') :: d' =>
      if decide (agent_id a' = agent_id a) then (a', v) :: d'
      else (a', v') :: dict_set d' a v
  end.

(** [Outcome.__init__] *)
Definition Outcome_init (agents : list Agent) : Outcome :=
  {| agent_outcomes := foldl (λ d a, dict_set d a None) [] agents; record := [] |}.

(** [Outcome.append_to_record] *)
Definition append_to_record (o : Outcome) (tok : Token) (a : Action) : Outcome :=
  {| agent_outcomes := agent_outcomes o; record := record o ++ [(tok, a)] |}.

(** ** game.py: Game *)

Inductive agent_arg : Type :=
| AnAgent (a : Agent)
| NotAnAgent (v : pyval).

Definition the_agent (x : agent_arg) : option Agent :=
  match x with
  | AnAgent a => Some a
  | NotAnAgent _ => None
  end.

Record Game : Type := mkGame {
  _agents : list Agent;
  _board_size : Z * Z
}.

(** The loop over the elements of [board_size]. *)
Fixpoint check_board_size (elements : list pyval) : res (list Z) :=
  match elements with
  | [] => Ok []
  | element :: rest =>
      match as_int element with
      | None => Raise TypeError
      | Some z =>
          if decide (z < 1)%Z then Raise ValueError
          else do zs <- check_board_size rest; Ok (z :: zs)
      end
  end.

(** [Game.__init__] *)
Definition Game_init (agents : pyseq agent_arg) (size : pyseq pyval) : res Game :=
  match seq_items agents with
  | None => Raise TypeError
  | Some agents =>
      if decide (length agents < 2) then Raise ValueError
      else
        match mapM the_agent agents with
        | None => Raise TypeError
        | Some agents =>
            match seq_items size with
            | None => Raise TypeError
            | Some size =>
                if decide (length size ≠ 2) then Raise ValueError
                else
                  do dims <- check_board_size size;
                  match dims with
                  | [n_rows; n_columns] =>
                      Ok {| _agents := agents; _board_size := (n_rows, n_columns) |}
                  | _ => Raise ValueError
                  end
            end
        end
  end.

(** The checks [play] makes on an action before it touches the state; the
    result is the column. *)
Definition check_action (n_columns : Z) (a : Action) : res Z :=
  if decide (action a ≠ VActions PLACE) then Raise ValueError
  else
    match as_int (place_column a) with
    | None => Raise TypeError
    | Some column =>
        if decide (column < 1 ∨ column > n_columns)%Z then Raise ValueError
        else Ok column
    end.

(** What the loop of [play] holds between two iterations; [calls] counts the
    [select_action] calls made so far. *)
Record loop_state : Type := mkLoop {
  agents_iter : cycle Agent;
  state : State Token;
  outcome : Outcome;
  calls : nat
}.

Inductive step : Type :=
| Continue (ls : loop_state)
| Break (ls : loop_state)
| Raised (e : exn) (ls : loop_state).

(** The two branches of [play] that set the results. The test
    [agent.token is result[1]] is rendered by equality of tokens: the two
    agree when no two agents hold equal tokens, the token handed back by the
    outcome check being then the very object its agent holds. *)
Definition finalize (o : Outcome) (result : option Outcomes * option Token) : option Outcome :=
  match result.1 with
  | Some WIN =>
      Some {| agent_outcomes :=
                (λ '(agent, _),
                   (agent, Some (if decide (Some (token agent) = result.2) then WIN else LOSE)))
                  <$> agent_outcomes o;
              record := record o |}
  | Some DRAW =>
      Some {| agent_outcomes := (λ '(agent, _), (agent, Some DRAW)) <$> agent_outcomes o;
              record := record o |}
  | _ => None
  end.

(** One iteration of the [while True] loop of [play]. *)
Definition play_iter (g : Game) (ls : loop_state) : step :=
  match cycle_next (agents_iter ls) with
  | None => Raised StopIteration ls
  | Some (current_agent, it) =>
      match expose_view (state ls) with
      | Raise e => Raised e (mkLoop it (state ls) (outcome ls) (calls ls))
      | Ok view =>
          let a := select_action current_agent (calls ls) view in
          let ls := mkLoop it (state ls) (outcome ls) (S (calls ls)) in
          match check_action (_board_size g).2 a with
          | Raise e => Raised e ls
          | Ok column =>
              match place_token column (token current_agent) (state ls) with
              | (Raise e, st) => Raised e (mkLoop it st (outcome ls) (calls ls))
              | (Ok _, st) =>
                  let o := append_to_record (outcome ls) (token current_agent) a in
                  match check_for_outcome st with
                  | Raise e => Raised e (mkLoop it st o (calls ls))
                  | Ok result =>
                      match finalize o result with
                      | Some o' => Break (mkLoop it st o' (calls ls))
                      | None => Continue (mkLoop it st o (calls ls))
                      end
                  end
              end
          end
      end
  end.

(** The [while True] loop, run for at most [fuel] iterations. *)
Fixpoint play_loop (g : Game) (fuel : nat) (ls : loop_state) : option (res loop_state) :=
  match fuel with
  | O => None
  | S fuel =>
      match play_iter g ls with
      | Continue ls' => play_loop g fuel ls'
      | Break ls' => Some (Ok ls')
      | Raised e _ => Some (Raise e)
      end
  end.

(** What a caller of [play] observes: the value returned ([None] is Python's
    [None]) and the [notify_outcome] calls made, in order. *)
Record play_result : Type := mkPlayResult {
  returned : option Outcome;
  notified : list (Agent * Outcome);
  final : loop_state
}.

Definition play_init (g : Game) (order : list Agent) : loop_state :=
  {| agents_iter := cycle_of order;
     state := State_init (token <$> _agents g) (_board_size g);
     outcome := Outcome_init (_agents g);
     calls := 0 |}.

(** [Game.play]; [order] is the list [random.sample] returned. *)
Definition play (g : Game) (order : list Agent) (fuel : nat) : option (res play_result) :=
  match play_loop g fuel (play_init g order) with
  | None => None
  | Some (Raise e) => Some (Raise e)
  | Some (Ok ls) =>
      Some (Ok {| returned := None;
                  notified := (λ agent, (agent, outcome ls)) <$> _agents g;
                  final := ls |})
  end.

End game.
Arguments Agent Token : clear implicits.
Arguments Outcome Token : clear implicits.
Arguments Game Token : clear implicits.
Arguments agent_arg Token : clear implicits.
Arguments loop_state Token {_ _}.
Arguments step Token {_ _}.
Arguments play_result Token {_ _}.

(** ** connect4.py: the single-file predecessor *)

Module Legacy.

Inductive Actions : Type := PLACE | REMOVE.

(** [string.ascii_lowercase] *)
Definition ascii_lowercase : list Ascii.ascii :=
  String.list_ascii_of_string "abcdefghijklmnopqrstuvwxyz".

Section legacy.
Context {Token : Type} `{Countable Token}.

(** The action dict: [{'action': ..., 'column': ..., 'token': ...}]; the
    value under ['action'] is compared with [==] against the two members of
    [Actions], [None] here is any other value. *)
Record Action : Type := mkAction {
  action : option Actions;
  column : Z;
  token : Token
}.

Record State : Type := mkState {
  token_map : bidict Token Ascii.ascii;
  n_rows : Z;
  n_columns : Z;
  board : list (option Ascii.ascii)
}.

(** [State.__init__] *)
Definition State_init (external_tokens : list Token) (size : Z * Z) : State :=
  {| token_map :=
       bidict_of_dict
         (dict_of_pairs (zip external_tokens (take (length external_tokens) ascii_lowercase)));
     n_rows := size.1;
     n_columns := size.2;
     board := replicate (Z.to_nat size.1 * Z.to_nat size.2) None |}.

Definition set_board (s : State) (b : list (option Ascii.ascii)) : State :=
  {| token_map := token_map s; n_rows := n_rows s; n_columns := n_columns s; board := b |}.

(** [State._generate_lines] *)
Definition _generate_lines (s : State) : list (list (option Ascii.ascii)) :=
  (λ '(start, stop, step), py_slice (board s) start stop step)
    <$> line_slices (n_rows s) (n_columns s).

(** The loop of [State._place_token]. *)
Fixpoint scan_open (b : list (option Ascii.ascii)) (n_columns column : Z)
    (rows : list Z) (lowest_open_cell_in_column : option Z) : res (option Z) :=
  match rows with
  | [] => Ok lowest_open_cell_in_column
  | row :: rows' =>
      match py_getitem b (row * n_columns + column - 1) with
      | None => Raise IndexError
      | Some None => scan_open b n_columns column rows' (Some row)
      | Some (Some _) => Ok lowest_open_cell_in_column
      end
  end.

(** [State._place_token] *)
Definition _place_token (column : Z) (tok : Token) (s : State) : res bool * State :=
  match scan_open (board s) (n_columns s) column (range (n_rows s)) None with
  | Raise e => (Raise e, s)
  | Ok (Some row) =>
      match fwd (token_map s) !! tok with
      | None => (Raise KeyError, s)
      | Some id =>
          match py_setitem (board s) (row * n_columns s + column - 1) (Some id) with
          | None => (Raise IndexError, s)
          | Some b' => (Ok true, set_board s b')
          end
      end
  | Ok None => (Ok false, s)
  end.

(** The loop of [State._remove_token]. *)
Fixpoint scan_filled (b : list (option Ascii.ascii)) (n_columns column : Z) (rows : list Z)
    : res (option Z) :=
  match rows with
  | [] => Ok None
  | row :: rows' =>
      match py_getitem b (row * n_columns + column - 1) with
      | None => Raise IndexError
      | Some (Some _) => Ok (Some row)
      | Some None => scan_filled b n_columns column rows'
      end
  end.

(** [State._remove_token] *)
Definition _remove_token (column : Z) (s : State) : res bool * State :=
  match scan_filled (board s) (n_columns s) column (range (n_rows s)) with
  | Raise e => (Raise e, s)
  | Ok (Some row) =>
      match py_setitem (board s) (row * n_columns s + column - 1) None with
      | None => (Raise IndexError, s)
      | Some b' => (Ok true, set_board s b')
      end
  | Ok None => (Ok false, s)
  end.

(** [State.execute_action] *)
Definition execute_action (a : Action) (s : State) : res bool * State :=
  match action a with
  | Some PLACE => _place_token (column a) (token a) s
  | Some REMOVE => _remove_token (column a) s
  | None => (Ok false, s)
  end.

(** The loop over the lines in [State.check_for_end]. *)
Fixpoint scan_lines (m : bidict Token Ascii.ascii) (lines : list (list (option Ascii.ascii)))
    : res (option (gmap Token string)) :=
  match lines with
  | [] => Ok None
  | line :: lines' =>
      match line with
      | [] => Raise IndexError
      | line0 :: _ =>
          if bool_decide (line0 ≠ None) && bool_decide (len_set line = 1) then
            Ok (Some ((λ id, if decide (line0 = Some id) then "Win" else "Loss") <$> fwd m))
          else scan_lines m lines'
      end
  end.

(** [State.check_for_end] *)
Definition check_for_end (s : State) : res (option (gmap Token string)) :=
  if bool_decide (None ∉ board s) then Ok (Some ((λ _, "Draw") <$> fwd (token_map s)))
  else scan_lines (token_map s) (_generate_lines s).

Record Agent : Type := mkAgent {
  agent_token : Token;
  select_action : nat → State → Action
}.

Record Game : Type := mkGame { agents : list Agent }.

Record loop_state : Type := mkLoop {
  agents_iter : cycle Agent;
  state : State;
  calls : nat
}.

(** One iteration of the loop of [Game.play]: a failed action is passed over;
    the loop is left when the outcome is a non-empty dict. *)
Definition play_iter (ls : loop_state)
    : res (loop_state * option (gmap Token string)) :=
  match cycle_next (agents_iter ls) with
  | None => Raise StopIteration
  | Some (agent, it) =>
      let selected_action := select_action agent (calls ls) (state ls) in
      match execute_action selected_action (state ls) with
      | (Raise e, _) => Raise e
      | (Ok _, st) =>
          do o <- check_for_end st;
          Ok (mkLoop it st (S (calls ls)),
              match o with
              | Some d => if decide (d = ∅) then None else Some d
              | None => None
              end)
      end
  end.

Fixpoint play_loop (fuel : nat) (ls : loop_state)
    : option (res (loop_state * gmap Token string)) :=
  match fuel with
  | O => None
  | S fuel =>
      match play_iter ls with
      | Raise e => Some (Raise e)
      | Ok (ls', Some d) => Some (Ok (ls', d))
      | Ok (ls', None) => play_loop fuel ls'
      end
  end.

(** What a caller of [play] observes: the value returned and the
    [notify_outcome] calls made. *)
Record play_result : Type := mkPlayResult {
  returned : gmap Token string;
  notified : list (Agent * gmap Token string);
  final : State
}.

(** [Game.play]; [order] is the list [random.sample] returned; the board has
    the default size of [State.__init__]. *)
Definition play (g : Game) (order : list Agent) (fuel : nat) : option (res play_result) :=
  match play_loop fuel
          (mkLoop (cycle_of order) (State_init (agent_token <$> agents g) (6, 7)%Z) 0) with
  | None => None
  | Some (Raise e) => Some (Raise e)
  | Some (Ok (ls, d)) =>
      Some (Ok {| returned := d;
                  notified := (λ agent, (agent, d)) <$> agents g;
                  final := state ls |})
  end.

End legacy.
Arguments State Token {_ _}.
Arguments Action Token : clear implicits.
Arguments Agent Token {_ _}.
Arguments Game Token {_ _}.

End Legacy.

(** ** Vocabulary of the specification *)

Section vocabulary.
Context {Token : Type} `{Countable Token}.

(** The cell in row [row] (0 is the top row) of column [column] (1 is the
    leftmost column), as [place_token] reads it. *)
Definition cell (s : State Token) (row column : Z) : option (option Z) :=
  py_getitem (_board s) (row * _n_columns s + column - 1).

Definition board_wf (s : State Token) : Prop :=
  length (_board s) = (Z.to_nat (_n_rows s) * Z.to_nat (_n_columns s))%nat.

(** No token floats: below an occupied cell every cell is occupied. *)
Definition gravity (s : State Token) : Prop :=
  ∀ row column id,
    (0 ≤ row)%Z → (row + 1 < _n_rows s)%Z → (1 ≤ column ≤ _n_columns s)%Z →
    cell s row column = Some (Some id) →
    ∃ id', cell s (row + 1) column = Some (Some id').

(** Every id on the board is the id of an external token. *)
Definition ids_known (s : State Token) : Prop :=
  ∀ i id, _board s !! i = Some (Some id) →
    ∃ tok, inverse (_token_map s) !! id = Some tok ∧ fwd (_token_map s) !! tok = Some id.

(** The states of a game: [State.__init__], then successful [place_token]
    calls on columns that passed the checks of [play]. *)
Inductive reachable (external_tokens : list Token) (size : Z * Z) : State Token → Prop :=
| reachable_init : reachable external_tokens size (State_init external_tokens size)
| reachable_place s column tok s' :
    reachable external_tokens size s →
    (1 ≤ column ≤ _n_columns s)%Z →
    place_token column tok s = (Ok (), s') →
    reachable external_tokens size s'.

(** The number of empty cells. *)
Definition empty_cells (s : State Token) : nat :=
  length (filter (λ c, c = None) (_board s)).

End vocabulary.

(** A line of four identical non-empty cells, all holding [id]. *)
Definition four_in_a_row (line : list (option Z)) (id : Z) : Prop :=
  line = [Some id; Some id; Some id; Some id].

(** The length-4 runs of cells of a board: a start cell and one of four
    directions. *)
Inductive direction : Type := Horizontal | Vertical | Diagonal_down | Diagonal_up.

(** (rows, columns) moved per step. [Diagonal_up] is read from its upper
    right end, so it moves down and to the left. *)
Definition direction_step (d : direction) : Z * Z :=
  match d with
  | Horizontal => (0, 1)
  | Vertical => (1, 0)
  | Diagonal_down => (1, 1)
  | Diagonal_up => (1, -1)
  end%Z.

(** Cells are (row, column), both from 0. *)
Definition run_cells (row column : Z) (d : direction) : list (Z * Z) :=
  (λ k, (row + k * (direction_step d).1, column + k * (direction_step d).2)%Z)
    <$> [0; 1; 2; 3]%Z.

Definition on_board (n_rows n_columns : Z) (c : Z * Z) : Prop :=
  (0 ≤ c.1 < n_rows ∧ 0 ≤ c.2 < n_columns)%Z.

Definition fits (n_rows n_columns : Z) (run : list (Z * Z)) : Prop :=
  Forall (on_board n_rows n_columns) run.

(** The position of a cell in the flat, row-major board. *)
Definition position (n_columns : Z) (c : Z * Z) : Z := (c.1 * n_columns + c.2)%Z.

(** The distance, in positions, between two neighbours of a run. *)
Definition stride (n_columns : Z) (d : direction) : Z :=
  position n_columns (direction_step d).

(** The iterator [itertools.cycle(order)] after [q] full passes over [order]
    and [r] more elements. *)
Definition cycle_at {A : Type} (order : list A) (q r : nat) (c : cycle A) : Prop :=
  r ≤ length order
  ∧ pending c = drop r order
  ∧ if decide (q = 0) then first_pass c = true ∧ saved c = take r order
    else first_pass c = false ∧ saved c = order ∧ 0 < r.

Section game_vocabulary.
Context {Token : Type} `{Countable Token}.

(** The state of the loop of [play] at the start of turn [t] (turns are
    counted from 0), when the game has not ended before. *)
Fixpoint iterations (g : Game Token) (t : nat) (ls : loop_state Token)
    : option (loop_state Token) :=
  match t with
  | O => Some ls
  | S t =>
      match play_iter g ls with
      | Continue ls' => iterations g t ls'
      | _ => None
      end
  end.

(** The agent asked at a state of the loop, and its answer. *)
Definition answer (ls : loop_state Token) : option (Agent Token * Action) :=
  match cycle_next (agents_iter ls), expose_view (state ls) with
  | Some (agent, _), Ok view => Some (agent, select_action agent (calls ls) view)
  | _, _ => None
  end.

(** An action is structurally invalid: its kind is not PLACE, its column is
    not an integer, or its column lies outside [1, n_columns]. *)
Definition structurally_invalid (n_columns : Z) (a : Action) : Prop :=
  action a ≠ VActions PLACE
  ∨ as_int (place_column a) = None
  ∨ ∃ column, as_int (place_column a) = Some column
      ∧ (column < 1 ∨ column > n_columns)%Z.

(** The column has an empty cell. *)
Definition open_column (s : State Token) (column : Z) : Prop :=
  ∃ row, (0 ≤ row < _n_rows s)%Z ∧ cell s row column = Some None.

(** The answer given at a state of the loop is a structurally valid PLACE on
    a column that is not full. *)
Definition plays_open_column (g : Game Token) (ls : loop_state Token) : Prop :=
  ∀ agent a, answer ls = Some (agent, a) →
    action a = VActions PLACE
    ∧ ∃ column, as_int (place_column a) = Some column
        ∧ (1 ≤ column ≤ (_board_size g).2)%Z
        ∧ open_column (state ls) column.

(** A test that implies [plays_open_column]: the answer is a valid PLACE on a
    column whose top cell is empty. *)
Definition plays_open_column_b (g : Game Token) (ls : loop_state Token) : bool :=
  match answer ls with
  | Some (_, a) =>
      bool_decide (action a = VActions PLACE)
      && match as_int (place_column a) with
         | Some column =>
             bool_decide (1 ≤ column ≤ (_board_size g).2)%Z
             && bool_decide (0 < _n_rows (state ls))%Z
             && bool_decide (cell (state ls) 0 column = Some None)
         | None => false
         end
  | None => true
  end.

(** Every agent has been given a result. *)
Definition finalized (o : Outcome Token) : Prop :=
  Forall (λ p, p.2 = Some WIN ∨ p.2 = Some LOSE) (agent_outcomes o)
  ∨ Forall (λ p, p.2 = Some DRAW) (agent_outcomes o).

End game_vocabulary.

(** ** Concrete games *)

(** A game of 42 moves on the 6 x 7 board, X first: the columns chosen, in
    order. The last move fills the board. *)
Definition full_game_columns : list Z :=
  [6; 6; 3; 2; 5; 1; 7; 6; 2; 5; 2; 5; 7; 1; 3; 1; 6; 2; 1; 4; 4;
   7; 6; 5; 7; 1; 1; 2; 4; 3; 4; 7; 7; 2; 3; 6; 3; 4; 5; 4; 5; 3]%Z.

(** An agent that plays [PLACE] on the columns of a script, call after call. *)
Definition scripted (id : nat) (tok : string) (script : nat → Z) : Agent string :=
  mkAgent id tok (λ n _, mkAction (VActions PLACE) (VInt (script n))).

Definition script_of (columns : list Z) (n : nat) : Z := default 1%Z (columns !! n).

Definition agent_X : Agent string := scripted 0 "X" (script_of full_game_columns).
Definition agent_O : Agent string := scripted 1 "O" (script_of full_game_columns).
Definition game_6x7 : Game string := mkGame [agent_X; agent_O] (6, 7)%Z.

(** A game of four moves on a board of 2 x 2. *)
Definition small_columns : list Z := [1; 1; 2; 2]%Z.
Definition small_X : Agent string := scripted 0 "X" (script_of small_columns).
Definition small_O : Agent string := scripted 1 "O" (script_of small_columns).
Definition game_2x2 : Game string := mkGame [small_X; small_O] (2, 2)%Z.

(** Two agents holding the same token. *)
Definition twin_1 : Agent string := scripted 0 "X" (script_of small_columns).
Definition twin_2 : Agent string := scripted 1 "X" (script_of small_columns).

(** The board of one cell, filled by X; the 6 x 7 board after X has played
    column 4. *)
Definition one_cell_full : State string :=
  (place_token 1 "X" (State_init ["X"; "O"] (1, 1)%Z)).2.
Definition after_first_move : State string :=
  (place_token 4 "X" (State_init ["X"; "O"] (6, 7)%Z)).2.

Definition legacy_scripted (tok : string) (script : nat → Z) : Legacy.Agent string :=
  Legacy.mkAgent tok (λ n _, Legacy.mkAction (Some Legacy.PLACE) (script n) tok).
Definition legacy_X : Legacy.Agent string := legacy_scripted "X" (script_of full_game_columns).
Definition legacy_O : Legacy.Agent string := legacy_scripted "O" (script_of full_game_columns).
Definition legacy_game : Legacy.Game string := Legacy.mkGame [legacy_X; legacy_O].

(** ** _agents.py: RandomAgent *)

(** [random.choice(seq)]: an element of [seq], here the one at position
    [pick mod len(seq)], where [pick] stands for the draw; [IndexError] on an
    empty sequence. *)
Definition random_choice {A : Type} (pick : nat) (l : list A) : res A :=
  match l !! (pick mod length l) with
  | Some x => Ok x
  | None => Raise IndexError
  end.

Module RandomAgent.
Section random_agent.
Context {Token : Type}.

(** The list [open_columns] of [select_action]: the columns, from 1, whose
    cell in the first row of the view is empty. *)
Definition open_columns (state_view : StateView Token) : list Z :=
  omap (λ '(index, tok), match tok with
                         | None => Some (index + 1)%Z
                         | Some _ => None
                         end)
    (zip (range (board_size state_view).2)
         (py_slice (board state_view) 0 (board_size state_view).2 1)).

(** [RandomAgent.select_action] *)
Definition select_action (pick : nat) (state_view : StateView Token) : res Action :=
  do column <- random_choice pick (open_columns state_view);
  Ok (mkAction (VActions PLACE) (VInt column)).

End random_agent.
End RandomAgent.



(** ** Vocabulary for connect4.py *)

(** A line of four cells, all holding [x]. *)
Definition four_cells {A : Type} (line : list (option A)) (x : A) : Prop :=
  line = [Some x; Some x; Some x; Some x].

Section legacy_vocabulary.
Context {Token : Type} `{Countable Token}.

Definition legacy_cell (s : Legacy.State Token) (row column : Z)
    : option (option Ascii.ascii) :=
  py_getitem (Legacy.board s) (row * Legacy.n_columns s + column - 1).

Definition legacy_board_wf (s : Legacy.State Token) : Prop :=
  length (Legacy.board s)
  = (Z.to_nat (Legacy.n_rows s) * Z.to_nat (Legacy.n_columns s))%nat.

End legacy_vocabulary.

(** A game on a board of 2 x 2 in which both agents keep to column 1; the
    loop at the start of the third turn. *)
Definition stubborn_columns : list Z := [1; 1; 1]%Z.
Definition stubborn_X : Agent string := scripted 0 "X" (script_of stubborn_columns).
Definition stubborn_O : Agent string := scripted 1 "O" (script_of stubborn_columns).
Definition stubborn_game : Game string := mkGame [stubborn_X; stubborn_O] (2, 2)%Z.
Definition third_turn : loop_state string :=
  default (play_init stubborn_game [stubborn_X; stubborn_O])
    (iterations stubborn_game 2 (play_init stubborn_game [stubborn_X; stubborn_O])).


(** A game of the predecessor whose only agent answers with an action that
    is neither PLACE nor REMOVE. *)
Definition legacy_idle : Legacy.Agent string :=
  Legacy.mkAgent "X" (λ _ _, Legacy.mkAction None 1 "X").
Definition legacy_idle_game : Legacy.Game string := Legacy.mkGame [legacy_idle].

(** * Properties *)

(** ** Indexing *)

Lemma py_index_nonneg (len : nat) (i : Z) :
  (0 ≤ i < Z.of_nat len)%Z → py_index len i = Some (Z.to_nat i).
Proof. intros Hi. unfold py_index. by rewrite decide_True. Qed.

Lemma py_getitem_nonneg {A : Type} (l : list A) (i : Z) :
  (0 ≤ i < Z.of_nat (length l))%Z → py_getitem l i = l !! Z.to_nat i.
Proof. intros Hi. unfold py_getitem. by rewrite py_index_nonneg. Qed.

Lemma py_getitem_is_Some {A : Type} (l : list A) (i : Z) :
  (0 ≤ i < Z.of_nat (length l))%Z → is_Some (py_getitem l i).
Proof.
  intros Hi. rewrite py_getitem_nonneg by done.
  apply lookup_lt_is_Some. lia.
Qed.

Lemma py_setitem_nonneg {A : Type} (l : list A) (i : Z) (x : A) :
  (0 ≤ i < Z.of_nat (length l))%Z → py_setitem l i x = Some (<[Z.to_nat i:=x]> l).
Proof. intros Hi. unfold py_setitem. by rewrite py_index_nonneg. Qed.

Lemma py_setitem_length {A : Type} (l l' : list A) (i : Z) (x : A) :
  py_setitem l i x = Some l' → length l' = length l.
Proof.
  unfold py_setitem. destruct (py_index _ _); simpl; [|done].
  intros [= <-]. apply length_insert.
Qed.

Lemma position_in_board (n_rows n_columns row column : Z) :
  (0 ≤ row < n_rows)%Z → (1 ≤ column ≤ n_columns)%Z →
  (0 ≤ row * n_columns + column - 1
   < Z.of_nat (Z.to_nat n_rows * Z.to_nat n_columns))%Z.
Proof. intros Hr Hc. nia. Qed.

Lemma position_inj (n_columns row column row' column' : Z) :
  (0 ≤ column < n_columns)%Z → (0 ≤ column' < n_columns)%Z →
  (row * n_columns + column = row' * n_columns + column')%Z →
  row = row' ∧ column = column'.
Proof. intros Hc Hc' Heq. assert (row = row') by nia. subst. lia. Qed.

(** ** The token map *)

Section dict_facts.
Context {K V : Type} `{Countable K} `{Countable V}.

Lemma dict_of_pairs_foldl (pairs : list (K * V)) (m : gmap K V) (k : K) (v : V) :
  foldl (λ m kv, <[kv.1:=kv.2]> m) m pairs !! k = Some v →
  (k, v) ∈ pairs ∨ m !! k = Some v.
Proof.
  revert m. induction pairs as [|[k' v'] pairs IH]; intros m; simpl; [by right|].
  intros Hl. destruct (IH _ Hl) as [Hin|Hm].
  - left. by right.
  - destruct (decide (k' = k)) as [->|Hne].
    + rewrite lookup_insert_eq in Hm. injection Hm as ->. left. by left.
    + rewrite lookup_insert_ne in Hm by done. by right.
Qed.

Lemma dict_of_pairs_lookup_Some (pairs : list (K * V)) (k : K) (v : V) :
  dict_of_pairs pairs !! k = Some v → (k, v) ∈ pairs.
Proof.
  intros Hl. destruct (dict_of_pairs_foldl _ _ _ _ Hl) as [?|Hm]; [done|].
  by rewrite lookup_empty in Hm.
Qed.

Lemma dict_of_pairs_foldl_is_Some (pairs : list (K * V)) (m : gmap K V) (k : K) :
  k ∈ pairs.*1 ∨ is_Some (m !! k) →
  is_Some (foldl (λ m kv, <[kv.1:=kv.2]> m) m pairs !! k).
Proof.
  revert m. induction pairs as [|[k' v'] pairs IH]; intros m; simpl.
  - intros [Hin|?]; [|done]. by apply elem_of_nil in Hin.
  - intros [Hin|Hm]; apply IH.
    + apply elem_of_cons in Hin as [->|Hin]; [|by left].
      right. rewrite lookup_insert_eq. by eexists.
    + right. destruct (decide (k' = k)) as [->|Hne].
      * rewrite lookup_insert_eq. by eexists.
      * by rewrite lookup_insert_ne.
Qed.

Lemma dict_of_pairs_is_Some (pairs : list (K * V)) (k : K) :
  k ∈ pairs.*1 → is_Some (dict_of_pairs pairs !! k).
Proof. intros Hin. apply dict_of_pairs_foldl_is_Some. by left. Qed.

Lemma bidict_inverse_lookup (d : gmap K V) (k : K) (v : V) :
  (∀ k1 k2 v, d !! k1 = Some v → d !! k2 = Some v → k1 = k2) →
  inverse (bidict_of_dict d) !! v = Some k ↔ d !! k = Some v.
Proof.
  intros Hinj. simpl. rewrite <- elem_of_list_to_map.
  - rewrite list_elem_of_fmap. split.
    + intros ([k' v'] & [= -> ->] & Hin). by apply elem_of_map_to_list.
    + intros Hd. exists (k, v). split; [done|]. by apply elem_of_map_to_list.
  - rewrite <- list_fmap_compose.
    apply NoDup_fmap_2_strong; [|apply NoDup_map_to_list].
    intros [k1 v1] [k2 v2] Hin1 Hin2. simpl. intros ->.
    apply elem_of_map_to_list in Hin1, Hin2. f_equal. by eapply Hinj.
Qed.

End dict_facts.

Section token_map_facts.
Context {Token : Type} `{Countable Token}.

Lemma token_pairs_lookup (external_tokens : list Token) (tok : Token) (id : Z) :
  (tok, id) ∈ zip external_tokens (range (Z.of_nat (length external_tokens))) →
  (0 ≤ id)%Z ∧ external_tokens !! Z.to_nat id = Some tok.
Proof.
  intros Hin. apply list_elem_of_lookup in Hin as [i Hi].
  apply lookup_zip_with_Some in Hi as (x & y & [= <- <-] & Hx & Hy).
  apply lookup_seqZ in Hy as [-> _]. split; [lia|].
  by replace (Z.to_nat (0 + Z.of_nat i)) with i by lia.
Qed.

Lemma token_dict_inj (external_tokens : list Token) (k1 k2 : Token) (id : Z) :
  let d := dict_of_pairs (zip external_tokens (range (Z.of_nat (length external_tokens)))) in
  d !! k1 = Some id → d !! k2 = Some id → k1 = k2.
Proof.
  intros d H1 H2.
  apply dict_of_pairs_lookup_Some, token_pairs_lookup in H1 as [_ H1].
  apply dict_of_pairs_lookup_Some, token_pairs_lookup in H2 as [_ H2].
  congruence.
Qed.

(** The two directions of the token map agree. *)
Lemma token_map_inverse (external_tokens : list Token) (size : Z * Z) (tok : Token) (id : Z) :
  let m := _token_map (State_init external_tokens size) in
  inverse m !! id = Some tok ↔ fwd m !! tok = Some id.
Proof.
  intros m. subst m. unfold State_init. cbn [_token_map].
  apply bidict_inverse_lookup. intros k1 k2 v. apply token_dict_inj.
Qed.

Lemma token_map_fwd_elem (external_tokens : list Token) (size : Z * Z) (tok : Token) (id : Z) :
  fwd (_token_map (State_init external_tokens size)) !! tok = Some id →
  tok ∈ external_tokens.
Proof.
  simpl. intros Hl.
  apply dict_of_pairs_lookup_Some, token_pairs_lookup in Hl as [_ Hl].
  apply list_elem_of_lookup. eauto.
Qed.

Lemma token_map_fwd_is_Some (external_tokens : list Token) (size : Z * Z) (tok : Token) :
  tok ∈ external_tokens →
  is_Some (fwd (_token_map (State_init external_tokens size)) !! tok).
Proof.
  intros Hin. simpl. apply dict_of_pairs_is_Some.
  rewrite fst_zip; [done|]. unfold range. rewrite length_seqZ. lia.
Qed.

End token_map_facts.

(** ** Placing a token *)

Section state_facts.
Context {Token : Type} `{Countable Token}.
Implicit Types s : State Token.

Lemma board_wf_length s :
  board_wf s → (0 ≤ _n_rows s)%Z → (0 ≤ _n_columns s)%Z →
  Z.of_nat (length (_board s)) = (_n_rows s * _n_columns s)%Z.
Proof. unfold board_wf. intros -> ??. nia. Qed.

Lemma cell_lookup s (row column : Z) :
  board_wf s → (0 ≤ row < _n_rows s)%Z → (1 ≤ column ≤ _n_columns s)%Z →
  cell s row column = _board s !! Z.to_nat (row * _n_columns s + column - 1).
Proof.
  intros Hwf Hr Hc. unfold cell. apply py_getitem_nonneg.
  rewrite Hwf. by apply position_in_board.
Qed.

Lemma cell_is_Some s (row column : Z) :
  board_wf s → (0 ≤ row < _n_rows s)%Z → (1 ≤ column ≤ _n_columns s)%Z →
  is_Some (cell s row column).
Proof.
  intros Hwf Hr Hc. unfold cell. apply py_getitem_is_Some.
  rewrite Hwf. by apply position_in_board.
Qed.

(** What the loop of [place_token] computes on the rows [k, k + n): [j] is
    the first row found occupied, or [k + n] when there is none. *)
Lemma scan_column_spec (b : list (option Z)) (n_columns column : Z) (n : nat) (k : Z)
    (lowest : option Z) :
  (∀ row, (k ≤ row < k + Z.of_nat n)%Z →
     is_Some (py_getitem b (row * n_columns + column - 1))) →
  ∃ j, (k ≤ j ≤ k + Z.of_nat n)%Z
    ∧ (∀ row, (k ≤ row < j)%Z → py_getitem b (row * n_columns + column - 1) = Some None)
    ∧ ((j < k + Z.of_nat n)%Z →
         ∃ id, py_getitem b (j * n_columns + column - 1) = Some (Some id))
    ∧ scan_column b n_columns column (seqZ k (Z.of_nat n)) lowest
      = Ok (if decide (j = k) then lowest else Some (j - 1)%Z).
Proof.
  revert k lowest. induction n as [|n IH]; intros k lowest Hsome.
  - exists k. simpl. repeat split; [lia..|]. by rewrite decide_True.
  - rewrite seqZ_cons by lia. simpl.
    destruct (Hsome k) as [c Hc]; [lia|]. rewrite Hc. destruct c as [id|].
    + exists k. repeat split; [lia..| |].
      * intros _. by exists id.
      * by rewrite decide_True.
    + replace (Z.pred (Z.of_nat (S n))) with (Z.of_nat n) by lia.
      destruct (IH (Z.succ k) (Some k)) as (j & Hj & Hempty & Hocc & Heq).
      { intros row Hrow. apply Hsome. lia. }
      exists j. split; [lia|]. split; [|split].
      * intros row Hrow. destruct (decide (row = k)) as [->|]; [done|].
        apply Hempty. lia.
      * intros Hlt. apply Hocc. lia.
      * rewrite Heq. rewrite (decide_False (P := j = k)) by lia.
        case_decide; [do 2 f_equal; lia|done].
Qed.

(** In a state without floating tokens, every cell below an occupied one is
    occupied. *)
Lemma gravity_below s (row row' column : Z) (id : Z) :
  gravity s → (0 ≤ row ≤ row')%Z → (row' < _n_rows s)%Z →
  (1 ≤ column ≤ _n_columns s)%Z →
  cell s row column = Some (Some id) →
  ∃ id', cell s row' column = Some (Some id').
Proof.
  intros Hg Hr Hr' Hc.
  assert (∀ d : nat, (row + Z.of_nat d < _n_rows s)%Z →
    ∀ id, cell s row column = Some (Some id) →
    ∃ id', cell s (row + Z.of_nat d) column = Some (Some id')) as Hd.
  { induction d as [|d IH]; intros Hlt id0 Hid0.
    - exists id0. by replace (row + Z.of_nat 0)%Z with row by lia.
    - destruct (IH ltac:(lia) id0 Hid0) as [id1 Hid1].
      replace (row + Z.of_nat (S d))%Z with (row + Z.of_nat d + 1)%Z by lia.
      eapply Hg; [lia..|done|done]. }
  intros Hid. specialize (Hd (Z.to_nat (row' - row)) ltac:(lia) id Hid).
  by replace (row + Z.of_nat (Z.to_nat (row' - row)))%Z with row' in Hd by lia.
Qed.

(** The two ways a call of [place_token] on a column of the board can go. *)
Lemma place_token_cases s (column : Z) (tok : Token) :
  board_wf s → gravity s → (1 ≤ column ≤ _n_columns s)%Z →
  ((∀ row, (0 ≤ row < _n_rows s)%Z → cell s row column ≠ Some None)
   ∧ place_token column tok s = (Raise ActionError, s))
  ∨ (∃ row, (0 ≤ row < _n_rows s)%Z
      ∧ cell s row column = Some None
      ∧ (∀ r, (0 ≤ r < row)%Z → cell s r column = Some None)
      ∧ (∀ r, (row < r < _n_rows s)%Z → ∃ id, cell s r column = Some (Some id))
      ∧ place_token column tok s =
          match fwd (_token_map s) !! tok with
          | Some id =>
              (Ok (), set_board s (<[Z.to_nat (row * _n_columns s + column - 1):=Some id]>
                                     (_board s)))
          | None => (Raise KeyError, s)
          end).
Proof.
  intros Hwf Hg Hc. unfold place_token.
  destruct (decide (_n_rows s ≤ 0)%Z) as [Hneg|Hpos].
  { left. split; [intros; lia|]. unfold range. by rewrite seqZ_nil. }
  destruct (scan_column_spec (_board s) (_n_columns s) column (Z.to_nat (_n_rows s)) 0 None)
    as (j & Hj & Hempty & Hocc & Heq).
  { intros row Hrow. apply (cell_is_Some s row column); [done|lia|done]. }
  unfold range. rewrite Z2Nat.id in Heq by lia. rewrite Heq.
  case_decide as Hj0.
  - left. split; [|done]. subst j. intros row Hrow Hnone.
    destruct Hocc as [id Hid]; [lia|].
    destruct (gravity_below s 0 row column id) as [id' Hid']; [done|lia..|done|].
    unfold cell in *. congruence.
  - right. exists (j - 1)%Z. split; [lia|]. split; [apply Hempty; lia|].
    split; [intros r Hr; apply Hempty; lia|]. split.
    + intros r Hr. destruct Hocc as [id Hid]; [lia|].
      apply (gravity_below s j r column id); [done|lia..|done].
    + destruct (fwd (_token_map s) !! tok) as [id|]; [|done].
      rewrite py_setitem_nonneg; [done|].
      rewrite Hwf. apply position_in_board; lia.
Qed.

(** CLAIM C4: when the target column has no empty cell, [place_token] raises
    [ActionError] and leaves the state, hence every cell of the board, as it
    was. *)
Theorem place_token_full_column s (column : Z) (tok : Token) :
  board_wf s → (1 ≤ column ≤ _n_columns s)%Z →
  (∀ row, (0 ≤ row < _n_rows s)%Z → cell s row column ≠ Some None) →
  place_token column tok s = (Raise ActionError, s).
Proof.
  intros Hwf Hc Hfull. unfold place_token, range.
  destruct (decide (_n_rows s ≤ 0)%Z) as [Hneg|Hpos].
  { by rewrite seqZ_nil. }
  rewrite seqZ_cons by lia. simpl.
  destruct (cell_is_Some s 0 column) as [c Hc0]; [done|lia|done|].
  specialize (Hfull 0%Z ltac:(lia)). unfold cell in *.
  rewrite Hc0. destruct c; [done|congruence].
Qed.

Lemma py_getitem_elem_of {A : Type} (l : list A) (i : Z) (x : A) :
  py_getitem l i = Some x → x ∈ l.
Proof.
  unfold py_getitem. destruct (py_index _ _) as [n|]; simpl; [|done].
  intros Hl. apply list_elem_of_lookup. eauto.
Qed.

Lemma board_wf_set_board s (i : nat) (c : option Z) :
  board_wf s → board_wf (set_board s (<[i:=c]> (_board s))).
Proof. unfold board_wf. simpl. by rewrite length_insert. Qed.

(** Reading the board after one cell has been written. *)
Lemma cell_set_board s (row column r c : Z) (v : option Z) :
  board_wf s →
  (0 ≤ row < _n_rows s)%Z → (1 ≤ column ≤ _n_columns s)%Z →
  (0 ≤ r < _n_rows s)%Z → (1 ≤ c ≤ _n_columns s)%Z →
  cell (set_board s (<[Z.to_nat (row * _n_columns s + column - 1):=v]> (_board s))) r c
  = if decide (r = row ∧ c = column) then Some v else cell s r c.
Proof.
  intros Hwf Hrow Hcol Hr Hc.
  rewrite cell_lookup; [|by apply board_wf_set_board|done..].
  rewrite (cell_lookup s r c) by done. simpl.
  pose proof (position_in_board _ _ _ _ Hrow Hcol) as Hp.
  pose proof (position_in_board _ _ _ _ Hr Hc) as Hp'.
  rewrite list_lookup_insert. case_decide as Hd; case_decide as Hd'; try done.
  - destruct Hd as [Heq _]. exfalso. apply Hd'.
    destruct (position_inj (_n_columns s) row (column - 1) r (c - 1)); [lia..|].
    split; lia.
  - destruct Hd' as [-> ->]. exfalso. apply Hd. split; [done|]. rewrite Hwf. lia.
Qed.

(** A successful placement keeps the board well formed and without floating
    tokens. *)
Lemma place_token_lands s (column : Z) (tok : Token) (id : Z) :
  board_wf s → gravity s → (1 ≤ column ≤ _n_columns s)%Z →
  fwd (_token_map s) !! tok = Some id →
  (∃ r, (0 ≤ r < _n_rows s)%Z ∧ cell s r column = Some None) →
  ∃ row s',
    place_token column tok s = (Ok (), s')
    ∧ s' = set_board s (<[Z.to_nat (row * _n_columns s + column - 1):=Some id]> (_board s))
    ∧ (0 ≤ row < _n_rows s)%Z
    ∧ cell s row column = Some None
    ∧ (∀ r, (row < r < _n_rows s)%Z → ∃ id', cell s r column = Some (Some id'))
    ∧ (∀ r, (0 ≤ r < row)%Z → cell s r column = Some None)
    ∧ board_wf s' ∧ gravity s'.
Proof.
  intros Hwf Hg Hc Htok (r0 & Hr0 & Hempty0).
  destruct (place_token_cases s column tok Hwf Hg Hc)
    as [[Hfull _]|(row & Hrow & Hempty & Habove & Hbelow & Hplace)].
  { by destruct (Hfull r0 Hr0). }
  rewrite Htok in Hplace. eexists row, _. split; [exact Hplace|].
  split; [done|]. do 4 (split; [done|]).
  split; [by apply board_wf_set_board|].
  intros r c id' Hr Hr1 Hcc Hocc. cbn [set_board _n_rows _n_columns] in Hr1, Hcc.
  rewrite cell_set_board in Hocc by (done || lia).
  rewrite cell_set_board by (done || lia).
  destruct (decide ((r + 1)%Z = row ∧ c = column)) as [|Hd']; [by eexists|].
  destruct (decide (r = row ∧ c = column)) as [[-> ->]|Hd].
  - apply Hbelow. lia.
  - by apply (Hg r c id').
Qed.

(** What holds in every state of a game. *)
Lemma reachable_invariant (external_tokens : list Token) (size : Z * Z) s :
  reachable external_tokens size s →
  board_wf s ∧ gravity s ∧ ids_known s
  ∧ _n_rows s = size.1 ∧ _n_columns s = size.2
  ∧ _token_map s = _token_map (State_init external_tokens size).
Proof.
  induction 1 as [|s column tok s' Hreach IH Hc Hplace].
  - split; [unfold board_wf; simpl; by rewrite length_replicate|].
    split; [|split; [|done]].
    + intros row column id _ _ _ Hcell. apply py_getitem_elem_of in Hcell.
      by apply elem_of_replicate_inv in Hcell.
    + intros i id Hi. apply list_elem_of_lookup_2, elem_of_replicate_inv in Hi. done.
  - destruct IH as (Hwf & Hg & Hids & HR & HC & Hmap).
    destruct (place_token_cases s column tok Hwf Hg Hc)
      as [[_ Hraise]|(row & Hrow & Hempty & Habove & Hbelow & Hplace')].
    { congruence. }
    rewrite Hplace in Hplace'.
    destruct (fwd (_token_map s) !! tok) as [id|] eqn:Htok; [|done].
    injection Hplace' as ->.
    destruct (place_token_lands s column tok id Hwf Hg Hc Htok)
      as (row' & s'' & Hplace'' & -> & _ & _ & _ & _ & Hwf' & Hg'); [by eauto|].
    rewrite Hplace in Hplace''. injection Hplace'' as Hs.
    rewrite Hs. split; [done|]. split; [done|]. split; [|done].
    intros i id' Hi. simpl in Hi |- *.
    apply list_lookup_insert_Some in Hi as [(_ & [= <-] & _)|[_ Hi]]; [|by eapply Hids].
    exists tok. split; [|done]. rewrite Hmap. apply token_map_inverse.
    by rewrite <- Hmap.
Qed.

(** CLAIM C2: in a state of a game, placing into a column that has an empty
    cell succeeds and writes the id of the acting token into the lowest empty
    cell of that column: the cell was empty, every cell below it is occupied
    and every cell above it is empty; no other cell changes. A further
    placement into the same column lands in the cell directly above. *)
Theorem place_token_lowest_empty (external_tokens : list Token) (size : Z * Z) s
    (column : Z) (tok : Token) :
  reachable external_tokens size s →
  (1 ≤ column ≤ _n_columns s)%Z →
  tok ∈ external_tokens →
  (∃ r, (0 ≤ r < _n_rows s)%Z ∧ cell s r column = Some None) →
  ∃ row id s',
    place_token column tok s = (Ok (), s')
    ∧ fwd (_token_map s) !! tok = Some id
    ∧ (0 ≤ row < _n_rows s)%Z
    ∧ cell s row column = Some None
    ∧ (∀ r, (row < r < _n_rows s)%Z → ∃ id', cell s r column = Some (Some id'))
    ∧ (∀ r, (0 ≤ r < row)%Z → cell s r column = Some None)
    ∧ cell s' row column = Some (Some id)
    ∧ (∀ r c, (0 ≤ r < _n_rows s)%Z → (1 ≤ c ≤ _n_columns s)%Z →
         ¬ (r = row ∧ c = column) → cell s' r c = cell s r c)
    ∧ (∀ tok2, tok2 ∈ external_tokens → (0 < row)%Z →
         ∃ id2 s'',
           place_token column tok2 s' = (Ok (), s'')
           ∧ fwd (_token_map s) !! tok2 = Some id2
           ∧ cell s'' (row - 1) column = Some (Some id2)
           ∧ (∀ r c, (0 ≤ r < _n_rows s)%Z → (1 ≤ c ≤ _n_columns s)%Z →
                ¬ (r = row - 1 ∧ c = column)%Z → cell s'' r c = cell s' r c)).
Proof.
  intros Hreach Hc Htok Hopen.
  destruct (reachable_invariant _ _ _ Hreach) as (Hwf & Hg & _ & _ & _ & Hmap).
  assert (∀ t, t ∈ external_tokens → is_Some (fwd (_token_map s) !! t)) as Hfwd.
  { intros t Ht. rewrite Hmap. by apply token_map_fwd_is_Some. }
  destruct (Hfwd tok Htok) as [id Hid].
  destruct (place_token_lands s column tok id Hwf Hg Hc Hid Hopen)
    as (row & s' & Hplace & Hs' & Hrow & Hempty & Hbelow & Habove & Hwf' & Hg').
  assert (∀ r c, (0 ≤ r < _n_rows s)%Z → (1 ≤ c ≤ _n_columns s)%Z →
    cell s' r c = if decide (r = row ∧ c = column) then Some (Some id) else cell s r c)
    as Hcell'.
  { intros r c Hr Hcc. rewrite Hs'. by apply cell_set_board. }
  exists row, id, s'. do 6 (split; [done|]).
  split; [rewrite Hcell' by done; by rewrite decide_True|].
  split; [intros r c Hr Hcc Hne; rewrite Hcell' by done; by rewrite decide_False|].
  intros tok2 Htok2 Hrow0.
  destruct (Hfwd tok2 Htok2) as [id2 Hid2].
  assert (_n_rows s' = _n_rows s ∧ _n_columns s' = _n_columns s
          ∧ _token_map s' = _token_map s) as (HR' & HC' & HM') by by rewrite Hs'.
  destruct (place_token_lands s' column tok2 id2) as
    (row2 & s'' & Hplace2 & Hs'' & Hrow2 & Hempty2 & Hbelow2 & _ & _ & _);
    [done|done|by rewrite HC'|by rewrite HM'| |].
  { exists (row - 1)%Z. rewrite HR'. split; [lia|].
    rewrite Hcell' by lia. rewrite decide_False by lia. apply Habove. lia. }
  rewrite HR' in Hrow2, Hbelow2. rewrite HC' in Hs''.
  assert (row2 = row - 1)%Z as ->.
  { rewrite Hcell' in Hempty2 by done.
    destruct (decide (row2 = row ∧ column = column)) as [|Hne]; [done|].
    destruct (Z.lt_trichotomy row2 (row - 1)) as [Hlt|[Heq|Hgt]]; [|done|].
    - destruct (Hbelow2 (row - 1)%Z) as [id' Hid']; [lia|].
      rewrite Hcell' in Hid' by lia. rewrite decide_False in Hid' by lia.
      rewrite Habove in Hid' by lia. done.
    - destruct (Hbelow row2) as [id' Hid']; [lia|]. congruence. }
  assert (∀ r c, (0 ≤ r < _n_rows s)%Z → (1 ≤ c ≤ _n_columns s)%Z →
    cell s'' r c = if decide (r = (row - 1)%Z ∧ c = column) then Some (Some id2)
                   else cell s' r c) as Hcell''.
  { intros r c Hr Hcc. rewrite Hs''. rewrite <- HC' at 1.
    apply cell_set_board; rewrite ?HR', ?HC'; (done || lia). }
  exists id2, s''. do 2 (split; [done|]).
  split; [rewrite Hcell'' by lia; by rewrite decide_True|].
  intros r c Hr Hcc Hne. rewrite Hcell'' by done. by rewrite decide_False.
Qed.

End state_facts.

(** ** The view handed to the agents *)

Section view_facts.
Context {Token : Type} `{Countable Token}.
Implicit Types s : State Token.

Lemma expose_view_reachable (external_tokens : list Token) (size : Z * Z) s :
  reachable external_tokens size s →
  ∃ v, expose_view s = Ok v
    ∧ board_size v = size
    ∧ length (board v) = length (_board s)
    ∧ ∀ i c, board v !! i = Some c →
        (c = None ∧ _board s !! i = Some None)
        ∨ (∃ tok id, c = Some tok ∧ tok ∈ external_tokens
             ∧ _board s !! i = Some (Some id)
             ∧ fwd (_token_map s) !! tok = Some id).
Proof.
  intros Hreach.
  destruct (reachable_invariant _ _ _ Hreach) as (Hwf & Hg & Hids & HR & HC & Hmap).
  unfold expose_view.
  destruct (mapM (view_cell (_token_map s)) (_board s)) as [b|] eqn:Hb.
  - eexists. split; [done|]. simpl. split; [rewrite HR, HC; by destruct size|].
    split; [symmetry; by eapply length_mapM|].
    intros i c Hi. apply mapM_Some_1 in Hb.
    destruct (Forall2_lookup_r _ _ _ _ _ Hb Hi) as (x & Hx & Hview).
    destruct x as [id|]; simpl in Hview.
    + right. destruct (Hids i id Hx) as (tok & Hinv & Hfwd).
      rewrite Hinv in Hview. injection Hview as <-.
      exists tok, id. split; [done|]. split; [|done].
      rewrite Hmap in Hfwd. by eapply token_map_fwd_elem.
    + left. by injection Hview as <-.
  - exfalso. assert (is_Some (mapM (view_cell (_token_map s)) (_board s))) as [? Hsome];
      [|congruence].
    apply mapM_is_Some, Forall_lookup. intros i x Hx. simpl.
    destruct x as [id|]; simpl; [|by eexists].
    destruct (Hids i id Hx) as (tok & Hinv & _). rewrite Hinv. by eexists.
Qed.

(** CLAIM C8: in every state of a game [expose_view] succeeds, and each cell
    of the board it exposes is either empty or the external token, one of
    those given at construction, whose id the cell of the state holds. *)
Theorem expose_view_external_tokens (external_tokens : list Token) (size : Z * Z) s :
  reachable external_tokens size s →
  ∃ v, expose_view s = Ok v
    ∧ board_size v = size
    ∧ length (board v) = length (_board s)
    ∧ ∀ i c, board v !! i = Some c →
        (c = None ∧ _board s !! i = Some None)
        ∨ (∃ tok id, c = Some tok ∧ tok ∈ external_tokens
             ∧ _board s !! i = Some (Some id)
             ∧ fwd (_token_map s) !! tok = Some id).
Proof. apply expose_view_reachable. Qed.

End view_facts.

(** ** The lines *)

Lemma slice_indices_four (len : nat) (start stop step : Z) :
  (0 ≤ start)%Z → (0 < step)%Z → (start + 3 * step < Z.of_nat len)%Z →
  stop = (start + 4 * step)%Z →
  slice_indices len start stop step
  = [start; start + step; start + 2 * step; start + 3 * step]%Z.
Proof.
  intros Hstart Hstep Hlast ->. unfold slice_indices, slice_bound.
  rewrite !decide_False by lia.
  replace (Z.min start (Z.of_nat len)) with start by lia.
  set (hi := Z.min (start + 4 * step) (Z.of_nat len)).
  assert ((hi - start + step - 1) / step = 4)%Z as ->.
  { symmetry. apply (Z.div_unique _ _ _ (hi - start + step - 1 - step * 4)); lia. }
  change (range 4) with [0; 1; 2; 3]%Z. cbn [fmap list_fmap].
  repeat f_equal; lia.
Qed.

Lemma elem_of_family {A : Type} (rows columns : list Z) (f : Z → Z → A) (x : A) :
  x ∈ (row ← rows; column ← columns; [f row column])
  ↔ ∃ row column, row ∈ rows ∧ column ∈ columns ∧ x = f row column.
Proof.
  rewrite list_elem_of_bind. split.
  - intros (row & Hx & Hrow). apply list_elem_of_bind in Hx as (column & Hx & Hcol).
    apply list_elem_of_singleton in Hx. eauto.
  - intros (row & column & Hrow & Hcol & ->). exists row. split; [|done].
    apply list_elem_of_bind. exists column. split; [|done]. by apply list_elem_of_singleton.
Qed.

Lemma NoDup_family {A : Type} (rows columns : list Z) (f : Z → Z → A) :
  NoDup rows → NoDup columns →
  (∀ r c r' c', r ∈ rows → c ∈ columns → r' ∈ rows → c' ∈ columns →
     f r c = f r' c' → r = r' ∧ c = c') →
  NoDup (row ← rows; column ← columns; [f row column]).
Proof.
  intros Hrows Hcols Hinj. apply NoDup_bind; [| |done].
  - intros r r' y Hr Hr' Hy Hy'.
    apply list_elem_of_bind in Hy as (c & Hy & Hc). apply list_elem_of_singleton in Hy.
    apply list_elem_of_bind in Hy' as (c' & Hy' & Hc'). apply list_elem_of_singleton in Hy'.
    subst y. by destruct (Hinj r c r' c').
  - intros r Hr. apply NoDup_bind; [| |done].
    + intros c c' y Hc Hc' Hy Hy'.
      apply list_elem_of_singleton in Hy. apply list_elem_of_singleton in Hy'.
      subst y. by destruct (Hinj r c r c').
    + intros. apply NoDup_singleton.
Qed.

Lemma fits_iff (n_rows n_columns row column : Z) (d : direction) :
  fits n_rows n_columns (run_cells row column d) ↔
  match d with
  | Horizontal => 0 ≤ row < n_rows ∧ 0 ≤ column ∧ column + 3 < n_columns
  | Vertical => 0 ≤ row ∧ row + 3 < n_rows ∧ 0 ≤ column < n_columns
  | Diagonal_down => 0 ≤ row ∧ row + 3 < n_rows ∧ 0 ≤ column ∧ column + 3 < n_columns
  | Diagonal_up => 0 ≤ row ∧ row + 3 < n_rows ∧ 3 ≤ column < n_columns
  end%Z.
Proof.
  unfold fits, run_cells, on_board.
  destruct d; cbn; rewrite !list.Forall_cons; cbn;
    (split; [intros (? & ? & ? & ? & _); lia
            |intros ?; repeat split; first [lia|constructor]]).
Qed.

Lemma run_positions (n_columns row column : Z) (d : direction) :
  position n_columns <$> run_cells row column d
  = [row * n_columns + column;
     row * n_columns + column + stride n_columns d;
     row * n_columns + column + 2 * stride n_columns d;
     row * n_columns + column + 3 * stride n_columns d]%Z.
Proof.
  unfold run_cells, stride, position.
  destruct d; cbn; repeat (apply (f_equal2 cons); [lia|]); reflexivity.
Qed.

(** The slices taken by the four loops are those of the runs that fit. *)
Lemma elem_of_line_slices (n_rows n_columns start stop step : Z) :
  (start, stop, step) ∈ line_slices n_rows n_columns ↔
  ∃ row column d,
    fits n_rows n_columns (run_cells row column d)
    ∧ start = (row * n_columns + column)%Z
    ∧ step = stride n_columns d
    ∧ stop = (start + 4 * step)%Z.
Proof.
  unfold line_slices, range, range2.
  rewrite !elem_of_app, !elem_of_family. setoid_rewrite elem_of_seqZ. split.
  - intros [(row & column & Hr & Hc & [= -> -> ->])
           |[(row & column & Hr & Hc & [= -> -> ->])
            |[(row & column & Hr & Hc & [= -> -> ->])
             |(row & column & Hr & Hc & [= -> -> ->])]]].
    + exists row, column, Horizontal. rewrite fits_iff. unfold stride, position. cbn. lia.
    + exists row, column, Vertical. rewrite fits_iff. unfold stride, position. cbn. lia.
    + exists row, column, Diagonal_down. rewrite fits_iff. unfold stride, position. cbn. lia.
    + exists row, column, Diagonal_up. rewrite fits_iff. unfold stride, position. cbn. lia.
  - intros (row & column & d & Hfits & -> & -> & ->).
    apply fits_iff in Hfits. unfold stride, position. destruct d; cbn in *.
    + left. exists row, column. split; [lia|]. split; [lia|]. apply pair_equal_spec; split; [apply pair_equal_spec; split|]; lia.
    + right; left. exists row, column. split; [lia|]. split; [lia|]. apply pair_equal_spec; split; [apply pair_equal_spec; split|]; lia.
    + right; right; left. exists row, column. split; [lia|]. split; [lia|].
      apply pair_equal_spec; split; [apply pair_equal_spec; split|]; lia.
    + right; right; right. exists row, column. split; [lia|]. split; [lia|].
      apply pair_equal_spec; split; [apply pair_equal_spec; split|]; lia.
Qed.

Lemma stride_cases (n_columns : Z) (d : direction) :
  stride n_columns d
  = match d with
    | Horizontal => 1
    | Vertical => n_columns
    | Diagonal_down => n_columns + 1
    | Diagonal_up => n_columns - 1
    end%Z.
Proof. unfold stride, position. destruct d; cbn [direction_step fst snd]; lia. Qed.

Lemma NoDup_line_slices (n_rows n_columns : Z) : NoDup (line_slices n_rows n_columns).
Proof.
  assert (∀ (rows columns : list Z) (f : Z → Z → Z * Z * Z),
    NoDup rows → NoDup columns →
    (∀ c, c ∈ columns → 0 ≤ c < n_columns)%Z →
    (∀ r c, (f r c).1.1 = r * n_columns + c)%Z →
    NoDup (row ← rows; column ← columns; [f row column])) as Hfamily.
  { intros rows columns f Hrows Hcols Hbound Hstart.
    apply NoDup_family; [done..|].
    intros r c r' c' _ Hc _ Hc' Heq. apply (f_equal (λ x, x.1.1)) in Heq.
    rewrite !Hstart in Heq.
    apply (position_inj n_columns); auto. }
  unfold line_slices, range, range2.
  repeat (apply NoDup_app; split; [|split]).
  all: try (apply Hfamily; [apply NoDup_seqZ..| |done];
            intros c Hc; apply elem_of_seqZ in Hc; lia).
  all: intros x Hx Hx'; rewrite ?elem_of_app, !elem_of_family in Hx';
    apply elem_of_family in Hx as (r & c & Hr & Hc & ->);
    apply elem_of_seqZ in Hr, Hc;
    repeat destruct Hx' as [Hx'|Hx'];
    destruct Hx' as (r' & c' & Hr' & Hc' & Heq);
    apply elem_of_seqZ in Hr', Hc';
    apply (f_equal snd) in Heq; simpl in Heq; lia.
Qed.

(** Each slice taken yields the four positions of its run. *)
Lemma line_slice_positions (n_rows n_columns row column : Z) (d : direction) :
  fits n_rows n_columns (run_cells row column d) →
  let start := (row * n_columns + column)%Z in
  let step := stride n_columns d in
  (0 < step)%Z
  ∧ slice_indices (Z.to_nat n_rows * Z.to_nat n_columns) start (start + 4 * step) step
    = position n_columns <$> run_cells row column d.
Proof.
  intros Hfits start step. apply fits_iff in Hfits.
  assert (0 < step)%Z as Hstep.
  { subst step. rewrite stride_cases. destruct d; lia. }
  split; [done|]. rewrite run_positions. fold start step.
  apply slice_indices_four; [subst start; destruct d; nia|done| |done].
  subst start step. rewrite stride_cases. destruct d; nia.
Qed.

(** A run is determined by the set of its positions. *)
Lemma run_positions_inj (n_rows n_columns row column row' column' : Z) (d d' : direction) :
  fits n_rows n_columns (run_cells row column d) →
  fits n_rows n_columns (run_cells row' column' d') →
  (∀ p, p ∈ position n_columns <$> run_cells row column d
        ↔ p ∈ position n_columns <$> run_cells row' column' d') →
  (row, column, d) = (row', column', d').
Proof.
  intros Hfits Hfits' Hsame.
  destruct (line_slice_positions _ _ _ _ _ Hfits) as [Hstep _].
  destruct (line_slice_positions _ _ _ _ _ Hfits') as [Hstep' _].
  apply fits_iff in Hfits. apply fits_iff in Hfits'.
  rewrite !run_positions in Hsame. setoid_rewrite elem_of_cons in Hsame.
  setoid_rewrite elem_of_cons in Hsame. setoid_rewrite elem_of_cons in Hsame.
  setoid_rewrite list_elem_of_singleton in Hsame.
  remember (row * n_columns + column)%Z as p eqn:Hp.
  remember (row' * n_columns + column')%Z as p' eqn:Hp'.
  remember (stride n_columns d) as st eqn:Hst.
  remember (stride n_columns d') as st' eqn:Hst'.
  assert (p' ≤ p)%Z as Hle.
  { destruct (proj1 (Hsame p)) as [?|[?|[?|?]]]; [by left|lia..]. }
  assert (p ≤ p')%Z as Hge.
  { destruct (proj2 (Hsame p')) as [?|[?|[?|?]]]; [by left|lia..]. }
  assert (p = p') as Hpp by lia.
  assert (st' ≤ st)%Z as Hsle.
  { destruct (proj1 (Hsame (p + st)%Z)) as [?|[?|[?|?]]]; [right; by left|lia..]. }
  assert (st ≤ st')%Z as Hsge.
  { destruct (proj2 (Hsame (p' + st')%Z)) as [?|[?|[?|?]]]; [right; by left|lia..]. }
  assert (st = st') as Hstst by lia.
  clear Hsame Hle Hge Hsle Hsge. subst p p' st st'. rename Hstst into Hst.
  rewrite !stride_cases in Hst.
  destruct (position_inj n_columns row column row' column') as [<- <-];
    [destruct d; lia|destruct d'; lia|done|].
  destruct d, d'; first [done|lia].
Qed.

(** The lines yielded are the values of the board at the generated cells. *)
Lemma generate_lines_values {Token : Type} `{Countable Token} (s : State Token) :
  _generate_lines s
  = (λ l : list Z, omap (λ i, _board s !! Z.to_nat i) l)
      <$> generated_cells (length (_board s)) (_n_rows s) (_n_columns s).
Proof.
  unfold _generate_lines, generated_cells. rewrite <- list_fmap_compose.
  apply list_fmap_ext. by intros _ [[start stop] step] _.
Qed.

Lemma generated_cells_exact (n_rows n_columns : Z) :
  let cells := generated_cells (Z.to_nat n_rows * Z.to_nat n_columns) n_rows n_columns in
  NoDup cells
  ∧ (∀ l, l ∈ cells ↔
       ∃ row column d,
         fits n_rows n_columns (run_cells row column d)
         ∧ l = position n_columns <$> run_cells row column d)
  ∧ (∀ row column d row' column' d',
       fits n_rows n_columns (run_cells row column d) →
       fits n_rows n_columns (run_cells row' column' d') →
       (∀ p, p ∈ position n_columns <$> run_cells row column d
             ↔ p ∈ position n_columns <$> run_cells row' column' d') →
       (row, column, d) = (row', column', d')).
Proof.
  intros cells. subst cells. unfold generated_cells.
  assert (∀ x, x ∈ line_slices n_rows n_columns →
    ∃ row column d, fits n_rows n_columns (run_cells row column d)
      ∧ x = ((row * n_columns + column), (row * n_columns + column)
               + 4 * stride n_columns d, stride n_columns d)%Z
      ∧ (let '(start, stop, step) := x in
         slice_indices (Z.to_nat n_rows * Z.to_nat n_columns) start stop step)
        = position n_columns <$> run_cells row column d) as Hslice.
  { intros [[start stop] step] Hx.
    apply elem_of_line_slices in Hx as (row & column & d & Hfits & -> & -> & ->).
    exists row, column, d. split; [done|]. split; [done|].
    by apply line_slice_positions. }
  split; [|split].
  - apply NoDup_fmap_2_strong; [|apply NoDup_line_slices].
    intros x y Hx Hy Heq.
    destruct (Hslice x Hx) as (row & column & d & Hfits & -> & Hpos).
    destruct (Hslice y Hy) as (row' & column' & d' & Hfits' & -> & Hpos').
    rewrite Hpos, Hpos' in Heq.
    assert ((row, column, d) = (row', column', d')) as [= -> -> ->]; [|done].
    eapply run_positions_inj; [done..|]. intros p. by rewrite Heq.
  - intros l. rewrite list_elem_of_fmap. split.
    + intros (x & -> & Hx).
      destruct (Hslice x Hx) as (row & column & d & Hfits & _ & Hpos). eauto.
    + intros (row & column & d & Hfits & ->).
      exists ((row * n_columns + column), (row * n_columns + column)
               + 4 * stride n_columns d, stride n_columns d)%Z.
      split; [symmetry; by apply line_slice_positions|].
      apply elem_of_line_slices. by exists row, column, d.
  - intros. by eapply run_positions_inj.
Qed.

(** ** The outcome check *)

Lemma len_set_one {A : Type} `{EqDecision A} (line : list A) :
  len_set line = 1 ↔ ∃ x, x ∈ line ∧ ∀ y, y ∈ line → y = x.
Proof.
  unfold len_set. pose proof (NoDup_remove_dups line) as Hnd.
  split.
  - intros Hlen. destruct (remove_dups line) as [|x [|??]] eqn:Heq; try done.
    exists x. split.
    + apply elem_of_remove_dups. rewrite Heq. by left.
    + intros y Hy. apply elem_of_remove_dups in Hy. rewrite Heq in Hy.
      by apply list_elem_of_singleton in Hy.
  - intros (x & Hx & Hall).
    assert (∀ y, y ∈ remove_dups line → y = x) as Hall'.
    { intros y Hy. apply Hall. by apply elem_of_remove_dups. }
    apply elem_of_remove_dups in Hx.
    destruct (remove_dups line) as [|a [|b l]]; [by apply elem_of_nil in Hx|done|].
    exfalso. apply NoDup_cons in Hnd as [Hnotin _]. apply Hnotin.
    rewrite (Hall' a), (Hall' b); [by left|right; by left|by left].
Qed.

(** The test made on each line, for a line of four cells. *)
Lemma line_test (c0 c1 c2 c3 : option Z) :
  c0 ≠ None ∧ len_set [c0; c1; c2; c3] = 1
  ↔ ∃ id, four_in_a_row [c0; c1; c2; c3] id.
Proof.
  rewrite len_set_one. unfold four_in_a_row. split.
  - intros [Hc0 (x & Hx & Hall)].
    rewrite (Hall c0), (Hall c1), (Hall c2), (Hall c3) in *
      by (repeat first [by left|right]).
    destruct x as [id|]; [by exists id|done].
  - intros (id & [= -> -> -> ->]). split; [done|]. exists (Some id).
    split; [by left|]. intros y Hy.
    repeat (apply elem_of_cons in Hy as [->|Hy]; [done|]). by apply elem_of_nil in Hy.
Qed.

Section outcome_facts.
Context {Token : Type} `{Countable Token}.
Implicit Types s : State Token.

(** What the loop over the lines returns: the owner of the first line of four,
    when there is one. *)
Lemma scan_lines_spec (m : bidict Token Z) (lines : list (list (option Z))) :
  Forall (λ line, length line = 4) lines →
  (∀ line id, line ∈ lines → Some id ∈ line →
     ∃ tok, inverse m !! id = Some tok ∧ fwd m !! tok = Some id) →
  (∃ line id tok, line ∈ lines ∧ four_in_a_row line id
     ∧ inverse m !! id = Some tok ∧ fwd m !! tok = Some id
     ∧ scan_lines m lines = Ok (Some WIN, Some tok))
  ∨ ((∀ line id, line ∈ lines → ¬ four_in_a_row line id)
     ∧ scan_lines m lines = Ok (None, None)).
Proof.
  induction lines as [|line lines IH]; intros Hlen Hknown.
  { right. split; [|done]. intros line id Hin. by apply elem_of_nil in Hin. }
  apply list.Forall_cons in Hlen as [Hlen4 Hlen].
  destruct line as [|c0 [|c1 [|c2 [|c3 [|??]]]]]; try done.
  cbn [scan_lines].
  destruct (decide (c0 ≠ None ∧ len_set [c0; c1; c2; c3] = 1)) as [Hwin|Hno].
  - left. destruct Hwin as [Hc0 Hset].
    rewrite (bool_decide_eq_true_2 _ Hc0), (bool_decide_eq_true_2 _ Hset). cbn [andb].
    destruct (proj1 (line_test c0 c1 c2 c3) (conj Hc0 Hset)) as [id Hfour].
    destruct (Hknown [c0; c1; c2; c3] id) as (tok & Hinv & Hfwd); [by left| |].
    { rewrite Hfour. by left. }
    exists [c0; c1; c2; c3], id, tok. split; [by left|]. do 3 (split; [done|]).
    injection Hfour as -> _ _ _. simpl. by rewrite Hinv.
  - assert (bool_decide (c0 ≠ None) && bool_decide (len_set [c0; c1; c2; c3] = 1) = false)
      as ->.
    { apply andb_false_iff. destruct (decide (c0 ≠ None)).
      - right. apply bool_decide_eq_false_2. tauto.
      - left. by apply bool_decide_eq_false_2. }
    destruct IH as [(line & id & tok & Hin & Hfour & Hinv & Hfwd & Hscan)|[Hnone Hscan]];
      [done|intros line id Hin; apply Hknown; by right| |].
    + left. exists line, id, tok. split; [by right|done].
    + right. split; [|done]. intros line id Hin Hfour.
      apply elem_of_cons in Hin as [->|Hin]; [|by eapply Hnone].
      apply Hno. apply line_test. by exists id.
Qed.

Lemma on_board_position (n_rows n_columns : Z) (c : Z * Z) :
  on_board n_rows n_columns c →
  (0 ≤ position n_columns c < Z.of_nat (Z.to_nat n_rows * Z.to_nat n_columns))%Z.
Proof. unfold on_board, position. destruct c as [r k]. simpl. nia. Qed.

Lemma omap_lookup_length {A : Type} (b : list A) (l : list Z) :
  Forall (λ i, 0 ≤ i < Z.of_nat (length b))%Z l →
  length (omap (λ i, b !! Z.to_nat i) l) = length l.
Proof.
  induction 1 as [|i l Hi _ IH]; csimpl; [done|].
  destruct (b !! Z.to_nat i) eqn:Hb; simpl; [by f_equal|].
  apply lookup_ge_None in Hb. lia.
Qed.

(** On a well-formed board every line yielded has four cells, all of them
    cells of the board. *)
Lemma generate_lines_cells s (line : list (option Z)) :
  board_wf s → line ∈ _generate_lines s →
  length line = 4 ∧ ∀ c, c ∈ line → c ∈ _board s.
Proof.
  intros Hwf Hin. rewrite generate_lines_values in Hin.
  apply list_elem_of_fmap in Hin as (cells & -> & Hcells). split.
  - rewrite Hwf in Hcells.
    apply generated_cells_exact in Hcells as (row & column & d & Hfits & ->).
    rewrite omap_lookup_length; [by rewrite run_positions|].
    apply Forall_fmap. eapply Forall_impl; [exact Hfits|].
    intros c Hc. simpl. rewrite Hwf. by apply on_board_position.
  - intros c Hc. apply list_elem_of_omap in Hc as (i & _ & Hi).
    apply list_elem_of_lookup. eauto.
Qed.

Lemma omap_lookup_values {A : Type} (b : list A) (l : list Z) :
  Forall (λ i, 0 ≤ i < Z.of_nat (length b))%Z l →
  Some <$> omap (λ i, b !! Z.to_nat i) l = (λ i, b !! Z.to_nat i) <$> l.
Proof.
  induction 1 as [|i l Hi _ IH]; csimpl; [done|].
  destruct (b !! Z.to_nat i) eqn:Hb; simpl; [by f_equal|].
  apply lookup_ge_None in Hb. lia.
Qed.

(** The lines yielded, one by one, against the cells they are sliced from. *)
Lemma generate_lines_runs s :
  board_wf s →
  Forall2 (λ line l, Some <$> line = (λ p, _board s !! Z.to_nat p) <$> l)
    (_generate_lines s)
    (generated_cells (length (_board s)) (_n_rows s) (_n_columns s)).
Proof.
  intros Hwf. rewrite generate_lines_values. apply Forall2_fmap_l.
  apply Forall_Forall2_diag, Forall_forall. intros l Hl. simpl.
  apply omap_lookup_values. rewrite Hwf in Hl.
  apply generated_cells_exact in Hl as (row & column & d & Hfits & ->).
  apply Forall_fmap. eapply Forall_impl; [exact Hfits|].
  intros c Hc. simpl. rewrite Hwf. by apply on_board_position.
Qed.

(** CLAIM C3: on a board of rows times columns cells, whatever the two
    numbers are, [_generate_lines] yields one line for each entry of a list
    of runs of cells, in order, and the line holds the four values the board
    has at the cells of its run. That list is exactly the runs of four cells
    that fit on the board, horizontal, vertical and along the two diagonals;
    it has no run twice, and two runs that fit and cover the same cells are
    the same run, so every run is yielded exactly once. *)
Theorem generate_lines_exact s :
  board_wf s →
  let cells := generated_cells (length (_board s)) (_n_rows s) (_n_columns s) in
  Forall2 (λ line l, Some <$> line = (λ p, _board s !! Z.to_nat p) <$> l)
    (_generate_lines s) cells
  ∧ NoDup cells
  ∧ (∀ l, l ∈ cells ↔
       ∃ row column d,
         fits (_n_rows s) (_n_columns s) (run_cells row column d)
         ∧ l = position (_n_columns s) <$> run_cells row column d)
  ∧ (∀ row column d row' column' d',
       fits (_n_rows s) (_n_columns s) (run_cells row column d) →
       fits (_n_rows s) (_n_columns s) (run_cells row' column' d') →
       (∀ p, p ∈ position (_n_columns s) <$> run_cells row column d
             ↔ p ∈ position (_n_columns s) <$> run_cells row' column' d') →
       (row, column, d) = (row', column', d')).
Proof.
  intros Hwf cells. split; [by apply generate_lines_runs|].
  subst cells. red in Hwf. revert Hwf. generalize (length (_board s)).
  intros len ->. apply generated_cells_exact.
Qed.

(** The outcome check of the package, on every well-formed board whose ids
    are those of tokens: it reports WIN exactly when some line yielded holds
    four identical non-empty cells, and then names the token owning such a
    line; it reports DRAW exactly when there is no such line and no empty
    cell; it reports nothing (the game is unfinished) exactly when there is no
    such line and some cell is empty. *)
Lemma check_for_outcome_cases s :
  board_wf s → ids_known s →
  ∃ result winning_token,
    check_for_outcome s = Ok (result, winning_token)
    ∧ (result = Some WIN ↔
         ∃ line id, line ∈ _generate_lines s ∧ four_in_a_row line id)
    ∧ (result = Some WIN →
         ∃ line id tok, line ∈ _generate_lines s ∧ four_in_a_row line id
           ∧ winning_token = Some tok ∧ fwd (_token_map s) !! tok = Some id)
    ∧ (result = Some DRAW ↔
         (None ∉ _board s)
         ∧ ¬ (∃ line id, line ∈ _generate_lines s ∧ four_in_a_row line id))
    ∧ (result = None ↔
         None ∈ _board s
         ∧ ¬ (∃ line id, line ∈ _generate_lines s ∧ four_in_a_row line id))
    ∧ result ≠ Some LOSE.
Proof.
  intros Hwf Hids. unfold check_for_outcome.
  destruct (scan_lines_spec (_token_map s) (_generate_lines s))
    as [(line & id & tok & Hin & Hfour & Hinv & Hfwd & ->)|[Hnone ->]].
  { apply Forall_forall. intros line Hin. by apply (generate_lines_cells s). }
  { intros line id Hin Hid.
    apply (generate_lines_cells s line Hwf Hin), list_elem_of_lookup in Hid as [i Hi].
    by apply (Hids i id). }
  - exists (Some WIN), (Some tok). cbn. split; [done|].
    split; [split; [by eauto|done]|]. split; [by eauto 10|].
    split; [split; [done|intros [_ []]; by eauto]|].
    split; [split; [done|intros [_ []]; by eauto]|done].
  - cbn. destruct (decide (None ∈ _board s)) as [Hopen|Hfull].
    + rewrite (bool_decide_eq_false_2 (None ∉ _board s)) by tauto.
      exists None, None. split; [done|].
      split; [split; [done|intros (line & id & ? & ?); by destruct (Hnone line id)]|].
      split; [done|]. split; [split; [done|by intros [[] _]]|].
      split; [|done]. split; [|done]. intros _. split; [done|].
      intros (line & id & ? & ?). by destruct (Hnone line id).
    + rewrite (bool_decide_eq_true_2 (None ∉ _board s)) by done.
      exists (Some DRAW), None. split; [done|].
      split; [split; [done|intros (line & id & ? & ?); by destruct (Hnone line id)]|].
      split; [done|]. split; [|split; [split; [done|by intros [? _]]|done]].
      split; [|done]. intros _. split; [done|].
      intros (line & id & ? & ?). by destruct (Hnone line id).
Qed.

End outcome_facts.

(** ** Running a concrete game *)

(** A decidable property of the result of a run is settled by running it. *)
Lemma run_result_dec {A : Type} (run : option (res A)) (P : A → Prop)
    `{∀ a, Decision (P a)} :
  match run with Some (Ok r) => bool_decide (P r) | _ => false end = true →
  ∃ r, run = Some (Ok r) ∧ P r.
Proof.
  destruct run as [[r|e]|]; [|done..].
  intros HP. exists r. split; [done|]. eapply bool_decide_eq_true_1. exact HP.
Qed.

Lemma run_result {A : Type} (run : option (res A)) :
  match run with Some (Ok r) => true | _ => false end = true →
  ∃ r, run = Some (Ok r).
Proof. destruct run as [[r|e]|]; [|done..]. by exists r. Qed.

(** ** connect4.py: the outcome check of the predecessor *)

(** CLAIM C1, on [connect4.py]: in the game [legacy_game], played in the
    order X, O, the 42nd move fills the board and completes a diagonal of
    four cells of O (the line yielded at index 47). [check_for_end] looks
    for an empty cell before it looks at the lines, and reports a draw for
    both tokens. *)
Theorem legacy_check_for_end_full_board :
  ∃ r, Legacy.play legacy_game [legacy_X; legacy_O] 42 = Some (Ok r)
    ∧ (None ∉ Legacy.board (Legacy.final r))
    ∧ fwd (Legacy.token_map (Legacy.final r)) !! "O" = Legacy.ascii_lowercase !! 1
    ∧ Legacy._generate_lines (Legacy.final r) !! 47
      = Some (replicate 4 (Legacy.ascii_lowercase !! 1))
    ∧ Legacy.check_for_end (Legacy.final r) = Ok (Some (Legacy.returned r))
    ∧ Legacy.returned r !! "O" = Some "Draw"
    ∧ Legacy.returned r !! "X" = Some "Draw".
Proof.
  eapply run_result_dec. vm_compute. reflexivity.
Qed.

(** The package, on the same moves: O wins. *)
Lemma check_for_outcome_full_board :
  ∃ r, play game_6x7 [agent_X; agent_O] 42 = Some (Ok r)
    ∧ (None ∉ _board (state (final r)))
    ∧ check_for_outcome (state (final r)) = Ok (Some WIN, Some "O").
Proof.
  eapply run_result_dec. vm_compute. reflexivity.
Qed.

(** ** The orchestrator *)

Lemma check_action_spec (n_columns : Z) (a : Action) :
  (structurally_invalid n_columns a
   ∧ ∃ e, (e = ValueError ∨ e = TypeError) ∧ check_action n_columns a = Raise e)
  ∨ (¬ structurally_invalid n_columns a
     ∧ ∃ column, as_int (place_column a) = Some column
         ∧ (1 ≤ column ≤ n_columns)%Z
         ∧ check_action n_columns a = Ok column).
Proof.
  unfold check_action, structurally_invalid.
  destruct (decide (action a ≠ VActions PLACE)) as [Hkind|Hkind].
  { left. split; [by left|]. exists ValueError. by split; [left|]. }
  destruct (as_int (place_column a)) as [column|] eqn:Hint.
  - destruct (decide (column < 1 ∨ column > n_columns)%Z) as [Hout|Hin].
    + left. split; [right; right; by exists column|].
      exists ValueError. by split; [left|].
    + right. split.
      * intros [?|[?|(c & [= <-] & ?)]]; done.
      * exists column. split; [done|]. split; [lia|done].
  - left. split; [right; by left|]. exists TypeError. by split; [right|].
Qed.

Lemma cycle_at_next {A : Type} (order : list A) (q r : nat) (c : cycle A) :
  order ≠ [] → cycle_at order q r c →
  ∃ x c' q' r',
    cycle_next c = Some (x, c')
    ∧ order !! ((q * length order + r) mod length order) = Some x
    ∧ q' * length order + r' = S (q * length order + r)
    ∧ cycle_at order q' r' c'.
Proof.
  intros Hne (Hr & Hpending & Hsaved). unfold cycle_next. rewrite Hpending.
  destruct (decide (r < length order)) as [Hlt|Hge].
  - destruct (lookup_lt_is_Some_2 order r Hlt) as [x Hx].
    rewrite (drop_S _ _ _ Hx).
    exists x, (mkCycle (drop (S r) order)
                 (if first_pass c then saved c ++ [x] else saved c) (first_pass c)),
      q, (S r).
    split; [done|]. split; [|split; [lia|]].
    + replace ((q * length order + r) mod length order) with r; [done|].
      apply (Nat.mod_unique _ _ q); lia.
    + split; [lia|]. split; [done|]. simpl. case_decide.
      * destruct Hsaved as [-> ->]. split; [done|]. by rewrite (take_S_r _ _ _ Hx).
      * destruct Hsaved as (-> & -> & ?). split; [done|]. split; [done|lia].
  - assert (r = length order) as -> by lia. rewrite drop_all.
    assert (saved c = order) as ->.
    { case_decide; [|by destruct Hsaved as (_ & ? & _)].
      destruct Hsaved as [_ ->]. by rewrite firstn_all. }
    destruct order as [|x rest]; [done|].
    exists x, (mkCycle rest (x :: rest) false), (S q), 1.
    split; [done|]. split; [|split; [lia|]].
    + replace ((q * length (x :: rest) + length (x :: rest)) mod length (x :: rest))
        with 0; [done|].
      apply (Nat.mod_unique _ _ (S q)); simpl; lia.
    + split; [simpl; lia|]. split; [done|]. simpl. split; [done|]. split; [done|lia].
Qed.

Lemma cycle_at_start {A : Type} (order : list A) : cycle_at order 0 0 (cycle_of order).
Proof. split; [lia|]. split; [done|]. simpl. by rewrite take_0. Qed.

Section orchestrator_facts.
Context {Token : Type} `{Countable Token}.
Implicit Types (g : Game Token) (ls : loop_state Token).

(** One iteration draws one agent, and counts one call. *)
Lemma play_iter_Continue g ls ls' :
  play_iter g ls = Continue ls' →
  ∃ agent, cycle_next (agents_iter ls) = Some (agent, agents_iter ls')
    ∧ calls ls' = S (calls ls).
Proof.
  unfold play_iter. intros Hiter.
  destruct (cycle_next (agents_iter ls)) as [[agent it]|]; [|done].
  exists agent.
  repeat match type of Hiter with
         | match ?x with _ => _ end = _ => destruct x; try done
         end.
  by injection Hiter as <-.
Qed.

Lemma iterations_cycle g (order : list (Agent Token)) (t : nat) ls0 ls (q r : nat) :
  order ≠ [] →
  iterations g t ls0 = Some ls →
  cycle_at order q r (agents_iter ls0) →
  ∃ q' r', cycle_at order q' r' (agents_iter ls)
    ∧ q' * length order + r' = q * length order + r + t
    ∧ calls ls = calls ls0 + t.
Proof.
  intros Hne. revert ls0 q r. induction t as [|t IH]; intros ls0 q r Hit Hat.
  - injection Hit as <-. exists q, r. split; [done|lia].
  - simpl in Hit. destruct (play_iter g ls0) as [ls1| |] eqn:Hiter; try done.
    apply play_iter_Continue in Hiter as (agent & Hnext & Hcalls).
    destruct (cycle_at_next order q r _ Hne Hat) as (x & c' & q1 & r1 & Hnext' & _ & Hqr & Hat').
    rewrite Hnext in Hnext'. injection Hnext' as _ <-.
    destruct (IH ls1 q1 r1 Hit Hat') as (q' & r' & Hat'' & Hqr' & Hcalls').
    exists q', r'. split; [done|lia].
Qed.

(** CLAIM C5: the agent asked at a state of the loop gives an answer; [play]
    raises at its checks, before anything is placed or recorded, if and only
    if the answer is structurally invalid; the error is a [ValueError] or a
    [TypeError]. A structurally valid answer passes the checks: if the
    iteration raises at all, the error comes from [place_token] or from the
    outcome check. *)
Theorem play_iter_structural_check g ls (agent : Agent Token) (a : Action) :
  answer ls = Some (agent, a) →
  (structurally_invalid (_board_size g).2 a
   ↔ ∃ e, check_action (_board_size g).2 a = Raise e)
  ∧ (structurally_invalid (_board_size g).2 a →
       ∃ e ls', (e = ValueError ∨ e = TypeError)
         ∧ play_iter g ls = Raised e ls'
         ∧ state ls' = state ls ∧ outcome ls' = outcome ls)
  ∧ (¬ structurally_invalid (_board_size g).2 a →
       ∃ column, as_int (place_column a) = Some column
         ∧ (1 ≤ column ≤ (_board_size g).2)%Z
         ∧ check_action (_board_size g).2 a = Ok column
         ∧ ∀ e ls', play_iter g ls = Raised e ls' →
             (place_token column (token agent) (state ls)).1 = Raise e
             ∨ ∃ st, place_token column (token agent) (state ls) = (Ok (), st)
                 ∧ check_for_outcome st = Raise e).
Proof.
  unfold answer, play_iter. intros Hanswer.
  destruct (cycle_next (agents_iter ls)) as [[agent' it]|]; [|done].
  destruct (expose_view (state ls)) as [view|]; [|done].
  injection Hanswer as -> <-. cbn zeta.
  set (a := select_action agent (calls ls) view).
  destruct (check_action_spec (_board_size g).2 a)
    as [[Hinv (e & He & Hcheck)]|[Hvalid (column & Hint & Hcol & Hcheck)]].
  - split; [split; [by eauto|done]|]. split; [|done].
    intros _. rewrite Hcheck. by eexists e, _.
  - split; [split; [done|intros [e He]; congruence]|]. split; [done|].
    intros _. exists column. do 3 (split; [done|]). rewrite Hcheck. cbn [state outcome calls].
    intros e ls'.
    destruct (place_token column (token agent) (state ls)) as [[[]|e'] st].
    + destruct (check_for_outcome st) as [result|e''] eqn:Houtcome; simpl.
      * by destruct (finalize _ result).
      * intros [= <- _]. right. by exists st.
    + intros [= <- _]. by left.
Qed.

End orchestrator_facts.

Section turn_facts.
Context {Token : Type} `{Countable Token}.
Implicit Types (g : Game Token) (ls : loop_state Token).

(** [play] hands nothing back. *)
Lemma play_returned g (order : list (Agent Token)) (fuel : nat) (r : play_result Token) :
  play g order fuel = Some (Ok r) →
  returned r = None
  ∧ notified r = (λ agent, (agent, outcome (final r))) <$> _agents g
  ∧ play_loop g fuel (play_init g order) = Some (Ok (final r)).
Proof.
  unfold play. destruct (play_loop g fuel (play_init g order)) as [[ls|e]|]; [|done..].
  by intros [= <-].
Qed.

Lemma finalize_finalized (o o' : Outcome Token) (result : option Outcomes * option Token) :
  finalize o result = Some o' →
  finalized o' ∧ record o' = record o
  ∧ (result.1 = Some WIN ∨ result.1 = Some DRAW).
Proof.
  unfold finalize, finalized. destruct result.1 as [[| |]|]; try done.
  - intros [= <-]. simpl. split; [|by auto]. left.
    apply Forall_fmap, Forall_forall. intros [agent v] _. simpl. case_decide; auto.
  - intros [= <-]. simpl. split; [|by auto]. right.
    apply Forall_fmap, Forall_forall. by intros [agent v] _.
Qed.




End turn_facts.

(** The predecessor hands back the outcome it has given to the agents. *)
Lemma legacy_play_loop_outcome {Token : Type} `{Countable Token} (fuel : nat)
    (ls ls' : Legacy.loop_state) (d : gmap Token string) :
  Legacy.play_loop fuel ls = Some (Ok (ls', d)) →
  Legacy.check_for_end (Legacy.state ls') = Ok (Some d).
Proof.
  revert ls. induction fuel as [|fuel IH]; intros ls; simpl; [done|].
  destruct (Legacy.play_iter ls) as [[ls1 [d1|]]|e] eqn:Hiter; [|by apply IH|done].
  intros [= <- <-]. unfold Legacy.play_iter in Hiter.
  destruct (cycle_next _) as [[agent it]|]; [|done].
  destruct (Legacy.execute_action _ _) as [[ok|] st]; [|done].
  destruct (Legacy.check_for_end st) as [[d|]|] eqn:Hend; simpl in Hiter; try done.
  case_decide; [done|]. by injection Hiter as <- <-.
Qed.

Lemma legacy_play_returned {Token : Type} `{Countable Token} (g : Legacy.Game Token)
    (order : list (Legacy.Agent Token)) (fuel : nat) (r : Legacy.play_result) :
  Legacy.play g order fuel = Some (Ok r) →
  Legacy.notified r = (λ agent, (agent, Legacy.returned r)) <$> Legacy.agents g
  ∧ Legacy.check_for_end (Legacy.final r) = Ok (Some (Legacy.returned r)).
Proof.
  unfold Legacy.play.
  destruct (Legacy.play_loop _ _) as [[[ls d]|e]|] eqn:Hloop; [|done..].
  intros [= <-]. simpl. split; [done|]. by eapply legacy_play_loop_outcome.
Qed.


(** ** Construction *)

Section construction_facts.
Context {Token : Type} `{Countable Token}.

Lemma check_board_size_bad (elements : list pyval) (v : pyval) :
  v ∈ elements → (∀ z, as_int v = Some z → (z < 1)%Z) →
  ∃ e, check_board_size elements = Raise e.
Proof.
  intros Hin Hbad. induction elements as [|x elements IH]; [by apply elem_of_nil in Hin|].
  simpl. destruct (as_int x) as [z|] eqn:Hx; [|by eexists].
  case_decide; [by eexists|].
  apply elem_of_cons in Hin as [->|Hin].
  - specialize (Hbad z Hx). lia.
  - destruct (IH Hin) as [e ->]. by eexists.
Qed.

(** CLAIM C6, as the code has it: construction fails when fewer than two
    agents are given and when a dimension of the board is not a strictly
    positive integer; with two agents or more and strictly positive
    dimensions it succeeds, whatever the tokens of the agents. *)
Theorem Game_init_spec (agents : pyseq (agent_arg Token)) (size : pyseq pyval) :
  (∀ l, seq_items agents = Some l → length l < 2 →
     Game_init agents size = Raise ValueError)
  ∧ (∀ dims v, seq_items size = Some dims → v ∈ dims →
       (∀ z, as_int v = Some z → (z < 1)%Z) →
       ∃ e, Game_init agents size = Raise e)
  ∧ (∀ l v_rows v_columns n_rows n_columns,
       seq_items agents = Some (AnAgent <$> l) → 2 ≤ length l →
       seq_items size = Some [v_rows; v_columns] →
       as_int v_rows = Some n_rows → as_int v_columns = Some n_columns →
       (1 ≤ n_rows)%Z → (1 ≤ n_columns)%Z →
       Game_init agents size
       = Ok {| _agents := l; _board_size := (n_rows, n_columns) |}).
Proof.
  unfold Game_init. split; [|split].
  - intros l -> Hlen. by rewrite decide_True.
  - intros dims v -> Hin Hbad.
    destruct (seq_items agents) as [l|]; [|by eexists].
    case_decide; [by eexists|].
    destruct (mapM the_agent l); [|by eexists].
    case_decide; [by eexists|].
    destruct (check_board_size_bad dims v Hin Hbad) as [e ->]. by eexists.
  - intros l v_rows v_columns n_rows n_columns -> Hlen -> Hrows Hcols Hr Hc.
    rewrite length_fmap. rewrite decide_False by lia.
    rewrite mapM_fmap_Some by done. rewrite decide_False by (simpl; lia).
    simpl. rewrite Hrows, Hcols. by rewrite !decide_False by lia.
Qed.

End construction_facts.

(** CLAIM C6, as stated, fails: two agents holding the same token make a
    game. *)
Lemma Game_init_equal_tokens :
  ¬ (∀ (agents : pyseq (agent_arg string)) (size : pyseq pyval) l i j a1 a2,
       seq_items agents = Some l → i ≠ j →
       l !! i = Some (AnAgent a1) → l !! j = Some (AnAgent a2) →
       token a1 = token a2 →
       ∃ e, Game_init agents size = Raise e).
Proof.
  intros Hclaim.
  destruct (Hclaim (PyList [AnAgent twin_1; AnAgent twin_2]) (PyTuple [VInt 6; VInt 7])
              [AnAgent twin_1; AnAgent twin_2] 0 1 twin_1 twin_2) as [e He]; try done.
Qed.

(** ** Termination of the game *)

Lemma filter_insert_length {A : Type} (P : A → Prop) `{∀ x, Decision (P x)}
    (l : list A) (i : nat) (x y : A) :
  l !! i = Some x → P x → ¬ P y →
  length (filter P (<[i:=y]> l)) + 1 = length (filter P l).
Proof.
  intros Hl Hx Hy. revert i Hl. induction l as [|a l IH]; intros [|i] Hl; try done.
  - injection Hl as ->. simpl. rewrite filter_cons_False, filter_cons_True by done.
    simpl. lia.
  - simpl in Hl |- *. specialize (IH i Hl). rewrite !filter_cons.
    destruct (decide (P a)); simpl; lia.
Qed.

Lemma filter_replicate_length {A : Type} (P : A → Prop) `{∀ x, Decision (P x)}
    (n : nat) (x : A) :
  P x → length (filter P (replicate n x)) = n.
Proof.
  intros Hx. induction n as [|n IH]; [done|].
  simpl. rewrite filter_cons_True by done. simpl. by rewrite IH.
Qed.

Section termination_facts.
Context {Token : Type} `{Countable Token}.
Implicit Types (s : State Token) (g : Game Token) (ls : loop_state Token).

(** Each placement fills one empty cell. *)
Lemma place_token_empty_cells s (column : Z) (tok : Token) s' :
  board_wf s → gravity s → (1 ≤ column ≤ _n_columns s)%Z →
  place_token column tok s = (Ok (), s') →
  empty_cells s' + 1 = empty_cells s.
Proof.
  intros Hwf Hg Hc Hplace.
  destruct (place_token_cases s column tok Hwf Hg Hc)
    as [[_ Hraise]|(row & Hrow & Hempty & _ & _ & Hplace')]; [congruence|].
  rewrite Hplace in Hplace'.
  destruct (fwd (_token_map s) !! tok) as [id|]; [|done].
  injection Hplace' as ->. unfold empty_cells. simpl.
  rewrite cell_lookup in Hempty by done.
  by apply (filter_insert_length _ _ _ None).
Qed.

(** A board without an empty cell ends the game. *)
Lemma full_board_terminal s :
  board_wf s → ids_known s → None ∉ _board s →
  ∃ result, check_for_outcome s = Ok result
    ∧ (result.1 = Some WIN ∨ result.1 = Some DRAW).
Proof.
  intros Hwf Hids Hfull.
  destruct (check_for_outcome_cases s Hwf Hids)
    as (result & w & Hcheck & _ & _ & _ & Hnone & Hlose).
  exists (result, w). split; [done|]. simpl.
  destruct result as [[| |]|]; [by left|done|by right|].
  destruct (proj1 Hnone eq_refl) as [Hin _]. done.
Qed.

Lemma iterations_snoc g (t : nat) ls0 ls ls1 :
  iterations g t ls0 = Some ls → play_iter g ls = Continue ls1 →
  iterations g (S t) ls0 = Some ls1.
Proof.
  revert ls0. induction t as [|t IH]; intros ls0.
  - intros [= ->] Hiter. simpl. by rewrite Hiter.
  - intros Hit Hiter. change (iterations g (S t) ls0) with
      (match play_iter g ls0 with
       | Continue ls' => iterations g t ls'
       | _ => None
       end) in Hit.
    change (iterations g (S (S t)) ls0) with
      (match play_iter g ls0 with
       | Continue ls' => iterations g (S t) ls'
       | _ => None
       end).
    destruct (play_iter g ls0); try done. by apply IH.
Qed.

(** One turn of a game in which the agent asked plays on a column that is
    not full: the token is placed, and the game ends or goes on. *)
Lemma play_iter_step g (order : list (Agent Token)) (t : nat) ls :
  order ≠ [] → order ⊆ _agents g →
  iterations g t (play_init g order) = Some ls →
  reachable (token <$> _agents g) (_board_size g) (state ls) →
  plays_open_column g ls →
  ∃ st o' result,
    reachable (token <$> _agents g) (_board_size g) st
    ∧ empty_cells st + 1 = empty_cells (state ls)
    ∧ length (record o') = S (length (record (outcome ls)))
    ∧ check_for_outcome st = Ok result
    ∧ (((result.1 = Some WIN ∨ result.1 = Some DRAW)
        ∧ ∃ ls', play_iter g ls = Break ls' ∧ state ls' = st
            ∧ finalized (outcome ls') ∧ record (outcome ls') = record o')
       ∨ (∃ ls', play_iter g ls = Continue ls' ∧ state ls' = st ∧ outcome ls' = o')).
Proof.
  intros Hne Hsub Hit Hreach Hplays.
  destruct (iterations_cycle g order t _ ls 0 0 Hne Hit (cycle_at_start order))
    as (q & r & Hat & _ & _).
  destruct (cycle_at_next order q r _ Hne Hat) as (agent & it & _ & _ & Hnext & Hpos & _).
  assert (token agent ∈ token <$> _agents g) as Htok.
  { apply list_elem_of_fmap_2, Hsub. by eapply list_elem_of_lookup_2. }
  destruct (reachable_invariant _ _ _ Hreach) as (Hwf & Hg & Hids & HR & HC & Hmap).
  destruct (expose_view_reachable _ _ _ Hreach) as (view & Hview & _).
  set (a := select_action agent (calls ls) view).
  assert (answer ls = Some (agent, a)) as Hanswer.
  { unfold answer. by rewrite Hnext, Hview. }
  destruct (Hplays agent a Hanswer) as (Hkind & column & Hint & Hcol & Hopen).
  assert (check_action (_board_size g).2 a = Ok column) as Hcheck.
  { unfold check_action. rewrite decide_False by (intros Hno; by apply Hno).
    rewrite Hint. by rewrite decide_False by lia. }
  destruct (token_map_fwd_is_Some (token <$> _agents g) (_board_size g) (token agent) Htok)
    as [id Hid].
  rewrite <- Hmap in Hid. rewrite <- HC in Hcol.
  destruct (place_token_lands (state ls) column (token agent) id Hwf Hg Hcol Hid Hopen)
    as (row & st & Hplace & _ & _ & _ & _ & _ & _ & _).
  assert (reachable (token <$> _agents g) (_board_size g) st) as Hreach'.
  { by eapply reachable_place. }
  destruct (reachable_invariant _ _ _ Hreach') as (Hwf' & _ & Hids' & _ & _ & _).
  destruct (check_for_outcome_cases st Hwf' Hids')
    as (result & w & Houtcome & _ & _ & _ & _ & Hlose).
  set (o' := append_to_record (outcome ls) (token agent) a).
  exists st, o', (result, w). split; [done|].
  split; [by eapply place_token_empty_cells|].
  split; [subst o'; simpl; rewrite length_app; simpl; lia|]. split; [done|].
  unfold play_iter. rewrite Hnext, Hview. cbn zeta. fold a.
  rewrite Hcheck. cbn [state outcome calls]. rewrite Hplace, Houtcome. fold o'.
  destruct (finalize o' (result, w)) as [o''|] eqn:Hfin.
  - left. destruct (finalize_finalized _ _ _ Hfin) as (Hfinal & Hrecord & Hterminal).
    split; [done|]. by eexists.
  - right. by eexists.
Qed.

Lemma play_loop_from g (order : list (Agent Token)) (m : nat) :
  order ≠ [] → order ⊆ _agents g →
  (∀ t ls, iterations g t (play_init g order) = Some ls → plays_open_column g ls) →
  ∀ t ls,
    iterations g t (play_init g order) = Some ls →
    reachable (token <$> _agents g) (_board_size g) (state ls) →
    empty_cells (state ls) ≤ m →
    ∃ n ls',
      1 ≤ n ≤ m
      ∧ (∀ fuel, n ≤ fuel → play_loop g fuel ls = Some (Ok ls'))
      ∧ length (record (outcome ls')) = length (record (outcome ls)) + n
      ∧ empty_cells (state ls') + n = empty_cells (state ls)
      ∧ (∃ result, check_for_outcome (state ls') = Ok result
           ∧ (result.1 = Some WIN ∨ result.1 = Some DRAW))
      ∧ finalized (outcome ls').
Proof.
  intros Hne Hsub Hplays. induction m as [|m IH]; intros t ls Hit Hreach Hempty.
  - destruct (play_iter_step g order t ls Hne Hsub Hit Hreach (Hplays t ls Hit))
      as (st & _ & _ & _ & Hdec & _). lia.
  - destruct (play_iter_step g order t ls Hne Hsub Hit Hreach (Hplays t ls Hit))
      as (st & o' & result & Hreach' & Hdec & Hrec & Houtcome
          & [[Hterminal (ls' & Hiter & <- & Hfinal & Hrecord)]
            |(ls' & Hiter & <- & <-)]).
    + exists 1, ls'. split; [lia|]. split; [|split; [|split; [|split]]].
      * intros [|fuel] Hfuel; [lia|]. simpl. by rewrite Hiter.
      * rewrite Hrecord. lia.
      * lia.
      * by exists result.
      * done.
    + destruct (IH (S t) ls') as (n & ls'' & Hn & Hloop & Hrec' & Hdec' & Hterm & Hfinal);
        [by eapply iterations_snoc|done|lia|].
      exists (S n), ls''. split; [lia|]. split; [|split; [|split; [|split]]].
      * intros [|fuel] Hfuel; [lia|]. simpl. rewrite Hiter. apply Hloop. lia.
      * lia.
      * lia.
      * done.
      * done.
Qed.

(** CLAIM C10: in a game in which every answer of an agent is a structurally
    valid PLACE on a column that is not full, the loop of [play] ends after
    [n] turns, with [n] at most rows times columns: every turn places one
    token and fills one empty cell, and the outcome check on the last board
    reports WIN or DRAW; every agent then has its result. *)
Theorem play_terminates g (order : list (Agent Token)) :
  order ≠ [] → order ⊆ _agents g →
  (∀ t ls, iterations g t (play_init g order) = Some ls → plays_open_column g ls) →
  ∃ n ls,
    1 ≤ n ≤ Z.to_nat (_board_size g).1 * Z.to_nat (_board_size g).2
    ∧ (∀ fuel, n ≤ fuel → play_loop g fuel (play_init g order) = Some (Ok ls))
    ∧ length (record (outcome ls)) = n
    ∧ empty_cells (state ls) + n
      = Z.to_nat (_board_size g).1 * Z.to_nat (_board_size g).2
    ∧ (∃ result, check_for_outcome (state ls) = Ok result
         ∧ (result.1 = Some WIN ∨ result.1 = Some DRAW))
    ∧ finalized (outcome ls).
Proof.
  intros Hne Hsub Hplays.
  assert (empty_cells (state (play_init g order))
          = Z.to_nat (_board_size g).1 * Z.to_nat (_board_size g).2) as Hinit.
  { unfold empty_cells. simpl. by apply filter_replicate_length. }
  destruct (play_loop_from g order (empty_cells (state (play_init g order)))
              Hne Hsub Hplays 0 (play_init g order))
    as (n & ls & Hn & Hloop & Hrec & Hdec & Hterm & Hfinal);
    [done|apply reachable_init|done|].
  exists n, ls. rewrite <- Hinit. simpl in Hrec. by repeat split; try lia.
Qed.

End termination_facts.

(** ** The theorems at concrete games *)

Section run_facts.
Context {Token : Type} `{Countable Token}.
Implicit Types (g : Game Token) (ls : loop_state Token).

Lemma plays_open_column_b_sound g ls :
  plays_open_column_b g ls = true → plays_open_column g ls.
Proof.
  unfold plays_open_column_b, plays_open_column. intros Hb agent a Hanswer.
  rewrite Hanswer in Hb. apply andb_true_iff in Hb as [Hkind Hb].
  apply bool_decide_eq_true_1 in Hkind. split; [done|].
  destruct (as_int (place_column a)) as [column|]; [|done].
  apply andb_true_iff in Hb as [Hb Hcell]. apply andb_true_iff in Hb as [Hcol Hrows].
  apply bool_decide_eq_true_1 in Hcell, Hcol, Hrows.
  exists column. split; [done|]. split; [done|]. exists 0%Z. split; [lia|done].
Qed.

Lemma iterations_None g (n t : nat) ls :
  iterations g n ls = None → n ≤ t → iterations g t ls = None.
Proof.
  revert t ls. induction n as [|n IH]; intros t ls Hn Hle; [done|].
  destruct t as [|t]; [lia|]. simpl in Hn |- *.
  destruct (play_iter g ls); try done. apply IH; [done|lia].
Qed.

(** The hypothesis of [play_terminates], settled by running a game that ends
    within [n] turns. *)
Lemma plays_open_column_run g ls0 (n : nat) :
  iterations g n ls0 = None →
  forallb (λ t, match iterations g t ls0 with
                | Some ls => plays_open_column_b g ls
                | None => true
                end) (seq 0 n) = true →
  ∀ t ls, iterations g t ls0 = Some ls → plays_open_column g ls.
Proof.
  intros Hend Hall t ls Hit.
  destruct (decide (t < n)) as [Hlt|Hge].
  - apply plays_open_column_b_sound.
    rewrite forallb_forall in Hall. specialize (Hall t).
    rewrite Hit in Hall. apply Hall. apply in_seq. lia.
  - rewrite (iterations_None g n t ls0 Hend) in Hit by lia. done.
Qed.

End run_facts.

Lemma option_run {A : Type} (run : option A) :
  match run with Some _ => true | None => false end = true → ∃ x, run = Some x.
Proof. destruct run as [x|]; [|done]. by exists x. Qed.

Lemma generate_lines_exact_witness :
  board_wf after_first_move
  ∧ Forall2 (λ line l, Some <$> line = (λ p, _board after_first_move !! Z.to_nat p) <$> l)
      (_generate_lines after_first_move)
      (generated_cells (length (_board after_first_move)) (_n_rows after_first_move)
         (_n_columns after_first_move))
  ∧ length (_generate_lines after_first_move) = 69.
Proof.
  assert (board_wf after_first_move) as Hwf by (vm_compute; reflexivity).
  split; [exact Hwf|].
  split; [exact (proj1 (generate_lines_exact after_first_move Hwf))|].
  vm_compute. reflexivity.
Defined.

Lemma place_token_lowest_empty_witness :
  reachable ["X"; "O"] (6, 7)%Z after_first_move
  ∧ (1 ≤ 4 ≤ _n_columns after_first_move)%Z
  ∧ "O" ∈ ["X"; "O"]
  ∧ (∃ r, (0 ≤ r < _n_rows after_first_move)%Z ∧ cell after_first_move r 4 = Some None)
  ∧ ∃ row id s',
      place_token 4 "O" after_first_move = (Ok (), s')
      ∧ cell after_first_move row 4 = Some None
      ∧ (∀ r, (row < r < _n_rows after_first_move)%Z →
           ∃ id', cell after_first_move r 4 = Some (Some id'))
      ∧ cell s' row 4 = Some (Some id).
Proof.
  assert (reachable ["X"; "O"] (6, 7)%Z after_first_move) as Hreach.
  { apply (reachable_place _ _ (State_init ["X"; "O"] (6, 7)%Z) 4 "X");
      [apply reachable_init|vm_compute; intuition discriminate|vm_compute; reflexivity]. }
  assert (1 ≤ 4 ≤ _n_columns after_first_move)%Z as Hcolumn
    by (vm_compute; intuition discriminate).
  assert ("O" ∈ ["X"; "O"]) as Htok by (right; left).
  assert (∃ r, (0 ≤ r < _n_rows after_first_move)%Z
               ∧ cell after_first_move r 4 = Some None) as Hopen.
  { exists 0%Z. split; [vm_compute; intuition discriminate|vm_compute; reflexivity]. }
  split; [exact Hreach|]. split; [exact Hcolumn|]. split; [exact Htok|].
  split; [exact Hopen|].
  destruct (place_token_lowest_empty _ _ _ _ _ Hreach Hcolumn Htok Hopen)
    as (row & id & s' & Hplace & _ & _ & Hempty & Hbelow & _ & Hcell & _).
  exists row, id, s'. split; [exact Hplace|]. split; [exact Hempty|].
  split; [exact Hbelow|exact Hcell].
Defined.

Lemma place_token_full_column_witness :
  board_wf one_cell_full
  ∧ (1 ≤ 1 ≤ _n_columns one_cell_full)%Z
  ∧ (∀ row, (0 ≤ row < _n_rows one_cell_full)%Z → cell one_cell_full row 1 ≠ Some None)
  ∧ place_token 1 "O" one_cell_full = (Raise ActionError, one_cell_full).
Proof.
  assert (board_wf one_cell_full) as Hwf by (vm_compute; reflexivity).
  assert (1 ≤ 1 ≤ _n_columns one_cell_full)%Z as Hcolumn
    by (vm_compute; intuition discriminate).
  assert (∀ row, (0 ≤ row < _n_rows one_cell_full)%Z → cell one_cell_full row 1 ≠ Some None)
    as Hfull.
  { intros row Hrow. change (_n_rows one_cell_full) with 1%Z in Hrow.
    replace row with 0%Z by lia. vm_compute. discriminate. }
  split; [exact Hwf|]. split; [exact Hcolumn|]. split; [exact Hfull|].
  exact (place_token_full_column one_cell_full 1 "O" Hwf Hcolumn Hfull).
Defined.

Lemma expose_view_external_tokens_witness :
  reachable ["X"; "O"] (6, 7)%Z after_first_move
  ∧ ∃ v, expose_view after_first_move = Ok v
      ∧ board_size v = (6, 7)%Z
      ∧ ∀ i c, board v !! i = Some c → c = None ∨ ∃ tok, c = Some tok ∧ tok ∈ ["X"; "O"].
Proof.
  assert (reachable ["X"; "O"] (6, 7)%Z after_first_move) as Hreach.
  { apply (reachable_place _ _ (State_init ["X"; "O"] (6, 7)%Z) 4 "X");
      [apply reachable_init|vm_compute; intuition discriminate|vm_compute; reflexivity]. }
  split; [exact Hreach|].
  destruct (expose_view_external_tokens _ _ _ Hreach) as (v & Hview & Hsize & _ & Hcells).
  exists v. split; [exact Hview|]. split; [exact Hsize|].
  intros i c Hi. destruct (Hcells i c Hi) as [[Hc _]|(tok & id & Hc & Htok & _)].
  - left. exact Hc.
  - right. exists tok. split; [exact Hc|exact Htok].
Defined.

Lemma play_iter_structural_check_witness :
  answer (play_init game_6x7 [agent_X; agent_O])
  = Some (agent_X, mkAction (VActions PLACE) (VInt 6))
  ∧ (structurally_invalid 7 (mkAction (VActions PLACE) (VInt 6))
     ↔ ∃ e, check_action 7 (mkAction (VActions PLACE) (VInt 6)) = Raise e).
Proof.
  assert (answer (play_init game_6x7 [agent_X; agent_O])
          = Some (agent_X, mkAction (VActions PLACE) (VInt 6))) as Hanswer
    by (vm_compute; reflexivity).
  split; [exact Hanswer|].
  exact (proj1 (play_iter_structural_check game_6x7 _ _ _ Hanswer)).
Defined.


Lemma play_terminates_witness :
  [small_X; small_O] ≠ []
  ∧ [small_X; small_O] ⊆ _agents game_2x2
  ∧ (∀ t ls, iterations game_2x2 t (play_init game_2x2 [small_X; small_O]) = Some ls →
       plays_open_column game_2x2 ls)
  ∧ ∃ n ls,
      1 ≤ n ≤ 4
      ∧ play_loop game_2x2 n (play_init game_2x2 [small_X; small_O]) = Some (Ok ls)
      ∧ length (record (outcome ls)) = n
      ∧ finalized (outcome ls).
Proof.
  assert ([small_X; small_O] ≠ []) as Hne by discriminate.
  assert ([small_X; small_O] ⊆ _agents game_2x2) as Hsub by (intros x Hx; exact Hx).
  assert (∀ t ls, iterations game_2x2 t (play_init game_2x2 [small_X; small_O]) = Some ls →
            plays_open_column game_2x2 ls) as Hplays.
  { apply (plays_open_column_run game_2x2 _ 4); vm_compute; reflexivity. }
  split; [exact Hne|]. split; [exact Hsub|]. split; [exact Hplays|].
  destruct (play_terminates game_2x2 [small_X; small_O] Hne Hsub Hplays)
    as (n & ls & Hn & Hloop & Hrecord & _ & _ & Hfinal).
  exists n, ls. split; [exact Hn|]. split; [exact (Hloop n (le_n n))|].
  split; [exact Hrecord|exact Hfinal].
Defined.

(** ** More on the state engine *)

Section more_state_facts.
Context {Token : Type} `{Countable Token}.
Implicit Types s : State Token.

(** PROPERTY X1 ([State.check_for_outcome]): on every well-formed board whose
    ids are those of tokens, the outcome check of the package reports WIN
    exactly when some line yielded holds four identical non-empty cells, and
    then names the token owning such a line; DRAW exactly when there is no
    such line and no empty cell; nothing exactly when there is no such line
    and some cell is empty. It never reports LOSE and never raises. *)
Theorem check_for_outcome_spec s :
  board_wf s → ids_known s →
  ∃ result winning_token,
    check_for_outcome s = Ok (result, winning_token)
    ∧ (result = Some WIN ↔
         ∃ line id, line ∈ _generate_lines s ∧ four_in_a_row line id)
    ∧ (result = Some WIN →
         ∃ line id tok, line ∈ _generate_lines s ∧ four_in_a_row line id
           ∧ winning_token = Some tok ∧ fwd (_token_map s) !! tok = Some id)
    ∧ (result = Some DRAW ↔
         (None ∉ _board s)
         ∧ ¬ (∃ line id, line ∈ _generate_lines s ∧ four_in_a_row line id))
    ∧ (result = None ↔
         None ∈ _board s
         ∧ ¬ (∃ line id, line ∈ _generate_lines s ∧ four_in_a_row line id))
    ∧ result ≠ Some LOSE.
Proof. apply check_for_outcome_cases. Qed.

(** PROPERTY X2 ([State._generate_lines]): on a board of rows times columns
    cells no slice is cut short by the end of the board: every line yielded
    has exactly four cells, and each of them is a cell of the board. *)
Theorem generate_lines_four_cells s (line : list (option Z)) :
  board_wf s → line ∈ _generate_lines s →
  length line = 4 ∧ ∀ c, c ∈ line → c ∈ _board s.
Proof. apply generate_lines_cells. Qed.

(** PROPERTY X3 ([State.__init__], [State.place_token]): what every state of a
    game keeps: the board has rows times columns cells, the size and the
    token map are those of the construction, no token floats above an empty
    cell, and every id on the board is the id of a token. *)
Theorem state_invariant (external_tokens : list Token) (size : Z * Z) s :
  reachable external_tokens size s →
  board_wf s ∧ gravity s ∧ ids_known s
  ∧ _n_rows s = size.1 ∧ _n_columns s = size.2
  ∧ _token_map s = _token_map (State_init external_tokens size).
Proof. apply reachable_invariant. Qed.

(** PROPERTY X4 ([State.place_token]): a token that is not in the token map
    cannot be placed: on a column with an empty cell the call raises
    [KeyError], on a full column [ActionError] (the column is looked at
    first); the state is left as it was. *)
Theorem place_token_unknown_token s (column : Z) (tok : Token) :
  board_wf s → gravity s → (1 ≤ column ≤ _n_columns s)%Z →
  fwd (_token_map s) !! tok = None →
  (open_column s column → place_token column tok s = (Raise KeyError, s))
  ∧ (¬ open_column s column → place_token column tok s = (Raise ActionError, s)).
Proof.
  intros Hwf Hg Hc Htok.
  destruct (place_token_cases s column tok Hwf Hg Hc)
    as [[Hfull Hraise]|(row & Hrow & Hempty & _ & _ & Hplace)].
  - split; [|done]. intros (r & Hr & Hopen). by destruct (Hfull r Hr).
  - rewrite Htok in Hplace. split; [done|]. intros Hclosed. destruct Hclosed.
    by exists row.
Qed.

End more_state_facts.

Lemma reachable_after_first_move : reachable ["X"; "O"] (6, 7)%Z after_first_move.
Proof.
  apply (reachable_place _ _ (State_init ["X"; "O"] (6, 7)%Z) 4 "X");
    [apply reachable_init|vm_compute; intuition discriminate|vm_compute; reflexivity].
Qed.

Lemma check_for_outcome_spec_witness :
  board_wf after_first_move ∧ ids_known after_first_move
  ∧ ∃ result winning_token,
      check_for_outcome after_first_move = Ok (result, winning_token)
      ∧ result ≠ Some LOSE.
Proof.
  destruct (reachable_invariant _ _ _ reachable_after_first_move) as (Hwf & _ & Hids & _).
  split; [exact Hwf|]. split; [exact Hids|].
  destruct (check_for_outcome_spec after_first_move Hwf Hids)
    as (result & w & Hcheck & _ & _ & _ & _ & Hlose).
  exists result, w. split; [exact Hcheck|exact Hlose].
Defined.

Lemma generate_lines_four_cells_witness :
  board_wf after_first_move
  ∧ replicate 4 None ∈ _generate_lines after_first_move
  ∧ length (replicate 4 (@None Z)) = 4.
Proof.
  destruct (reachable_invariant _ _ _ reachable_after_first_move) as (Hwf & _).
  assert (replicate 4 None ∈ _generate_lines after_first_move) as Hin.
  { apply (list_elem_of_lookup_2 _ 0). vm_compute. reflexivity. }
  split; [exact Hwf|]. split; [exact Hin|].
  exact (proj1 (generate_lines_four_cells after_first_move _ Hwf Hin)).
Defined.

Lemma state_invariant_witness :
  reachable ["X"; "O"] (6, 7)%Z after_first_move
  ∧ board_wf after_first_move ∧ gravity after_first_move.
Proof.
  split; [exact reachable_after_first_move|].
  destruct (state_invariant _ _ _ reachable_after_first_move) as (Hwf & Hg & _).
  split; [exact Hwf|exact Hg].
Defined.

Lemma place_token_unknown_token_witness :
  board_wf after_first_move ∧ gravity after_first_move
  ∧ (1 ≤ 4 ≤ _n_columns after_first_move)%Z
  ∧ fwd (_token_map after_first_move) !! "Z" = None
  ∧ open_column after_first_move 4
  ∧ place_token 4 "Z" after_first_move = (Raise KeyError, after_first_move).
Proof.
  destruct (reachable_invariant _ _ _ reachable_after_first_move) as (Hwf & Hg & _).
  assert (1 ≤ 4 ≤ _n_columns after_first_move)%Z as Hcolumn
    by (vm_compute; intuition discriminate).
  assert (fwd (_token_map after_first_move) !! "Z" = None) as Htok
    by (vm_compute; reflexivity).
  assert (open_column after_first_move 4) as Hopen.
  { exists 0%Z. split; [vm_compute; intuition discriminate|vm_compute; reflexivity]. }
  split; [exact Hwf|]. split; [exact Hg|]. split; [exact Hcolumn|].
  split; [exact Htok|]. split; [exact Hopen|].
  exact (proj1 (place_token_unknown_token after_first_move 4 "Z" Hwf Hg Hcolumn Htok) Hopen).
Defined.

(** ** More on the orchestrator *)

Section more_game_facts.
Context {Token : Type} `{Countable Token}.
Implicit Types (g : Game Token) (ls : loop_state Token).

Lemma check_board_size_Ok (elements : list pyval) (dims : list Z) :
  check_board_size elements = Ok dims →
  Forall2 (λ v z, as_int v = Some z ∧ (1 ≤ z)%Z) elements dims.
Proof.
  revert dims. induction elements as [|v elements IH]; intros dims; simpl.
  - intros [= <-]. constructor.
  - destruct (as_int v) as [z|] eqn:Hv; [|done]. case_decide; [done|].
    destruct (check_board_size elements) as [zs|]; [|done]. simpl.
    intros [= <-]. constructor; [split; [done|lia]|by apply IH].
Qed.

(** PROPERTY X5 ([Game.__init__]): construction succeeds exactly on a list or
    tuple of two or more agents with a list or tuple of two integers, both
    strictly positive ([bool] counts as an integer, as [isinstance] has
    it); the game then holds these agents and this size. Every failure is a
    [TypeError] or a [ValueError]. *)
Theorem Game_init_Ok_iff (agents : pyseq (agent_arg Token)) (size : pyseq pyval)
    (g : Game Token) :
  (Game_init agents size = Ok g ↔
     ∃ l v_rows v_columns n_rows n_columns,
       seq_items agents = Some (AnAgent <$> l) ∧ 2 ≤ length l
       ∧ seq_items size = Some [v_rows; v_columns]
       ∧ as_int v_rows = Some n_rows ∧ as_int v_columns = Some n_columns
       ∧ (1 ≤ n_rows)%Z ∧ (1 ≤ n_columns)%Z
       ∧ g = {| _agents := l; _board_size := (n_rows, n_columns) |})
  ∧ (∀ e, Game_init agents size = Raise e → e = TypeError ∨ e = ValueError).
Proof.
  unfold Game_init. split; [split|].
  - destruct (seq_items agents) as [l0|]; [|done].
    case_decide; [done|].
    destruct (mapM the_agent l0) as [l|] eqn:Hagents; [|done].
    destruct (seq_items size) as [dims0|]; [|done].
    case_decide; [done|].
    destruct (check_board_size dims0) as [dims|] eqn:Hdims; [|done]. simpl.
    apply check_board_size_Ok in Hdims.
    destruct dims as [|n_rows [|n_columns [|??]]]; try done.
    intros [= <-].
    apply Forall2_cons_inv_r in Hdims as (v_rows & rest & [Hr Hr1] & Hdims & ->).
    apply Forall2_cons_inv_r in Hdims as (v_columns & rest' & [Hc Hc1] & Hdims & ->).
    apply Forall2_nil_inv_r in Hdims as ->.
    exists l, v_rows, v_columns, n_rows, n_columns.
    assert (AnAgent <$> l = l0) as <-.
    { apply (mapM_fmap_Some_inv the_agent); [done|]. by intros [a|v] y [= <-]. }
    rewrite length_fmap in *. split; [done|]. split; [lia|]. done.
  - intros (l & v_rows & v_columns & n_rows & n_columns
            & -> & Hlen & -> & Hrows & Hcols & Hr & Hc & ->).
    rewrite length_fmap. rewrite decide_False by lia.
    rewrite mapM_fmap_Some by done. rewrite decide_False by (simpl; lia).
    simpl. rewrite Hrows, Hcols. by rewrite !decide_False by lia.
  - intros e. destruct (seq_items agents) as [l0|]; [|intros [= <-]; by left].
    case_decide; [intros [= <-]; by right|].
    destruct (mapM the_agent l0) as [l|]; [|intros [= <-]; by left].
    destruct (seq_items size) as [dims0|]; [|intros [= <-]; by left].
    case_decide; [intros [= <-]; by right|].
    assert (∀ elements e, check_board_size elements = Raise e →
              e = TypeError ∨ e = ValueError) as Hcheck.
    { induction elements as [|v elements IH]; intros e'; simpl; [done|].
      destruct (as_int v); [|intros [= <-]; by left].
      case_decide; [intros [= <-]; by right|].
      destruct (check_board_size elements); [done|]. simpl. intros [= <-]. by apply IH. }
    destruct (check_board_size dims0) as [dims|e'] eqn:Hdims; simpl.
    + destruct dims as [|? [|? [|??]]]; try done; intros [= <-]; by right.
    + intros [= <-]. by eapply Hcheck.
Qed.

End more_game_facts.

Section play_facts.
Context {Token : Type} `{Countable Token}.
Implicit Types (g : Game Token) (ls : loop_state Token) (s : State Token).

(** What an iteration that does not raise has done. *)
Lemma play_iter_placed g ls ls' (goes_on : bool) :
  play_iter g ls = (if goes_on then Continue ls' else Break ls') →
  ∃ agent a column result,
    answer ls = Some (agent, a)
    ∧ check_action (_board_size g).2 a = Ok column
    ∧ place_token column (token agent) (state ls) = (Ok (), state ls')
    ∧ check_for_outcome (state ls') = Ok result
    ∧ finalize (append_to_record (outcome ls) (token agent) a) result
      = (if goes_on then None else Some (outcome ls'))
    ∧ (goes_on = true → outcome ls' = append_to_record (outcome ls) (token agent) a)
    ∧ calls ls' = S (calls ls).
Proof.
  unfold play_iter, answer. intros Hiter.
  destruct (cycle_next (agents_iter ls)) as [[agent it]|]; [|by destruct goes_on].
  destruct (expose_view (state ls)) as [view|]; [|by destruct goes_on].
  cbn zeta in Hiter. set (a := select_action agent (calls ls) view) in *.
  destruct (check_action (_board_size g).2 a) as [column|] eqn:Hcheck;
    [|by destruct goes_on].
  cbn [state outcome calls] in Hiter.
  destruct (place_token column (token agent) (state ls)) as [[[]|] st] eqn:Hplace;
    [|by destruct goes_on].
  destruct (check_for_outcome st) as [result|] eqn:Houtcome; [|by destruct goes_on].
  exists agent, a, column, result. split; [done|]. split; [done|].
  destruct (finalize _ result) as [o'|] eqn:Hfin; destruct goes_on; try done;
    injection Hiter as <-; by simpl.
Qed.

(** A turn that goes on has placed a token on a state of the game. *)
Lemma play_iter_Continue_state g ls ls' :
  reachable (token <$> _agents g) (_board_size g) (state ls) →
  play_iter g ls = Continue ls' →
  reachable (token <$> _agents g) (_board_size g) (state ls')
  ∧ empty_cells (state ls') + 1 = empty_cells (state ls).
Proof.
  intros Hreach Hiter.
  destruct (play_iter_placed g ls ls' true Hiter)
    as (agent & a & column & result & _ & Hcheck & Hplace & _).
  destruct (reachable_invariant _ _ _ Hreach) as (Hwf & Hg & _ & _ & HC & _).
  assert (1 ≤ column ≤ _n_columns (state ls))%Z as Hcolumn.
  { rewrite HC. destruct (check_action_spec (_board_size g).2 a)
      as [[_ (e & _ & He)]|[_ (c & _ & Hc & Hok)]]; [congruence|].
    rewrite Hcheck in Hok. by injection Hok as ->. }
  split; [by eapply reachable_place|by eapply place_token_empty_cells].
Qed.

Lemma iterations_reachable g (order : list (Agent Token)) (t : nat) ls :
  iterations g t (play_init g order) = Some ls →
  reachable (token <$> _agents g) (_board_size g) (state ls)
  ∧ empty_cells (state ls) + t
    = Z.to_nat (_board_size g).1 * Z.to_nat (_board_size g).2.
Proof.
  assert (∀ ls0, reachable (token <$> _agents g) (_board_size g) (state ls0) →
            iterations g t ls0 = Some ls →
            reachable (token <$> _agents g) (_board_size g) (state ls)
            ∧ empty_cells (state ls) + t = empty_cells (state ls0)) as Hgen.
  { induction t as [|t IH]; intros ls0 Hreach Hit.
    - injection Hit as <-. split; [done|lia].
    - simpl in Hit. destruct (play_iter g ls0) as [ls1| |] eqn:Hiter; try done.
      destruct (play_iter_Continue_state g ls0 ls1 Hreach Hiter) as [Hreach1 Hdec].
      destruct (IH ls1 Hreach1 Hit) as [Hreach' Hdec']. split; [done|lia]. }
  intros Hit. destruct (Hgen (play_init g order)) as [Hreach Hdec];
    [apply reachable_init|done|].
  split; [done|]. rewrite Hdec. unfold empty_cells. simpl.
  by apply filter_replicate_length.
Qed.

(** PROPERTY X6 ([Game.play]): whatever the agents answer, the loop of [play]
    does not run for ever: within rows times columns + 1 turns the game has
    ended or an exception has been raised. *)
Theorem play_always_ends g (order : list (Agent Token)) :
  ∃ n, n ≤ S (Z.to_nat (_board_size g).1 * Z.to_nat (_board_size g).2)
    ∧ ∀ fuel, n ≤ fuel → ∃ result, play g order fuel = Some result.
Proof.
  assert (∀ m ls, reachable (token <$> _agents g) (_board_size g) (state ls) →
            empty_cells (state ls) ≤ m →
            ∃ n, n ≤ S m ∧ ∀ fuel, n ≤ fuel → is_Some (play_loop g fuel ls)) as Hgen.
  { induction m as [|m IH]; intros ls Hreach Hempty.
    - exists 1. split; [lia|]. intros [|fuel] Hfuel; [lia|]. simpl.
      destruct (play_iter g ls) as [ls'|ls'|e ls'] eqn:Hiter; [|by eexists..].
      destruct (play_iter_Continue_state g ls ls' Hreach Hiter) as [_ Hdec]. lia.
    - destruct (play_iter g ls) as [ls'|ls'|e ls'] eqn:Hiter.
      + destruct (play_iter_Continue_state g ls ls' Hreach Hiter) as [Hreach' Hdec].
        destruct (IH ls' Hreach' ltac:(lia)) as (n & Hn & Hloop).
        exists (S n). split; [lia|]. intros [|fuel] Hfuel; [lia|]. simpl.
        rewrite Hiter. apply Hloop. lia.
      + exists 1. split; [lia|]. intros [|fuel] Hfuel; [lia|]. simpl.
        rewrite Hiter. by eexists.
      + exists 1. split; [lia|]. intros [|fuel] Hfuel; [lia|]. simpl.
        rewrite Hiter. by eexists. }
  destruct (Hgen (Z.to_nat (_board_size g).1 * Z.to_nat (_board_size g).2)
              (play_init g order)) as (n & Hn & Hloop).
  { apply reachable_init. }
  { unfold empty_cells. simpl. by rewrite filter_replicate_length. }
  exists n. split; [done|]. intros fuel Hfuel. unfold play.
  destruct (Hloop fuel Hfuel) as [[ls|e] ->]; by eexists.
Qed.

(** PROPERTY X7 ([Game.play]): an answer that is structurally valid but names a
    full column ends the loop with [ActionError]: nothing is placed and
    nothing is recorded. *)
Theorem play_full_column_aborts g ls (agent : Agent Token) (a : Action) (column : Z) :
  reachable (token <$> _agents g) (_board_size g) (state ls) →
  answer ls = Some (agent, a) →
  action a = VActions PLACE →
  as_int (place_column a) = Some column →
  (1 ≤ column ≤ (_board_size g).2)%Z →
  ¬ open_column (state ls) column →
  (∃ ls', play_iter g ls = Raised ActionError ls'
     ∧ state ls' = state ls ∧ outcome ls' = outcome ls)
  ∧ ∀ fuel, play_loop g (S fuel) ls = Some (Raise ActionError).
Proof.
  intros Hreach Hanswer Hkind Hint Hcol Hfull.
  destruct (reachable_invariant _ _ _ Hreach) as (Hwf & Hg & _ & _ & HC & _).
  assert (place_token column (token agent) (state ls) = (Raise ActionError, state ls))
    as Hplace.
  { destruct (place_token_cases (state ls) column (token agent) Hwf Hg)
      as [[_ Hraise]|(row & Hrow & Hempty & _)]; [by rewrite HC|done|].
    destruct Hfull. by exists row. }
  assert (check_action (_board_size g).2 a = Ok column) as Hcheck.
  { unfold check_action. rewrite decide_False by (intros Hno; by apply Hno).
    rewrite Hint. by rewrite decide_False by lia. }
  assert (∃ ls', play_iter g ls = Raised ActionError ls'
     ∧ state ls' = state ls ∧ outcome ls' = outcome ls) as Hiter.
  { unfold answer in Hanswer. unfold play_iter.
    destruct (cycle_next (agents_iter ls)) as [[agent' it]|]; [|done].
    destruct (expose_view (state ls)) as [view|]; [|done].
    injection Hanswer as -> <-. cbn zeta. rewrite Hcheck. cbn [state outcome calls].
    rewrite Hplace. by eexists. }
  split; [done|]. intros fuel. simpl. by destruct Hiter as (ls' & -> & _).
Qed.

End play_facts.

Section record_facts.
Context {Token : Type} `{Countable Token}.
Implicit Types (g : Game Token) (ls : loop_state Token) (s : State Token).

(** The game ends at the turn whose iteration leaves the loop. *)
Lemma play_loop_Break g (fuel : nat) ls0 ls' :
  play_loop g fuel ls0 = Some (Ok ls') →
  ∃ t ls, t < fuel ∧ iterations g t ls0 = Some ls ∧ play_iter g ls = Break ls'.
Proof.
  revert ls0. induction fuel as [|fuel IH]; intros ls0; simpl; [done|].
  destruct (play_iter g ls0) as [ls1|ls1|e ls1] eqn:Hiter; [| |done].
  - intros Hloop. destruct (IH ls1 Hloop) as (t & ls & Ht & Hit & Hbreak).
    exists (S t), ls. split; [lia|]. simpl. by rewrite Hiter.
  - intros [= <-]. exists 0, ls0. split; [lia|]. done.
Qed.

(** What the turns played so far have written into the record. *)
Lemma iterations_record g (t : nat) ls0 ls :
  iterations g t ls0 = Some ls →
  ∃ trace,
    record (outcome ls) = record (outcome ls0) ++ trace
    ∧ length trace = t
    ∧ agent_outcomes (outcome ls) = agent_outcomes (outcome ls0)
    ∧ ∀ i ls_i, i < t → iterations g i ls0 = Some ls_i →
        ∃ agent a column,
          answer ls_i = Some (agent, a)
          ∧ trace !! i = Some (token agent, a)
          ∧ check_action (_board_size g).2 a = Ok column
          ∧ (place_token column (token agent) (state ls_i)).1 = Ok ().
Proof.
  revert ls0. induction t as [|t IH]; intros ls0 Hit.
  - injection Hit as <-. exists []. rewrite app_nil_r. do 3 (split; [done|]).
    intros i ls_i Hi. lia.
  - simpl in Hit. destruct (play_iter g ls0) as [ls1| |] eqn:Hiter; try done.
    destruct (play_iter_placed g ls0 ls1 true Hiter)
      as (agent & a & column & result & Hanswer & Hcheck & Hplace & _ & _ & Ho & _).
    destruct (IH ls1 Hit) as (trace & Hrecord & Hlen & Hagents & Htrace).
    exists ((token agent, a) :: trace). rewrite Hrecord, Hagents, (Ho eq_refl). simpl.
    split; [by rewrite <- app_assoc|]. split; [by rewrite Hlen|]. split; [done|].
    intros [|i] ls_i Hi Hit_i.
    + injection Hit_i as <-. exists agent, a, column. by rewrite Hplace.
    + simpl in Hit_i. rewrite Hiter in Hit_i. apply (Htrace i ls_i); [lia|done].
Qed.

(** PROPERTY X8 ([Game.play], [Outcome.append_to_record]): when a game has
    ended, its record has one entry for each turn played, in order: the
    entry of turn [i] is the token of the agent asked at that turn with the
    action it answered, and that action passed the checks and was placed. *)
Theorem play_record g (order : list (Agent Token)) (fuel : nat) (r : play_result Token) :
  play g order fuel = Some (Ok r) →
  ∃ n, length (record (outcome (final r))) = S n ∧ S n ≤ fuel
    ∧ ∀ i, i ≤ n →
        ∃ ls_i agent a column,
          iterations g i (play_init g order) = Some ls_i
          ∧ answer ls_i = Some (agent, a)
          ∧ record (outcome (final r)) !! i = Some (token agent, a)
          ∧ check_action (_board_size g).2 a = Ok column
          ∧ (place_token column (token agent) (state ls_i)).1 = Ok ().
Proof.
  intros Hplay. apply play_returned in Hplay as (_ & _ & Hloop).
  destruct (play_loop_Break g fuel _ _ Hloop) as (t & ls & Ht & Hit & Hbreak).
  destruct (iterations_record g t _ ls Hit) as (trace & Hrecord & Hlen & _ & Htrace).
  destruct (play_iter_placed g ls (final r) false Hbreak)
    as (agent & a & column & result & Hanswer & Hcheck & Hplace & _ & Hfin & _).
  apply finalize_finalized in Hfin as (_ & Hrecord' & _).
  simpl in Hrecord, Hrecord'. rewrite Hrecord in Hrecord'.
  exists t. rewrite Hrecord', length_app, Hlen. simpl. split; [lia|]. split; [lia|].
  intros i Hi. destruct (decide (i < t)) as [Hlt|Hge].
  - destruct (option_run (iterations g i (play_init g order))) as [ls_i Hit_i].
    { destruct (iterations g i (play_init g order)) eqn:Hnone; [done|].
      by rewrite (iterations_None g i t _ Hnone) in Hit by lia. }
    destruct (Htrace i ls_i Hlt Hit_i) as (ag & ac & col & Ha & Hi' & Hc & Hp).
    exists ls_i, ag, ac, col. split; [done|]. split; [done|].
    split; [|done]. rewrite lookup_app_l by lia. done.
  - assert (i = t) as -> by lia. exists ls, agent, a, column.
    split; [done|]. split; [done|]. split; [|by rewrite Hplace].
    rewrite lookup_app_r by lia. by replace (t - length trace) with 0 by lia.
Qed.

End record_facts.

Lemma omap_ext_elem {A B : Type} (f f' : A → option B) (l : list A) :
  (∀ x, x ∈ l → f x = f' x) → omap f l = omap f' l.
Proof.
  induction l as [|x l IH]; intros Hext; [done|]. csimpl.
  rewrite (Hext x) by (by left). rewrite IH; [done|].
  intros y Hy. apply Hext. by right.
Qed.

Section winner_facts.
Context {Token : Type} `{Countable Token}.
Implicit Types (g : Game Token) (ls : loop_state Token) (s : State Token).

(** A line of four on the board after a placement either runs through the
    cell just written or was there before. *)
Lemma four_after_placement s (i : nat) (id : Z) (line : list (option Z)) (id' : Z) :
  board_wf s →
  line ∈ _generate_lines (set_board s (<[i:=Some id]> (_board s))) →
  four_in_a_row line id' →
  id' = id ∨ line ∈ _generate_lines s.
Proof.
  intros Hwf Hin Hfour. rewrite generate_lines_values in Hin |- *.
  cbn [set_board _board _n_rows _n_columns] in Hin. rewrite length_insert in Hin.
  apply list_elem_of_fmap in Hin as (cells & Hline & Hcells).
  destruct (decide (Z.of_nat i ∈ cells)) as [Hthrough|Hbeside].
  - left. destruct (decide (i < length (_board s))) as [Hlt|Hge].
    + assert (Some id ∈ line) as Hid.
      { rewrite Hline. apply list_elem_of_omap. exists (Z.of_nat i). split; [done|].
        rewrite Nat2Z.id. by apply list_lookup_insert_eq. }
      rewrite Hfour in Hid.
      repeat (apply elem_of_cons in Hid as [[= ->]|Hid]; [done|]).
      by apply elem_of_nil in Hid.
    + exfalso. rewrite Hwf in Hcells.
      apply generated_cells_exact in Hcells as (row & column & d & Hfits & ->).
      apply list_elem_of_fmap in Hthrough as (c & Hc & Hcin).
      unfold fits in Hfits. rewrite Forall_forall in Hfits.
      pose proof (on_board_position _ _ c (Hfits c Hcin)) as Hpos.
      rewrite <- Hwf in Hpos. lia.
  - right. apply list_elem_of_fmap. exists cells. split; [|done].
    rewrite Hline. apply omap_ext_elem. intros p Hp.
    rewrite Hwf in Hcells.
    apply generated_cells_exact in Hcells as (row & column & d & Hfits & ->).
    apply list_elem_of_fmap in Hp as (c & -> & Hcin).
    unfold fits in Hfits. rewrite Forall_forall in Hfits.
    pose proof (on_board_position _ _ c (Hfits c Hcin)) as Hpos.
    apply list_lookup_insert_ne. intros ->. apply Hbeside.
    apply list_elem_of_fmap. exists c. split; [lia|done].
Qed.

Lemma iterations_last g (t : nat) ls0 ls :
  iterations g (S t) ls0 = Some ls →
  ∃ ls1, iterations g t ls0 = Some ls1 ∧ play_iter g ls1 = Continue ls.
Proof.
  revert ls0. induction t as [|t IH]; intros ls0 Hit.
  - simpl in Hit. destruct (play_iter g ls0) as [ls1| |] eqn:Hiter; try done.
    injection Hit as ->. by exists ls0.
  - change (iterations g (S (S t)) ls0) with
      (match play_iter g ls0 with
       | Continue ls' => iterations g (S t) ls'
       | _ => None
       end) in Hit.
    destruct (play_iter g ls0) as [ls1| |] eqn:Hiter; try done.
    destruct (IH ls1 Hit) as (ls2 & Hit2 & Hiter2).
    exists ls2. split; [|done]. simpl. by rewrite Hiter.
Qed.

(** While the game goes on there is no line of four on the board. *)
Lemma iterations_no_four g (order : list (Agent Token)) (t : nat) ls :
  iterations g t (play_init g order) = Some ls →
  ¬ ∃ line id, line ∈ _generate_lines (state ls) ∧ four_in_a_row line id.
Proof.
  intros Hit. destruct (iterations_reachable g order t ls Hit) as [Hreach _].
  destruct (reachable_invariant _ _ _ Hreach) as (Hwf & _ & Hids & _).
  destruct t as [|t].
  - injection Hit as <-. intros (line & id & Hin & Hfour).
    destruct (generate_lines_cells _ line Hwf Hin) as [_ Hcells].
    assert (Some id ∈ line) as Hid by (rewrite Hfour; by left).
    apply Hcells in Hid. simpl in Hid. by apply elem_of_replicate_inv in Hid.
  - apply iterations_last in Hit as (ls1 & _ & Hiter).
    destruct (play_iter_placed g ls1 ls true Hiter)
      as (agent & a & column & result & _ & _ & _ & Houtcome & Hfin & _).
    destruct (check_for_outcome_cases (state ls) Hwf Hids)
      as (res' & w & Houtcome' & _ & _ & _ & Hnone & Hlose).
    rewrite Houtcome in Houtcome'. injection Houtcome' as ->.
    unfold finalize in Hfin. simpl in Hfin.
    destruct res' as [[| |]|]; try done. by destruct (proj1 Hnone eq_refl).
Qed.

(** PROPERTY X9 ([Game.play], [State.check_for_outcome]): the game is checked
    after every move, so when it ends with WIN the token reported is the
    token of the agent that made the last move. *)
Theorem play_winner_moved_last g (order : list (Agent Token)) (t : nat) ls ls'
    (winning_token : option Token) :
  iterations g t (play_init g order) = Some ls →
  play_iter g ls = Break ls' →
  check_for_outcome (state ls') = Ok (Some WIN, winning_token) →
  ∃ agent a, answer ls = Some (agent, a) ∧ winning_token = Some (token agent).
Proof.
  intros Hit Hbreak Houtcome.
  destruct (iterations_reachable g order t ls Hit) as [Hreach _].
  destruct (reachable_invariant _ _ _ Hreach) as (Hwf & Hg & Hids & _ & HC & Hmap).
  destruct (play_iter_placed g ls ls' false Hbreak)
    as (agent & a & column & result & Hanswer & Hcheck & Hplace & _).
  exists agent, a. split; [done|].
  assert (1 ≤ column ≤ _n_columns (state ls))%Z as Hcolumn.
  { rewrite HC. destruct (check_action_spec (_board_size g).2 a)
      as [[_ (e & _ & He)]|[_ (c & _ & Hc & Hok)]]; [congruence|].
    rewrite Hcheck in Hok. by injection Hok as ->. }
  assert (reachable (token <$> _agents g) (_board_size g) (state ls')) as Hreach'
    by by eapply reachable_place.
  destruct (reachable_invariant _ _ _ Hreach') as (Hwf' & _ & Hids' & _ & _ & Hmap').
  destruct (check_for_outcome_cases (state ls') Hwf' Hids')
    as (res' & w & Houtcome' & _ & Hwin & _).
  rewrite Houtcome in Houtcome'. injection Houtcome' as <- <-.
  destruct (Hwin eq_refl) as (line & id' & tok & Hin & Hfour & -> & Hfwd).
  destruct (place_token_cases (state ls) column (token agent) Hwf Hg Hcolumn)
    as [[_ Hraise]|(row & _ & _ & _ & _ & Hplace')]; [congruence|].
  rewrite Hplace in Hplace'.
  destruct (fwd (_token_map (state ls)) !! token agent) as [id|] eqn:Hid; [|done].
  injection Hplace' as Hstate. rewrite Hstate in Hin.
  destruct (four_after_placement _ _ _ _ _ Hwf Hin Hfour) as [->|Hold].
  - f_equal. rewrite Hmap' in Hfwd. rewrite Hmap in Hid.
    simpl in Hfwd, Hid. by eapply token_dict_inj.
  - destruct (iterations_no_four g order t ls Hit). by exists line, id'.
Qed.

End winner_facts.

(** ** The order of the turns *)

Section turn_order_facts.
Context {Token : Type} `{Countable Token}.
Implicit Types (g : Game Token) (ls : loop_state Token).

(** CLAIM C9: the order handed to [itertools.cycle] at the start of [play] is
    the one the iterator replays at every later turn; at turn [t] (from 0) of
    a game with [k] agents the agent asked is the one at position [t mod k]
    of that order, so the agent at position [i] is asked at the turns
    [i, i + k, i + 2k, ...], and, when the agents of the order are distinct,
    at no other turn. The iteration of the loop at turn [t] is the turn of
    that agent: when it does not raise, it has checked the answer of that
    agent to the view of the state, placed the token of that agent in the
    column answered, and written that token and that answer into the record
    as entry [t]; when it raises, the error comes from the view, from the
    checks on that answer, from placing that token, or from the outcome
    check after it. *)
Theorem play_turn_order g (order : list (Agent Token)) (t : nat) ls :
  order ≠ [] →
  iterations g t (play_init g order) = Some ls →
  ∃ agent it,
    cycle_next (agents_iter ls) = Some (agent, it)
    ∧ calls ls = t
    ∧ (∃ q r, cycle_at order q r (agents_iter ls) ∧ q * length order + r = t)
    ∧ order !! (t mod length order) = Some agent
    ∧ (∀ view, expose_view (state ls) = Ok view →
         answer ls = Some (agent, select_action agent t view))
    ∧ (∀ i j, i < length order → t = i + j * length order → order !! i = Some agent)
    ∧ (NoDup (agent_id <$> order) →
       ∀ i agent', order !! i = Some agent' → agent_id agent' = agent_id agent →
         ∃ j, t = i + j * length order)
    ∧ length (record (outcome ls)) = t
    ∧ (∀ ls' (goes_on : bool),
         play_iter g ls = (if goes_on then Continue ls' else Break ls') →
         ∃ view column,
           expose_view (state ls) = Ok view
           ∧ check_action (_board_size g).2 (select_action agent t view) = Ok column
           ∧ place_token column (token agent) (state ls) = (Ok (), state ls')
           ∧ record (outcome ls')
             = record (outcome ls) ++ [(token agent, select_action agent t view)]
           ∧ record (outcome ls') !! t = Some (token agent, select_action agent t view)
           ∧ agents_iter ls' = it ∧ calls ls' = S t)
    ∧ (∀ e ls', play_iter g ls = Raised e ls' →
         expose_view (state ls) = Raise e
         ∨ ∃ view, expose_view (state ls) = Ok view
             ∧ (check_action (_board_size g).2 (select_action agent t view) = Raise e
                ∨ ∃ column,
                    check_action (_board_size g).2 (select_action agent t view) = Ok column
                    ∧ ((place_token column (token agent) (state ls)).1 = Raise e
                       ∨ ∃ st, place_token column (token agent) (state ls) = (Ok (), st)
                           ∧ check_for_outcome st = Raise e))).
Proof.
  intros Hne Hit.
  destruct (iterations_cycle g order t _ ls 0 0 Hne Hit (cycle_at_start order))
    as (q & r & Hat & Hqr & Hcalls).
  destruct (cycle_at_next order q r _ Hne Hat) as (agent & it & _ & _ & Hnext & Hpos & _).
  replace (q * length order + r) with t in Hpos by lia.
  assert (calls ls = t) as Hcalls' by (simpl in Hcalls; lia).
  assert (0 < length order) as Hk by (destruct order; [done|simpl; lia]).
  assert (length (record (outcome ls)) = t) as Hlen.
  { destruct (iterations_record g t _ ls Hit) as (trace & Hrecord & Htrace & _).
    rewrite Hrecord. simpl. done. }
  exists agent, it. split; [done|]. split; [done|].
  split; [exists q, r; split; [done|lia]|]. split; [done|].
  split; [|split; [|split; [|split; [done|split]]]].
  - intros view Hview. unfold answer. by rewrite Hnext, Hview, Hcalls'.
  - intros i j Hi ->. rewrite <- Hpos. f_equal.
    apply (Nat.mod_unique _ _ j); lia.
  - intros Hnd i agent' Hi Hid.
    assert (i = t mod length order) as ->.
    { eapply NoDup_lookup; [exact Hnd| |].
      - rewrite list_lookup_fmap, Hi. done.
      - rewrite list_lookup_fmap, Hpos. simpl. by f_equal. }
    exists (t / length order). rewrite (Nat.div_mod_eq t (length order)) at 1. lia.
  - intros ls' goes_on Hiter. unfold play_iter in Hiter. rewrite Hnext, Hcalls' in Hiter.
    destruct (expose_view (state ls)) as [view|] eqn:Hview; [|by destruct goes_on].
    cbn zeta in Hiter. set (a := select_action agent t view) in *.
    destruct (check_action (_board_size g).2 a) as [column|] eqn:Hcheck;
      [|by destruct goes_on].
    cbn [state outcome calls] in Hiter.
    destruct (place_token column (token agent) (state ls)) as [[[]|] st] eqn:Hplace;
      [|by destruct goes_on].
    destruct (check_for_outcome st) as [result|] eqn:Houtcome; [|by destruct goes_on].
    exists view, column. split; [done|]. split; [done|].
    assert (state ls' = st ∧ agents_iter ls' = it ∧ calls ls' = S t
            ∧ record (outcome ls') = record (outcome ls) ++ [(token agent, a)])
      as (-> & -> & -> & Hrecord).
    { destruct (finalize _ result) as [o'|] eqn:Hfin; destruct goes_on; try done;
        injection Hiter as <-; simpl; [|done].
      by destruct (finalize_finalized _ _ _ Hfin) as (_ & -> & _). }
    split; [done|]. split; [done|]. split; [|done].
    rewrite Hrecord, lookup_app_r by lia. by rewrite Hlen, Nat.sub_diag.
  - intros e ls' Hiter. unfold play_iter in Hiter. rewrite Hnext, Hcalls' in Hiter.
    destruct (expose_view (state ls)) as [view|e'] eqn:Hview;
      [|left; by injection Hiter as -> _].
    right. exists view. split; [done|].
    cbn zeta in Hiter. set (a := select_action agent t view) in *.
    destruct (check_action (_board_size g).2 a) as [column|e'] eqn:Hcheck;
      [|left; by injection Hiter as -> _].
    right. exists column. split; [done|].
    cbn [state outcome calls] in Hiter.
    destruct (place_token column (token agent) (state ls)) as [[[]|e'] st] eqn:Hplace;
      [|left; by injection Hiter as -> _].
    right. exists st. split; [done|].
    destruct (check_for_outcome st) as [result|e'] eqn:Houtcome;
      [|by injection Hiter as -> _].
    by destruct (finalize _ result).
Qed.

End turn_order_facts.

Lemma play_turn_order_witness :
  [agent_X; agent_O] ≠ []
  ∧ ∃ ls ls', iterations game_6x7 5 (play_init game_6x7 [agent_X; agent_O]) = Some ls
      ∧ play_iter game_6x7 ls = Continue ls'
      ∧ ∃ agent it view, cycle_next (agents_iter ls) = Some (agent, it)
          ∧ calls ls = 5
          ∧ [agent_X; agent_O] !! (5 mod 2) = Some agent
          ∧ expose_view (state ls) = Ok view
          ∧ record (outcome ls') !! 5 = Some (token agent, select_action agent 5 view).
Proof.
  assert ([agent_X; agent_O] ≠ []) as Hne by discriminate.
  destruct (option_run (iterations game_6x7 6 (play_init game_6x7 [agent_X; agent_O])))
    as [ls' Hit']; [vm_compute; reflexivity|].
  destruct (iterations_last game_6x7 5 _ ls' Hit') as (ls & Hit & Hiter).
  split; [exact Hne|]. exists ls, ls'. split; [exact Hit|]. split; [exact Hiter|].
  destruct (play_turn_order game_6x7 [agent_X; agent_O] 5 ls Hne Hit)
    as (agent & it & Hnext & Hcalls & _ & Hpos & _ & _ & _ & _ & Hturn & _).
  destruct (Hturn ls' true Hiter) as (view & column & Hview & _ & _ & _ & Hrecord & _).
  exists agent, it, view. split; [exact Hnext|]. split; [exact Hcalls|].
  split; [exact Hpos|]. split; [exact Hview|exact Hrecord].
Defined.

Section result_facts.
Context {Token : Type} `{Countable Token}.
Implicit Types (g : Game Token) (ls : loop_state Token) (s : State Token).

Lemma dict_set_fresh (d : list (Agent Token * option Outcomes)) (a : Agent Token)
    (v : option Outcomes) :
  Forall (λ p, agent_id p.1 ≠ agent_id a) d → dict_set d a v = d ++ [(a, v)].
Proof.
  induction 1 as [|[a' v'] d Hne _ IH]; [done|]. simpl in *.
  rewrite decide_False by done. by rewrite IH.
Qed.

Lemma Outcome_init_foldl (agents : list (Agent Token))
    (d : list (Agent Token * option Outcomes)) :
  NoDup ((agent_id <$> d.*1) ++ (agent_id <$> agents)) →
  foldl (λ d a, dict_set d a None) d agents = d ++ ((λ a, (a, None)) <$> agents).
Proof.
  revert d. induction agents as [|a agents IH]; intros d Hnd; simpl.
  - by rewrite app_nil_r.
  - assert (Forall (λ p, agent_id p.1 ≠ agent_id a) d) as Hfresh.
    { apply Forall_forall. intros p Hp Heq.
      apply NoDup_app in Hnd as (_ & Hdisj & _). apply (Hdisj (agent_id a)).
      - rewrite <- Heq. apply list_elem_of_fmap_2. by apply list_elem_of_fmap_2.
      - by left. }
    rewrite dict_set_fresh by done. rewrite IH.
    + by rewrite <- app_assoc.
    + rewrite fmap_app, fmap_app. simpl. rewrite <- app_assoc. simpl.
      apply NoDup_app in Hnd as (Hd & Hdisj & Ha).
      apply NoDup_cons in Ha as [Hnotin Hagents].
      apply NoDup_app. split; [done|]. split; [|by constructor].
      intros x Hx. apply Hdisj in Hx. done.
Qed.

(** PROPERTY X10 ([Outcome.__init__]): for agents that are distinct objects the
    results start as one entry per agent, in the order of the list, none of
    them set, and the record starts empty. *)
Theorem Outcome_init_distinct (agents : list (Agent Token)) :
  NoDup (agent_id <$> agents) →
  agent_outcomes (Outcome_init agents) = (λ a, (a, None)) <$> agents
  ∧ record (Outcome_init agents) = [].
Proof.
  intros Hnd. split; [|done]. unfold Outcome_init. simpl.
  by rewrite Outcome_init_foldl.
Qed.

(** Agents of a list whose tokens pairwise differ are told apart by their
    tokens. *)
Lemma token_holder_unique (agents : list (Agent Token)) (a b : Agent Token) :
  NoDup (token <$> agents) → a ∈ agents → b ∈ agents → token a = token b → a = b.
Proof.
  intros Hnd Ha Hb Htok.
  apply list_elem_of_lookup in Ha as [i Hi]. apply list_elem_of_lookup in Hb as [j Hj].
  assert (i = j) as ->; [|congruence].
  eapply NoDup_lookup; [exact Hnd| |].
  - by rewrite list_lookup_fmap, Hi.
  - rewrite list_lookup_fmap, Hj. simpl. by rewrite Htok.
Qed.

(** PROPERTY X11 ([Game.play]): when a game of distinct agents whose tokens
    pairwise differ has ended, the results list every agent of the game
    once, in the order of the list the game was built with: after a win an
    agent has WIN exactly when it holds the winning token and LOSE otherwise,
    and no two agents have WIN; after a draw every agent has DRAW. *)
Theorem play_results g (order : list (Agent Token)) (fuel : nat) (r : play_result Token) :
  NoDup (agent_id <$> _agents g) →
  NoDup (token <$> _agents g) →
  play g order fuel = Some (Ok r) →
  ∃ result winning_token,
    check_for_outcome (state (final r)) = Ok (result, winning_token)
    ∧ ((result = Some WIN
        ∧ agent_outcomes (outcome (final r))
          = (λ a, (a, Some (if decide (Some (token a) = winning_token)
                            then WIN else LOSE))) <$> _agents g
        ∧ ∀ a b, (a, Some WIN) ∈ agent_outcomes (outcome (final r)) →
                 (b, Some WIN) ∈ agent_outcomes (outcome (final r)) → a = b)
       ∨ (result = Some DRAW
          ∧ agent_outcomes (outcome (final r))
            = (λ a, (a, Some DRAW)) <$> _agents g)).
Proof.
  intros Hnd Htokens Hplay. apply play_returned in Hplay as (_ & _ & Hloop).
  destruct (play_loop_Break g fuel _ _ Hloop) as (t & ls & Ht & Hit & Hbreak).
  destruct (iterations_record g t _ ls Hit) as (trace & _ & _ & Hagents & _).
  simpl in Hagents. rewrite Outcome_init_foldl in Hagents by done. simpl in Hagents.
  destruct (play_iter_placed g ls (final r) false Hbreak)
    as (agent & a & column & [result w] & _ & _ & _ & Houtcome & Hfin & _).
  exists result, w. split; [done|].
  unfold finalize in Hfin. simpl in Hfin. rewrite Hagents in Hfin.
  destruct result as [[| |]|]; try done; injection Hfin as <-; simpl;
    rewrite <- list_fmap_compose; [left|right]; [|done].
  split; [done|]. split; [done|].
  assert (∀ x, (x, Some WIN)
               ∈ ((λ '(agent0, _), (agent0, Some (if decide (Some (token agent0) = w)
                                                  then WIN else LOSE)))
                    ∘ (λ a0 : Agent Token, (a0, @None Outcomes))) <$> _agents g →
            x ∈ _agents g ∧ Some (token x) = w) as Hwinner.
  { intros x Hx. apply list_elem_of_fmap in Hx as (y & Hxy & Hy). simpl in Hxy.
    destruct (decide (Some (token y) = w)) as [Hw|]; [|done].
    injection Hxy as ->. done. }
  intros x y Hx Hy. destruct (Hwinner x Hx) as [Hxin Hxw].
  destruct (Hwinner y Hy) as [Hyin Hyw].
  apply (token_holder_unique (_agents g)); [done..|]. congruence.
Qed.

End result_facts.

Lemma length_family {A : Type} (rows columns : list Z) (f : Z → Z → A) :
  length (row ← rows; column ← columns; [f row column])
  = length rows * length columns.
Proof.
  assert (∀ row, length (column ← columns; [f row column]) = length columns) as Hrow.
  { intros row. induction columns as [|column columns IHc]; [done|].
    csimpl. by rewrite IHc. }
  induction rows as [|row rows IH]; [done|].
  csimpl. rewrite length_app, IH, Hrow. lia.
Qed.

(** PROPERTY X12 ([State._generate_lines]): the number of lines yielded:
    rows * (columns - 3) horizontal, (rows - 3) * columns vertical and
    (rows - 3) * (columns - 3) along each diagonal, a factor below zero
    counting as zero; 69 on the board of 6 x 7. *)
Theorem generate_lines_count {Token : Type} `{Countable Token} (s : State Token) :
  length (_generate_lines s)
  = Z.to_nat (_n_rows s) * Z.to_nat (_n_columns s - 3)
    + Z.to_nat (_n_rows s - 3) * Z.to_nat (_n_columns s)
    + 2 * (Z.to_nat (_n_rows s - 3) * Z.to_nat (_n_columns s - 3)).
Proof.
  unfold _generate_lines, line_slices, range, range2.
  rewrite length_fmap, !length_app, !length_family, !length_seqZ. lia.
Qed.

Section token_facts.
Context {Token : Type} `{Countable Token}.
Implicit Types s : State Token.

(** PROPERTY X13 ([State.__init__]): for pairwise distinct tokens the token map
    is the bijection between the tokens and their positions in the list:
    the id of a token is its index, and the token of an id is the token at
    that index. *)
Theorem token_map_distinct (external_tokens : list Token) (size : Z * Z)
    (i : nat) (tok : Token) :
  NoDup external_tokens →
  let m := _token_map (State_init external_tokens size) in
  (fwd m !! tok = Some (Z.of_nat i) ↔ external_tokens !! i = Some tok)
  ∧ (inverse m !! Z.of_nat i = Some tok ↔ external_tokens !! i = Some tok).
Proof.
  intros Hnd m.
  assert (fwd m !! tok = Some (Z.of_nat i) ↔ external_tokens !! i = Some tok) as Hfwd.
  { split.
    - intros Hl. simpl in Hl.
      apply dict_of_pairs_lookup_Some, token_pairs_lookup in Hl as [_ Hl].
      by rewrite Nat2Z.id in Hl.
    - intros Hi.
      destruct (token_map_fwd_is_Some external_tokens size tok) as [id Hid].
      { by eapply list_elem_of_lookup_2. }
      fold m in Hid. rewrite Hid. f_equal.
      pose proof Hid as Hid'. simpl in Hid'.
      apply dict_of_pairs_lookup_Some, token_pairs_lookup in Hid' as [Hpos Hl].
      pose proof (NoDup_lookup _ _ _ _ Hnd Hl Hi). lia. }
  split; [done|]. subst m. by rewrite token_map_inverse.
Qed.

(** PROPERTY X14 ([State.place_token], [State.expose_view]): after a placement
    the view shows the token that was placed in the cell it landed in, and
    every other cell as the view showed it before. *)
Theorem place_then_view (external_tokens : list Token) (size : Z * Z) s
    (column : Z) (tok : Token) :
  reachable external_tokens size s →
  (1 ≤ column ≤ _n_columns s)%Z →
  tok ∈ external_tokens →
  open_column s column →
  ∃ row s' v v',
    place_token column tok s = (Ok (), s')
    ∧ expose_view s = Ok v ∧ expose_view s' = Ok v'
    ∧ (0 ≤ row < _n_rows s)%Z
    ∧ board v !! Z.to_nat (row * _n_columns s + column - 1) = Some None
    ∧ board v' !! Z.to_nat (row * _n_columns s + column - 1) = Some (Some tok)
    ∧ ∀ j, j ≠ Z.to_nat (row * _n_columns s + column - 1) →
        board v' !! j = board v !! j.
Proof.
  intros Hreach Hc Htok Hopen.
  destruct (reachable_invariant _ _ _ Hreach) as (Hwf & Hg & Hids & _ & _ & Hmap).
  destruct (token_map_fwd_is_Some external_tokens size tok Htok) as [id Hid].
  rewrite <- Hmap in Hid.
  destruct (place_token_lands s column tok id Hwf Hg Hc Hid Hopen)
    as (row & s' & Hplace & Hs' & Hrow & Hempty & _ & _ & _ & _).
  assert (reachable external_tokens size s') as Hreach' by by eapply reachable_place.
  destruct (expose_view_reachable _ _ _ Hreach) as (v & Hv & _ & Hlen & Hcells).
  destruct (expose_view_reachable _ _ _ Hreach') as (v' & Hv' & _ & Hlen' & Hcells').
  rewrite cell_lookup in Hempty by done.
  set (i := Z.to_nat (row * _n_columns s + column - 1)) in *.
  assert (i < length (_board s)) as Hi by (by eapply lookup_lt_Some).
  assert (_board s' = <[i:=Some id]> (_board s)) as Hboard by by rewrite Hs'.
  assert (_token_map s' = _token_map s) as Hmap' by by rewrite Hs'.
  assert (∀ (u : StateView Token) (st : State Token) j c,
    (∀ i c, board u !! i = Some c →
       c = None ∧ _board st !! i = Some None
       ∨ (∃ tok id, c = Some tok ∧ tok ∈ external_tokens
            ∧ _board st !! i = Some (Some id) ∧ fwd (_token_map st) !! tok = Some id)) →
    _token_map st = _token_map (State_init external_tokens size) →
    length (board u) = length (_board st) →
    _board st !! j = Some c →
    board u !! j = Some (c ≫= λ id, inverse (_token_map st) !! id)) as Hshow.
  { intros u st j c Hu Hm Hl Hj.
    destruct (lookup_lt_is_Some_2 (board u) j) as [c' Hc'].
    { rewrite Hl. by eapply lookup_lt_Some. }
    rewrite Hc'. f_equal.
    destruct (Hu j c' Hc') as [[-> Hnone]|(tok' & id' & -> & _ & Hsome & Hfwd)].
    - rewrite Hj in Hnone. by injection Hnone as ->.
    - rewrite Hj in Hsome. injection Hsome as ->. simpl. symmetry.
      rewrite Hm. apply token_map_inverse. by rewrite <- Hm. }
  exists row, s', v, v'. fold i. do 4 (split; [done|]). split; [|split].
  - by rewrite (Hshow v s i None Hcells Hmap Hlen Hempty).
  - rewrite (Hshow v' s' i (Some id) Hcells'); [..|done|].
    + simpl. f_equal. rewrite Hmap', Hmap. apply token_map_inverse. by rewrite <- Hmap.
    + by rewrite Hmap'.
    + rewrite Hboard. by apply list_lookup_insert_eq.
  - intros j Hj. destruct (_board s !! j) as [c|] eqn:Hcj.
    + rewrite (Hshow v s j c Hcells Hmap Hlen Hcj).
      rewrite (Hshow v' s' j c Hcells'); [by rewrite Hmap'|by rewrite Hmap'|done|].
      rewrite Hboard. by rewrite list_lookup_insert_ne.
    + apply lookup_ge_None in Hcj.
      rewrite !(proj2 (lookup_ge_None _ _)); [done|lia|].
      rewrite Hlen', Hboard, length_insert. lia.
Qed.

End token_facts.

Lemma py_getitem_replicate {A : Type} (n : nat) (x : A) (i : Z) :
  (- Z.of_nat n ≤ i < Z.of_nat n)%Z → py_getitem (replicate n x) i = Some x.
Proof.
  intros Hi. unfold py_getitem, py_index. rewrite length_replicate.
  destruct (decide (0 ≤ i < Z.of_nat n)%Z).
  - simpl. apply lookup_replicate_2. lia.
  - rewrite decide_True by lia. simpl. apply lookup_replicate_2. lia.
Qed.

(** The loop of [place_token] on rows that are all empty, followed by a row
    outside the board. *)
Lemma scan_column_past_end (b : list (option Z)) (n_columns column : Z) (n : nat) (k : Z)
    (lowest : option Z) :
  (∀ row, (k ≤ row < k + Z.of_nat n)%Z →
     py_getitem b (row * n_columns + column - 1) = Some None) →
  py_getitem b ((k + Z.of_nat n) * n_columns + column - 1) = None →
  scan_column b n_columns column (seqZ k (Z.of_nat (S n))) lowest = Raise IndexError.
Proof.
  revert k lowest. induction n as [|n IH]; intros k lowest Hempty Hout.
  - rewrite seqZ_cons by lia. simpl.
    replace (k + Z.of_nat 0)%Z with k in Hout by lia. by rewrite Hout.
  - rewrite seqZ_cons by lia. simpl. rewrite Hempty by lia.
    replace (Z.pred (Z.of_nat (S (S n)))) with (Z.of_nat (S n)) by lia.
    apply IH.
    + intros row Hrow. apply Hempty. lia.
    + by replace (Z.succ k + Z.of_nat n)%Z with (k + Z.of_nat (S n))%Z by lia.
Qed.

Section bounds_facts.
Context {Token : Type} `{Countable Token}.
Implicit Types s : State Token.

(** PROPERTY X15 ([State.place_token]): the column is not checked by
    [place_token] itself. Column 0 on a fresh board of two rows or more is
    read through Python's negative index: the call succeeds and the token
    lands in the last column, one row above the bottom row, with the empty
    bottom cell under it. *)
Theorem place_token_column_zero (external_tokens : list Token) (n_rows n_columns : Z)
    (tok : Token) :
  (2 ≤ n_rows)%Z → (1 ≤ n_columns)%Z → tok ∈ external_tokens →
  ∃ id s',
    place_token 0 tok (State_init external_tokens (n_rows, n_columns)) = (Ok (), s')
    ∧ fwd (_token_map s') !! tok = Some id
    ∧ cell s' (n_rows - 2) n_columns = Some (Some id)
    ∧ cell s' (n_rows - 1) n_columns = Some None
    ∧ ¬ gravity s'.
Proof.
  intros HR HC Htok. set (s := State_init external_tokens (n_rows, n_columns)).
  destruct (token_map_fwd_is_Some external_tokens (n_rows, n_columns) tok Htok)
    as [id Hid].
  assert (board_wf s) as Hwf by (unfold board_wf; simpl; by rewrite length_replicate).
  assert (∀ i, (- (n_rows * n_columns) ≤ i < n_rows * n_columns)%Z →
            py_getitem (_board s) i = Some None) as Hnone.
  { intros i Hi. simpl. apply py_getitem_replicate. nia. }
  destruct (scan_column_spec (_board s) n_columns 0 (Z.to_nat n_rows) 0 None)
    as (j & Hj & _ & Hocc & Hscan).
  { intros row Hrow. rewrite Hnone by nia. by eexists. }
  assert (j = n_rows) as ->.
  { destruct (decide (j < 0 + Z.of_nat (Z.to_nat n_rows))%Z) as [Hlt|]; [|lia].
    destruct (Hocc Hlt) as [id' Hid']. rewrite Hnone in Hid' by nia. done. }
  rewrite Z2Nat.id in Hscan by lia. rewrite decide_False in Hscan by lia.
  set (i := Z.to_nat ((n_rows - 2) * n_columns + n_columns - 1)).
  assert (place_token 0 tok s = (Ok (), set_board s (<[i:=Some id]> (_board s))))
    as Hplace.
  { unfold place_token. change (_n_rows s) with n_rows.
    change (_n_columns s) with n_columns. unfold range. rewrite Hscan.
    change (_token_map s) with (_token_map (State_init external_tokens (n_rows, n_columns))).
    rewrite Hid. rewrite py_setitem_nonneg.
    - do 3 f_equal. subst i. f_equal. lia.
    - simpl. rewrite length_replicate. nia. }
  assert (∀ r c, (0 ≤ r < n_rows)%Z → (1 ≤ c ≤ n_columns)%Z →
    cell (set_board s (<[i:=Some id]> (_board s))) r c
    = if decide (r = (n_rows - 2)%Z ∧ c = n_columns) then Some (Some id) else cell s r c)
    as Hcell.
  { intros r c Hr Hc. apply (cell_set_board s (n_rows - 2) n_columns r c (Some id));
      simpl; (done || lia). }
  assert (cell s (n_rows - 1) n_columns = Some None) as Hbottom.
  { unfold cell. apply Hnone. simpl. nia. }
  eexists id, _. split; [exact Hplace|]. split; [done|].
  split; [rewrite Hcell by lia; by rewrite decide_True|].
  split; [rewrite Hcell by lia; by rewrite decide_False by lia|].
  intros Hg. destruct (Hg (n_rows - 2)%Z n_columns id) as [id' Hid']; simpl; [lia..| |].
  - rewrite Hcell by lia. by rewrite decide_True.
  - replace (n_rows - 2 + 1)%Z with (n_rows - 1)%Z in Hid' by lia.
    rewrite Hcell in Hid' by lia. rewrite decide_False in Hid' by lia. congruence.
Qed.

(** PROPERTY X16 ([State.place_token]): the column just past the last one, on
    a fresh board, runs the scan off the end of the board: the call raises
    [IndexError], not [ActionError], and places nothing. *)
Theorem place_token_column_past_end (external_tokens : list Token)
    (n_rows n_columns : Z) (tok : Token) :
  (1 ≤ n_rows)%Z → (1 ≤ n_columns)%Z →
  place_token (n_columns + 1) tok (State_init external_tokens (n_rows, n_columns))
  = (Raise IndexError, State_init external_tokens (n_rows, n_columns)).
Proof.
  intros HR HC. set (s := State_init external_tokens (n_rows, n_columns)).
  unfold place_token. change (_n_rows s) with n_rows.
  change (_n_columns s) with n_columns. unfold range.
  replace n_rows with (Z.of_nat (S (Z.to_nat (n_rows - 1)))) at 1 by lia.
  rewrite scan_column_past_end; [done| |].
  - intros row Hrow. simpl. apply py_getitem_replicate. nia.
  - unfold py_getitem, py_index. simpl. rewrite length_replicate.
    rewrite !decide_False by nia. done.
Qed.

End bounds_facts.

(** ** The random agent *)

Lemma py_slice_prefix {A : Type} (l : list A) (n : Z) :
  (0 ≤ n)%Z → py_slice l 0 n 1 = take (Z.to_nat n) l.
Proof.
  intros Hn. unfold py_slice, slice_indices, slice_bound.
  rewrite !decide_False by lia.
  replace (Z.min 0 (Z.of_nat (length l))) with 0%Z by lia.
  set (hi := Z.min n (Z.of_nat (length l))).
  replace ((hi - 0 + 1 - 1) / 1)%Z with (Z.of_nat (Z.to_nat hi))
    by (rewrite Z.div_1_r; lia).
  replace (take (Z.to_nat n) l) with (take (Z.to_nat hi) l).
  2:{ destruct (decide (n ≤ Z.of_nat (length l))%Z).
      - f_equal. lia.
      - rewrite !take_ge; [done|lia..]. }
  assert (Z.to_nat hi ≤ length l) as Hle by lia.
  unfold range. induction (Z.to_nat hi) as [|m IH]; [done|].
  rewrite seqZ_S, fmap_app, omap_app, IH by lia. csimpl.
  destruct (lookup_lt_is_Some_2 l m ltac:(lia)) as [x Hx].
  replace (Z.to_nat (0 + (0 + Z.of_nat m) * 1)) with m by lia.
  rewrite Hx. by rewrite (take_S_r _ _ _ Hx).
Qed.

Section random_agent_facts.
Context {Token : Type} `{Countable Token}.
Implicit Types (v : StateView Token).

Lemma open_columns_spec v (column : Z) :
  column ∈ RandomAgent.open_columns v ↔
  (1 ≤ column ≤ (board_size v).2)%Z ∧ board v !! Z.to_nat (column - 1) = Some None.
Proof.
  unfold RandomAgent.open_columns. rewrite list_elem_of_omap.
  destruct (decide (0 ≤ (board_size v).2)%Z) as [Hpos|Hneg].
  2:{ unfold range. rewrite seqZ_nil by lia. simpl. split; [|lia].
      intros (x & Hx & _). by apply elem_of_nil in Hx. }
  rewrite py_slice_prefix by done. split.
  - intros ([index tok] & Hin & Hcol). destruct tok as [|]; [done|].
    injection Hcol as <-. apply list_elem_of_lookup in Hin as [i Hi].
    apply lookup_zip_with_Some in Hi as (x & y & [= <- <-] & Hx & Hy).
    apply lookup_seqZ in Hx as [-> Hlt]. apply lookup_take_Some in Hy as [Hy _].
    split; [lia|]. by replace (Z.to_nat (0 + Z.of_nat i + 1 - 1)) with i by lia.
  - intros [Hcol Hnone]. exists ((column - 1)%Z, None). split; [|f_equal; lia].
    apply list_elem_of_lookup. exists (Z.to_nat (column - 1)).
    apply lookup_zip_with_Some. exists (column - 1)%Z, None. split; [done|]. split.
    + apply lookup_seqZ. lia.
    + apply lookup_take_Some. split; [done|lia].
Qed.

Lemma RandomAgent_select_action_cases (pick : nat) v :
  (∀ a, RandomAgent.select_action pick v = Ok a →
     action a = VActions PLACE
     ∧ ∃ column, place_column a = VInt column
         ∧ (1 ≤ column ≤ (board_size v).2)%Z
         ∧ board v !! Z.to_nat (column - 1) = Some None)
  ∧ ((∃ column, (1 ≤ column ≤ (board_size v).2)%Z
        ∧ board v !! Z.to_nat (column - 1) = Some None) →
     ∃ a, RandomAgent.select_action pick v = Ok a)
  ∧ ((¬ ∃ column, (1 ≤ column ≤ (board_size v).2)%Z
        ∧ board v !! Z.to_nat (column - 1) = Some None) →
     RandomAgent.select_action pick v = Raise IndexError).
Proof.
  unfold RandomAgent.select_action, random_choice.
  set (l := RandomAgent.open_columns v). split; [|split].
  - intros a. destruct (l !! (pick mod length l)) as [column|] eqn:Hl; [|done].
    simpl. intros [= <-]. split; [done|]. exists column. split; [done|].
    apply open_columns_spec. by eapply list_elem_of_lookup_2.
  - intros (column & Hcolumn). apply open_columns_spec in Hcolumn. fold l in Hcolumn.
    destruct (lookup_lt_is_Some_2 l (pick mod length l)) as [c Hc].
    { apply Nat.mod_upper_bound. destruct l; [by apply elem_of_nil in Hcolumn|done]. }
    rewrite Hc. by eexists.
  - intros Hnone. destruct (l !! (pick mod length l)) as [column|] eqn:Hl; [|done].
    destruct Hnone. exists column. apply open_columns_spec.
    by eapply list_elem_of_lookup_2.
Qed.

(** PROPERTY X17 ([RandomAgent.select_action]): the random agent answers PLACE
    on a column of the view whose top cell is empty, whatever the draw; it
    can answer whenever the first row of the view has an empty cell, and
    raises [IndexError] when it has none. *)
Theorem RandomAgent_select_action_spec (pick : nat) v :
  (∀ a, RandomAgent.select_action pick v = Ok a →
     action a = VActions PLACE
     ∧ ∃ column, place_column a = VInt column
         ∧ (1 ≤ column ≤ (board_size v).2)%Z
         ∧ board v !! Z.to_nat (column - 1) = Some None)
  ∧ ((∃ column, (1 ≤ column ≤ (board_size v).2)%Z
        ∧ board v !! Z.to_nat (column - 1) = Some None) →
     ∃ a, RandomAgent.select_action pick v = Ok a)
  ∧ ((¬ ∃ column, (1 ≤ column ≤ (board_size v).2)%Z
        ∧ board v !! Z.to_nat (column - 1) = Some None) →
     RandomAgent.select_action pick v = Raise IndexError).
Proof. apply RandomAgent_select_action_cases. Qed.

End random_agent_facts.

Section random_game_facts.
Context {Token : Type} `{Countable Token}.
Implicit Types (g : Game Token) (ls : loop_state Token) (s : State Token).





End random_game_facts.


(** ** connect4.py *)

Lemma line_test_cells {A : Type} `{EqDecision A} (c0 c1 c2 c3 : option A) :
  c0 ≠ None ∧ len_set [c0; c1; c2; c3] = 1
  ↔ ∃ x, four_cells [c0; c1; c2; c3] x.
Proof.
  rewrite len_set_one. unfold four_cells. split.
  - intros [Hc0 (x & Hx & Hall)].
    rewrite (Hall c0), (Hall c1), (Hall c2), (Hall c3) in *
      by (repeat first [by left|right]).
    destruct x as [x|]; [by exists x|done].
  - intros (x & [= -> -> -> ->]). split; [done|]. exists (Some x).
    split; [by left|]. intros y Hy.
    repeat (apply elem_of_cons in Hy as [->|Hy]; [done|]). by apply elem_of_nil in Hy.
Qed.

(** The lines sliced out of any flat board of rows times columns cells have
    four cells each. *)
Lemma board_lines_cells {A : Type} (b : list A) (n_rows n_columns : Z) (line : list A) :
  length b = Z.to_nat n_rows * Z.to_nat n_columns →
  line ∈ (λ '(start, stop, step), py_slice b start stop step)
           <$> line_slices n_rows n_columns →
  length line = 4.
Proof.
  intros Hwf Hin.
  apply list_elem_of_fmap in Hin as ([[start stop] step] & -> & Hslice).
  assert (slice_indices (length b) start stop step
          ∈ generated_cells (length b) n_rows n_columns) as Hcells.
  { unfold generated_cells. apply list_elem_of_fmap.
    by exists (start, stop, step). }
  rewrite Hwf in Hcells.
  apply generated_cells_exact in Hcells as (row & column & d & Hfits & Hcells).
  unfold py_slice. rewrite Hwf, Hcells.
  rewrite omap_lookup_length; [by rewrite run_positions|].
  apply Forall_fmap. eapply Forall_impl; [exact Hfits|].
  intros c Hc. simpl. rewrite Hwf. by apply on_board_position.
Qed.

Section legacy_facts.
Context {Token : Type} `{Countable Token}.
Implicit Types s : Legacy.State Token.

Lemma legacy_scan_lines_spec (m : bidict Token Ascii.ascii)
    (lines : list (list (option Ascii.ascii))) :
  Forall (λ line, length line = 4) lines →
  (∃ line c, line ∈ lines ∧ four_cells line c
     ∧ Legacy.scan_lines m lines
       = Ok (Some ((λ id, if decide (Some c = Some id) then "Win" else "Loss") <$> fwd m)))
  ∨ ((∀ line c, line ∈ lines → ¬ four_cells line c)
     ∧ Legacy.scan_lines m lines = Ok None).
Proof.
  induction lines as [|line lines IH]; intros Hlen.
  { right. split; [|done]. intros line c Hin. by apply elem_of_nil in Hin. }
  apply list.Forall_cons in Hlen as [Hlen4 Hlen].
  destruct line as [|c0 [|c1 [|c2 [|c3 [|??]]]]]; try done.
  cbn [Legacy.scan_lines].
  destruct (decide (c0 ≠ None ∧ len_set [c0; c1; c2; c3] = 1)) as [Hwin|Hno].
  - left. destruct Hwin as [Hc0 Hset].
    rewrite (bool_decide_eq_true_2 _ Hc0), (bool_decide_eq_true_2 _ Hset). cbn [andb].
    destruct (proj1 (line_test_cells c0 c1 c2 c3) (conj Hc0 Hset)) as [c Hfour].
    exists [c0; c1; c2; c3], c. split; [by left|]. split; [done|].
    by injection Hfour as -> _ _ _.
  - assert (bool_decide (c0 ≠ None) && bool_decide (len_set [c0; c1; c2; c3] = 1) = false)
      as ->.
    { apply andb_false_iff. destruct (decide (c0 ≠ None)).
      - right. apply bool_decide_eq_false_2. tauto.
      - left. by apply bool_decide_eq_false_2. }
    destruct (IH Hlen) as [(line & c & Hin & Hfour & Hscan)|[Hnone Hscan]].
    + left. exists line, c. split; [by right|done].
    + right. split; [|done]. intros line c Hin Hfour.
      apply elem_of_cons in Hin as [->|Hin]; [|by eapply Hnone].
      apply Hno. apply line_test_cells. by exists c.
Qed.

(** PROPERTY X19 ([State.check_for_end] of connect4.py): what the outcome check
    of the predecessor reports on a board of rows times columns cells: a
    draw for every token as soon as no cell is empty, whatever the lines
    hold; otherwise a win for the token of a line of four and a loss for the
    other tokens, when there is such a line; otherwise nothing. *)
Theorem legacy_check_for_end_spec s :
  legacy_board_wf s →
  (None ∉ Legacy.board s →
     Legacy.check_for_end s = Ok (Some ((λ _, "Draw") <$> fwd (Legacy.token_map s))))
  ∧ (None ∈ Legacy.board s →
     (∃ line c, line ∈ Legacy._generate_lines s ∧ four_cells line c) →
     ∃ line c, line ∈ Legacy._generate_lines s ∧ four_cells line c
       ∧ Legacy.check_for_end s
         = Ok (Some ((λ id, if decide (Some c = Some id) then "Win" else "Loss")
                       <$> fwd (Legacy.token_map s))))
  ∧ (None ∈ Legacy.board s →
     (¬ ∃ line c, line ∈ Legacy._generate_lines s ∧ four_cells line c) →
     Legacy.check_for_end s = Ok None).
Proof.
  intros Hwf. unfold Legacy.check_for_end.
  assert (Forall (λ line, length line = 4) (Legacy._generate_lines s)) as Hlen.
  { apply Forall_forall. intros line Hin.
    by apply (board_lines_cells (Legacy.board s) (Legacy.n_rows s) (Legacy.n_columns s)). }
  split; [|split].
  - intros Hfull. by rewrite bool_decide_eq_true_2.
  - intros Hopen Hfour. rewrite bool_decide_eq_false_2 by tauto.
    destruct (legacy_scan_lines_spec (Legacy.token_map s) _ Hlen)
      as [(line & c & Hin & Hline & Hscan)|[Hnone _]]; [by eauto|].
    destruct Hfour as (line & c & Hin & Hline). by destruct (Hnone line c).
  - intros Hopen Hnofour. rewrite bool_decide_eq_false_2 by tauto.
    destruct (legacy_scan_lines_spec (Legacy.token_map s) _ Hlen)
      as [(line & c & Hin & Hline & Hscan)|[_ Hscan]]; [|done].
    destruct Hnofour. by eauto.
Qed.

End legacy_facts.

(** What the loops of [_place_token] and [_remove_token] compute on the rows
    [k, k + n): [j] is the first row found occupied, or [k + n]. *)
Lemma scan_open_spec (b : list (option Ascii.ascii)) (n_columns column : Z) (n : nat)
    (k : Z) (lowest : option Z) :
  (∀ row, (k ≤ row < k + Z.of_nat n)%Z →
     is_Some (py_getitem b (row * n_columns + column - 1))) →
  ∃ j, (k ≤ j ≤ k + Z.of_nat n)%Z
    ∧ (∀ row, (k ≤ row < j)%Z → py_getitem b (row * n_columns + column - 1) = Some None)
    ∧ ((j < k + Z.of_nat n)%Z →
         ∃ c, py_getitem b (j * n_columns + column - 1) = Some (Some c))
    ∧ Legacy.scan_open b n_columns column (seqZ k (Z.of_nat n)) lowest
      = Ok (if decide (j = k) then lowest else Some (j - 1)%Z)
    ∧ Legacy.scan_filled b n_columns column (seqZ k (Z.of_nat n))
      = Ok (if decide (j < k + Z.of_nat n)%Z then Some j else None).
Proof.
  revert k lowest. induction n as [|n IH]; intros k lowest Hsome.
  - exists k. simpl. repeat split; [lia..| |].
    + by rewrite decide_True.
    + by rewrite decide_False by lia.
  - rewrite seqZ_cons by lia. simpl.
    destruct (Hsome k) as [c Hc]; [lia|]. rewrite Hc. destruct c as [c|].
    + exists k. repeat split; [lia..| | |].
      * intros _. by exists c.
      * by rewrite decide_True.
      * by rewrite decide_True by lia.
    + replace (Z.pred (Z.of_nat (S n))) with (Z.of_nat n) by lia.
      destruct (IH (Z.succ k) (Some k)) as (j & Hj & Hempty & Hocc & Hopen & Hfilled).
      { intros row Hrow. apply Hsome. lia. }
      exists j. split; [lia|]. split; [|split; [|split]].
      * intros row Hrow. destruct (decide (row = k)) as [->|]; [done|].
        apply Hempty. lia.
      * intros Hlt. apply Hocc. lia.
      * rewrite Hopen. rewrite (decide_False (P := j = k)) by lia.
        destruct (decide (j = Z.succ k)); [do 2 f_equal; lia|done].
      * rewrite Hfilled.
        destruct (decide (j < Z.succ k + Z.of_nat n)%Z),
          (decide (j < k + Z.of_nat (S n))%Z); (done || lia).
Qed.

Section legacy_action_facts.
Context {Token : Type} `{Countable Token}.
Implicit Types s : Legacy.State Token.

Lemma legacy_cell_is_Some s (row column : Z) :
  legacy_board_wf s → (0 ≤ row < Legacy.n_rows s)%Z →
  (1 ≤ column ≤ Legacy.n_columns s)%Z →
  is_Some (legacy_cell s row column).
Proof.
  intros Hwf Hr Hc. unfold legacy_cell. apply py_getitem_is_Some.
  rewrite Hwf. by apply position_in_board.
Qed.

(** PROPERTY X20 ([State._place_token], [State._remove_token] of connect4.py):
    on a column of the board whose top cell is empty, placing a token and
    then removing from the same column gives back the state as it was: the
    token removed is the one just placed. *)
Theorem legacy_place_then_remove s (column : Z) (tok : Token) :
  legacy_board_wf s →
  (1 ≤ Legacy.n_rows s)%Z → (1 ≤ column ≤ Legacy.n_columns s)%Z →
  is_Some (fwd (Legacy.token_map s) !! tok) →
  legacy_cell s 0 column = Some None →
  ∃ s', Legacy._place_token column tok s = (Ok true, s')
    ∧ Legacy.board s' ≠ Legacy.board s
    ∧ Legacy._remove_token column s' = (Ok true, s).
Proof.
  intros Hwf HR Hc [id Hid] Htop.
  destruct (scan_open_spec (Legacy.board s) (Legacy.n_columns s) column
              (Z.to_nat (Legacy.n_rows s)) 0 None)
    as (j & Hj & Hempty & Hocc & Hopen & _).
  { intros row Hrow. apply (legacy_cell_is_Some s row column); [done|lia|done]. }
  rewrite Z2Nat.id in Hopen, Hocc, Hj by lia.
  assert (j ≠ 0%Z) as Hj0.
  { intros ->. destruct Hocc as [c Hc0]; [lia|]. unfold legacy_cell in Htop. congruence. }
  rewrite decide_False in Hopen by done.
  set (i := Z.to_nat ((j - 1) * Legacy.n_columns s + column - 1)).
  assert (0 ≤ (j - 1) * Legacy.n_columns s + column - 1
          < Z.of_nat (length (Legacy.board s)))%Z as Hi.
  { rewrite Hwf. apply position_in_board; lia. }
  assert (Legacy.board s !! i = Some None) as Hcell.
  { unfold i. rewrite <- py_getitem_nonneg by done. apply Hempty. lia. }
  set (b' := <[i:=Some id]> (Legacy.board s)).
  exists (Legacy.set_board s b'). split; [|split].
  - unfold Legacy._place_token, range. rewrite Hopen, Hid.
    by rewrite py_setitem_nonneg.
  - simpl. intros Heq. assert (b' !! i = Some (Some id)) as Hb'.
    { apply list_lookup_insert_eq. lia. }
    rewrite Heq in Hb'. congruence.
  - assert (∀ row, (0 ≤ row < Legacy.n_rows s)%Z →
      py_getitem b' (row * Legacy.n_columns s + column - 1)
      = if decide (row = j - 1)%Z then Some (Some id)
        else py_getitem (Legacy.board s) (row * Legacy.n_columns s + column - 1))
      as Hb'.
    { intros row Hrow.
      pose proof (position_in_board _ _ row column Hrow Hc) as Hp. rewrite <- Hwf in Hp.
      rewrite !py_getitem_nonneg by (subst b'; rewrite ?length_insert; done).
      subst b'. rewrite list_lookup_insert. case_decide as Hd.
      - destruct Hd as [Heq _]. rewrite decide_True; [done|].
        destruct (position_inj (Legacy.n_columns s) (j - 1) (column - 1) row (column - 1));
          lia.
      - rewrite decide_False; [done|]. intros ->. apply Hd. split; [done|lia]. }
    destruct (scan_open_spec b' (Legacy.n_columns s) column
                (Z.to_nat (Legacy.n_rows s)) 0 None)
      as (j' & Hj' & Hempty' & Hocc' & _ & Hfilled).
    { intros row Hrow. rewrite Hb' by lia. case_decide; [done|].
      apply (legacy_cell_is_Some s row column); [done|lia|done]. }
    rewrite Z2Nat.id in Hfilled, Hocc', Hj' by lia.
    assert (j' = j - 1)%Z as ->.
    { destruct (Z.lt_trichotomy j' (j - 1)) as [Hlt|[->|Hgt]]; [|done|].
      - destruct Hocc' as [c Hc']; [lia|]. rewrite Hb' in Hc' by lia.
        rewrite decide_False in Hc' by lia. rewrite Hempty in Hc' by lia. done.
      - specialize (Hempty' (j - 1)%Z ltac:(lia)). rewrite Hb' in Hempty' by lia.
        by rewrite decide_True in Hempty'. }
    rewrite decide_True in Hfilled by lia.
    unfold Legacy._remove_token, range. cbn [Legacy.set_board Legacy.board
      Legacy.n_rows Legacy.n_columns]. rewrite Hfilled.
    rewrite py_setitem_nonneg by (unfold b'; rewrite length_insert; exact Hi).
    fold i. unfold b'. rewrite list_insert_insert_eq, (list_insert_id _ _ _ Hcell).
    by destruct s.
Qed.

(** PROPERTY X21 ([State.execute_action] of connect4.py): the actions that
    fail: PLACE on a column whose top cell is occupied, REMOVE on a column
    without a token, and an action that is neither. Each returns False and
    leaves the state as it was. *)
Theorem legacy_execute_action_fails s (a : Legacy.Action Token) :
  legacy_board_wf s → (1 ≤ Legacy.column a ≤ Legacy.n_columns s)%Z →
  (Legacy.action a = None → Legacy.execute_action a s = (Ok false, s))
  ∧ (Legacy.action a = Some Legacy.PLACE →
     (1 ≤ Legacy.n_rows s → ∃ c, legacy_cell s 0 (Legacy.column a) = Some (Some c))%Z →
     Legacy.execute_action a s = (Ok false, s))
  ∧ (Legacy.action a = Some Legacy.REMOVE →
     (∀ row, (0 ≤ row < Legacy.n_rows s)%Z →
        legacy_cell s row (Legacy.column a) = Some None) →
     Legacy.execute_action a s = (Ok false, s)).
Proof.
  intros Hwf Hc. unfold Legacy.execute_action. split; [by intros ->|].
  destruct (decide (Legacy.n_rows s ≤ 0)%Z) as [Hneg|Hpos].
  { split; intros -> _.
    - unfold Legacy._place_token, range. by rewrite seqZ_nil.
    - unfold Legacy._remove_token, range. by rewrite seqZ_nil. }
  destruct (scan_open_spec (Legacy.board s) (Legacy.n_columns s) (Legacy.column a)
              (Z.to_nat (Legacy.n_rows s)) 0 None)
    as (j & Hj & Hempty & Hocc & Hopen & Hfilled).
  { intros row Hrow. apply (legacy_cell_is_Some s row (Legacy.column a)); [done|lia|done]. }
  rewrite Z2Nat.id in Hopen, Hfilled, Hocc, Hj by lia.
  split; intros -> Hcolumn.
  - destruct Hcolumn as [c Htop]; [lia|].
    assert (j = 0%Z) as ->.
    { destruct (decide (j = 0%Z)); [done|].
      specialize (Hempty 0%Z ltac:(lia)). unfold legacy_cell in Htop. congruence. }
    rewrite decide_True in Hopen by done.
    unfold Legacy._place_token, range. by rewrite Hopen.
  - assert (j = Legacy.n_rows s) as ->.
    { destruct (decide (j < 0 + Legacy.n_rows s)%Z) as [Hlt|]; [|lia].
      destruct (Hocc Hlt) as [c Hcj]. specialize (Hcolumn j ltac:(lia)).
      unfold legacy_cell in Hcolumn. congruence. }
    rewrite decide_False in Hfilled by lia.
    unfold Legacy._remove_token, range. by rewrite Hfilled.
Qed.

End legacy_action_facts.

Section legacy_game_facts.
Context {Token : Type} `{Countable Token}.
Implicit Types s : Legacy.State Token.

(** PROPERTY X22 ([State.__init__] of connect4.py): with pairwise distinct
    tokens, the internal token of the [i]-th token is the [i]-th lowercase
    letter; there are 26 letters, so from the 27th on the tokens are left
    out of the map. *)
Theorem legacy_token_map_letters (external_tokens : list Token) (size : Z * Z)
    (i : nat) (tok : Token) :
  NoDup external_tokens → external_tokens !! i = Some tok →
  let m := Legacy.token_map (Legacy.State_init external_tokens size) in
  fwd m !! tok = Legacy.ascii_lowercase !! i
  ∧ (is_Some (fwd m !! tok) ↔ i < 26).
Proof.
  intros Hnd Hi m.
  assert (fwd m !! tok = Legacy.ascii_lowercase !! i) as Hfwd.
  { subst m. simpl.
    set (letters := take (length external_tokens) Legacy.ascii_lowercase).
    assert (letters !! i = Legacy.ascii_lowercase !! i) as Hletters.
    { subst letters. apply lookup_take_lt. by eapply lookup_lt_Some. }
    destruct (dict_of_pairs (zip external_tokens letters) !! tok) as [c|] eqn:Hl.
    - apply dict_of_pairs_lookup_Some, list_elem_of_lookup in Hl as [j Hj].
      apply lookup_zip_with_Some in Hj as (x & y & [= <- <-] & Hx & Hy).
      assert (i = j) as -> by (by eapply NoDup_lookup).
      by rewrite <- Hletters, Hy.
    - destruct (Legacy.ascii_lowercase !! i) as [c|] eqn:Hc; [|done].
      assert (is_Some (dict_of_pairs (zip external_tokens letters) !! tok)) as [? Hsome];
        [|congruence].
      apply dict_of_pairs_is_Some, list_elem_of_fmap. exists (tok, c). split; [done|].
      apply list_elem_of_lookup. exists i. apply lookup_zip_with_Some.
      exists tok, c. by rewrite Hletters. }
  split; [done|]. rewrite Hfwd, lookup_lt_is_Some. done.
Qed.

(** The fresh board of the predecessor is not an end of the game. *)
Lemma legacy_fresh_board (external_tokens : list Token) :
  Legacy.check_for_end (Legacy.State_init external_tokens (6, 7)%Z) = Ok None.
Proof. unfold Legacy.check_for_end. simpl. reflexivity. Qed.

(** PROPERTY X23 ([Game.play] of connect4.py): a failed action is passed over
    and the next agent is asked, so a game in which every answer is an
    action that is neither PLACE nor REMOVE never leaves the loop: [play]
    neither returns nor raises, however long it runs. *)
Theorem legacy_play_never_ends (g : Legacy.Game Token) (order : list (Legacy.Agent Token)) :
  order ≠ [] →
  (∀ agent n s, agent ∈ order →
     Legacy.action (Legacy.select_action agent n s) = None) →
  ∀ fuel, Legacy.play g order fuel = None.
Proof.
  intros Hne Hfail.
  assert (∀ fuel ls q r,
    cycle_at order q r (Legacy.agents_iter ls) →
    Legacy.state ls = Legacy.State_init (Legacy.agent_token <$> Legacy.agents g) (6, 7)%Z →
    Legacy.play_loop fuel ls = None) as Hloop.
  { induction fuel as [|fuel IH]; intros ls q r Hat Hstate; [done|]. simpl.
    destruct (cycle_at_next order q r _ Hne Hat)
      as (agent & it & q' & r' & Hnext & Hpos & _ & Hat').
    unfold Legacy.play_iter. rewrite Hnext.
    unfold Legacy.execute_action. rewrite Hfail by (by eapply list_elem_of_lookup_2).
    rewrite Hstate, legacy_fresh_board. simpl. by apply (IH _ q' r'). }
  intros fuel. unfold Legacy.play. rewrite (Hloop fuel _ 0 0); [done| |done].
  apply cycle_at_start.
Qed.

End legacy_game_facts.

Lemma winning_run {Token : Type} `{Countable Token} (g : Game Token) (t : nat)
    (ls0 : loop_state Token) :
  match iterations g t ls0 with
  | Some ls =>
      match play_iter g ls with
      | Break ls' =>
          match check_for_outcome (state ls') with
          | Ok (Some WIN, _) => true
          | _ => false
          end
      | _ => false
      end
  | None => false
  end = true →
  ∃ ls ls' winning_token,
    iterations g t ls0 = Some ls ∧ play_iter g ls = Break ls'
    ∧ check_for_outcome (state ls') = Ok (Some WIN, winning_token).
Proof.
  destruct (iterations g t ls0) as [ls|]; [|done].
  destruct (play_iter g ls) as [|ls'|] eqn:Hiter; [done| |done].
  destruct (check_for_outcome (state ls')) as [[[[]|] w]|] eqn:Hcheck;
    simpl; try discriminate.
  intros _. by exists ls, ls', w.
Qed.

Lemma play_full_column_aborts_witness :
  reachable ["X"; "O"] (2, 2)%Z (state third_turn)
  ∧ answer third_turn = Some (stubborn_X, mkAction (VActions PLACE) (VInt 1))
  ∧ ¬ open_column (state third_turn) 1
  ∧ ∀ fuel, play_loop stubborn_game (S fuel) third_turn = Some (Raise ActionError).
Proof.
  assert (iterations stubborn_game 2 (play_init stubborn_game [stubborn_X; stubborn_O])
          = Some third_turn) as Hit by (vm_compute; reflexivity).
  destruct (iterations_reachable stubborn_game _ 2 third_turn Hit) as [Hreach _].
  assert (answer third_turn = Some (stubborn_X, mkAction (VActions PLACE) (VInt 1)))
    as Hanswer by (vm_compute; reflexivity).
  assert (¬ open_column (state third_turn) 1) as Hfull.
  { intros (row & Hrow & Hcell).
    change (_n_rows (state third_turn)) with 2%Z in Hrow.
    assert (row = 0 ∨ row = 1)%Z as [-> | ->] by lia; vm_compute in Hcell; discriminate. }
  split; [exact Hreach|]. split; [exact Hanswer|]. split; [exact Hfull|].
  exact (proj2 (play_full_column_aborts stubborn_game third_turn stubborn_X
                  (mkAction (VActions PLACE) (VInt 1)) 1 Hreach Hanswer eq_refl eq_refl
                  ltac:(vm_compute; intuition discriminate) Hfull)).
Defined.

Lemma play_record_witness :
  ∃ r, play game_2x2 [small_X; small_O] 4 = Some (Ok r)
    ∧ ∃ n, length (record (outcome (final r))) = S n ∧ S n ≤ 4.
Proof.
  destruct (run_result (play game_2x2 [small_X; small_O] 4)) as [r Hr];
    [vm_compute; reflexivity|].
  exists r. split; [exact Hr|].
  destruct (play_record game_2x2 [small_X; small_O] 4 r Hr) as (n & Hlen & Hfuel & _).
  exists n. split; [exact Hlen|exact Hfuel].
Defined.

Lemma play_winner_moved_last_witness :
  ∃ ls ls' winning_token,
    iterations game_6x7 41 (play_init game_6x7 [agent_X; agent_O]) = Some ls
    ∧ play_iter game_6x7 ls = Break ls'
    ∧ check_for_outcome (state ls') = Ok (Some WIN, winning_token)
    ∧ ∃ agent a, answer ls = Some (agent, a) ∧ winning_token = Some (token agent).
Proof.
  destruct (winning_run game_6x7 41 (play_init game_6x7 [agent_X; agent_O]))
    as (ls & ls' & w & Hit & Hbreak & Hcheck); [vm_compute; reflexivity|].
  exists ls, ls', w. split; [exact Hit|]. split; [exact Hbreak|]. split; [exact Hcheck|].
  exact (play_winner_moved_last game_6x7 _ 41 ls ls' w Hit Hbreak Hcheck).
Defined.

Lemma Outcome_init_distinct_witness :
  NoDup (agent_id <$> [small_X; small_O])
  ∧ agent_outcomes (Outcome_init [small_X; small_O]) = [(small_X, None); (small_O, None)].
Proof.
  assert (NoDup (agent_id <$> [small_X; small_O])) as Hnd.
  { apply NoDup_cons_2; [|apply NoDup_singleton].
    intros Hin. apply list_elem_of_singleton in Hin. discriminate Hin. }
  split; [exact Hnd|].
  exact (proj1 (Outcome_init_distinct [small_X; small_O] Hnd)).
Defined.

Lemma play_results_witness :
  NoDup (agent_id <$> _agents game_6x7)
  ∧ NoDup (token <$> _agents game_6x7)
  ∧ ∃ r, play game_6x7 [agent_X; agent_O] 42 = Some (Ok r)
      ∧ ∃ result winning_token,
          check_for_outcome (state (final r)) = Ok (result, winning_token)
          ∧ (result = Some WIN ∨ result = Some DRAW).
Proof.
  assert (NoDup (agent_id <$> _agents game_6x7)) as Hnd.
  { apply NoDup_cons_2; [|apply NoDup_singleton].
    intros Hin. apply list_elem_of_singleton in Hin. discriminate Hin. }
  assert (NoDup (token <$> _agents game_6x7)) as Htokens.
  { apply NoDup_cons_2; [|apply NoDup_singleton].
    intros Hin. apply list_elem_of_singleton in Hin. discriminate Hin. }
  split; [exact Hnd|]. split; [exact Htokens|].
  destruct (run_result (play game_6x7 [agent_X; agent_O] 42)) as [r Hr];
    [vm_compute; reflexivity|].
  exists r. split; [exact Hr|].
  destruct (play_results game_6x7 [agent_X; agent_O] 42 r Hnd Htokens Hr)
    as (result & w & Hcheck & [[Hwin _]|[Hdraw _]]).
  - exists result, w. split; [exact Hcheck|left; exact Hwin].
  - exists result, w. split; [exact Hcheck|right; exact Hdraw].
Defined.

Lemma token_map_distinct_witness :
  NoDup ["X"; "O"]
  ∧ (fwd (_token_map (State_init ["X"; "O"] (6, 7)%Z)) !! "O" = Some 1%Z
     ↔ ["X"; "O"] !! 1 = Some "O").
Proof.
  assert (NoDup ["X"; "O"]) as Hnd.
  { apply NoDup_cons_2; [|apply NoDup_singleton].
    intros Hin. apply list_elem_of_singleton in Hin. discriminate Hin. }
  split; [exact Hnd|].
  exact (proj1 (token_map_distinct ["X"; "O"] (6, 7)%Z 1 "O" Hnd)).
Defined.

Lemma place_then_view_witness :
  reachable ["X"; "O"] (6, 7)%Z after_first_move
  ∧ (1 ≤ 4 ≤ _n_columns after_first_move)%Z
  ∧ "O" ∈ ["X"; "O"]
  ∧ open_column after_first_move 4
  ∧ ∃ row s' v v',
      place_token 4 "O" after_first_move = (Ok (), s')
      ∧ expose_view after_first_move = Ok v ∧ expose_view s' = Ok v'
      ∧ board v' !! Z.to_nat (row * _n_columns after_first_move + 4 - 1) = Some (Some "O").
Proof.
  assert (1 ≤ 4 ≤ _n_columns after_first_move)%Z as Hcolumn
    by (vm_compute; intuition discriminate).
  assert ("O" ∈ ["X"; "O"]) as Htok by (right; left).
  assert (open_column after_first_move 4) as Hopen.
  { exists 0%Z. split; [vm_compute; intuition discriminate|vm_compute; reflexivity]. }
  split; [exact reachable_after_first_move|]. split; [exact Hcolumn|].
  split; [exact Htok|]. split; [exact Hopen|].
  destruct (place_then_view _ _ _ _ _ reachable_after_first_move Hcolumn Htok Hopen)
    as (row & s' & v & v' & Hplace & Hv & Hv' & _ & _ & Hcell & _).
  exists row, s', v, v'. split; [exact Hplace|]. split; [exact Hv|].
  split; [exact Hv'|exact Hcell].
Defined.

Lemma place_token_column_zero_witness :
  (2 ≤ 6)%Z ∧ (1 ≤ 7)%Z ∧ "X" ∈ ["X"; "O"]
  ∧ ∃ id s',
      place_token 0 "X" (State_init ["X"; "O"] (6, 7)%Z) = (Ok (), s')
      ∧ cell s' (6 - 2) 7 = Some (Some id)
      ∧ cell s' (6 - 1) 7 = Some None.
Proof.
  assert (2 ≤ 6)%Z as HR by lia. assert (1 ≤ 7)%Z as HC by lia.
  assert ("X" ∈ ["X"; "O"]) as Htok by left.
  split; [exact HR|]. split; [exact HC|]. split; [exact Htok|].
  destruct (place_token_column_zero ["X"; "O"] 6 7 "X" HR HC Htok)
    as (id & s' & Hplace & _ & Hcell & Hbelow & _).
  exists id, s'. split; [exact Hplace|]. split; [exact Hcell|exact Hbelow].
Defined.

Lemma place_token_column_past_end_witness :
  (1 ≤ 6)%Z ∧ (1 ≤ 7)%Z
  ∧ place_token (7 + 1) "X" (State_init ["X"; "O"] (6, 7)%Z)
    = (Raise IndexError, State_init ["X"; "O"] (6, 7)%Z).
Proof.
  assert (1 ≤ 6)%Z as HR by lia. assert (1 ≤ 7)%Z as HC by lia.
  split; [exact HR|]. split; [exact HC|].
  exact (place_token_column_past_end ["X"; "O"] 6 7 "X" HR HC).
Defined.


Lemma legacy_check_for_end_spec_witness :
  ∃ r, Legacy.play legacy_game [legacy_X; legacy_O] 42 = Some (Ok r)
    ∧ legacy_board_wf (Legacy.final r)
    ∧ (None ∉ Legacy.board (Legacy.final r))
    ∧ Legacy.check_for_end (Legacy.final r)
      = Ok (Some ((λ _, "Draw") <$> fwd (Legacy.token_map (Legacy.final r)))).
Proof.
  destruct (run_result_dec (Legacy.play legacy_game [legacy_X; legacy_O] 42)
              (λ r, length (Legacy.board (Legacy.final r))
                    = (Z.to_nat (Legacy.n_rows (Legacy.final r))
                       * Z.to_nat (Legacy.n_columns (Legacy.final r)))%nat
                    ∧ None ∉ Legacy.board (Legacy.final r)))
    as (r & Hr & Hwf & Hfull); [vm_compute; reflexivity|].
  exists r. split; [exact Hr|]. split; [exact Hwf|]. split; [exact Hfull|].
  exact (proj1 (legacy_check_for_end_spec (Legacy.final r) Hwf) Hfull).
Defined.

Lemma legacy_place_then_remove_witness :
  legacy_board_wf (Legacy.State_init ["X"; "O"] (6, 7)%Z)
  ∧ is_Some (fwd (Legacy.token_map (Legacy.State_init ["X"; "O"] (6, 7)%Z)) !! "X")
  ∧ legacy_cell (Legacy.State_init ["X"; "O"] (6, 7)%Z) 0 4 = Some None
  ∧ ∃ s', Legacy._place_token 4 "X" (Legacy.State_init ["X"; "O"] (6, 7)%Z) = (Ok true, s')
      ∧ Legacy._remove_token 4 s' = (Ok true, Legacy.State_init ["X"; "O"] (6, 7)%Z).
Proof.
  assert (legacy_board_wf (Legacy.State_init ["X"; "O"] (6, 7)%Z)) as Hwf
    by (vm_compute; reflexivity).
  assert (is_Some (fwd (Legacy.token_map (Legacy.State_init ["X"; "O"] (6, 7)%Z)) !! "X"))
    as Htok by (apply option_run; vm_compute; reflexivity).
  assert (legacy_cell (Legacy.State_init ["X"; "O"] (6, 7)%Z) 0 4 = Some None) as Hcell
    by (vm_compute; reflexivity).
  split; [exact Hwf|]. split; [exact Htok|]. split; [exact Hcell|].
  destruct (legacy_place_then_remove (Legacy.State_init ["X"; "O"] (6, 7)%Z) 4 "X" Hwf
              ltac:(vm_compute; discriminate) ltac:(vm_compute; intuition discriminate)
              Htok Hcell)
    as (s' & Hplace & _ & Hremove).
  exists s'. split; [exact Hplace|exact Hremove].
Defined.

Lemma legacy_execute_action_fails_witness :
  legacy_board_wf (Legacy.State_init ["X"; "O"] (6, 7)%Z)
  ∧ Legacy.execute_action (Legacy.mkAction (Some Legacy.REMOVE) 4 "X")
      (Legacy.State_init ["X"; "O"] (6, 7)%Z)
    = (Ok false, Legacy.State_init ["X"; "O"] (6, 7)%Z).
Proof.
  assert (legacy_board_wf (Legacy.State_init ["X"; "O"] (6, 7)%Z)) as Hwf
    by (vm_compute; reflexivity).
  split; [exact Hwf|].
  apply (legacy_execute_action_fails (Legacy.State_init ["X"; "O"] (6, 7)%Z)
           (Legacy.mkAction (Some Legacy.REMOVE) 4 "X") Hwf
           ltac:(vm_compute; intuition discriminate)); [reflexivity|].
  intros row Hrow. change (Legacy.n_rows _) with 6%Z in Hrow.
  assert (row = 0 ∨ row = 1 ∨ row = 2 ∨ row = 3 ∨ row = 4 ∨ row = 5)%Z
    as [->|[->|[->|[->|[->| ->]]]]] by lia; vm_compute; reflexivity.
Defined.

Lemma legacy_token_map_letters_witness :
  NoDup (seq 0 27) ∧ seq 0 27 !! 26 = Some 26
  ∧ fwd (Legacy.token_map (Legacy.State_init (seq 0 27) (6, 7)%Z)) !! 26 = None.
Proof.
  assert (NoDup (seq 0 27)) as Hnd by apply NoDup_seq.
  assert (seq 0 27 !! 26 = Some 26) as Hi by reflexivity.
  split; [exact Hnd|]. split; [exact Hi|].
  exact (eq_trans (proj1 (legacy_token_map_letters (seq 0 27) (6, 7)%Z 26 26 Hnd Hi))
           eq_refl).
Defined.

Lemma legacy_play_never_ends_witness :
  [legacy_idle] ≠ []
  ∧ (∀ agent n s, agent ∈ [legacy_idle] →
       Legacy.action (Legacy.select_action agent n s) = None)
  ∧ Legacy.play legacy_idle_game [legacy_idle] 1000 = None.
Proof.
  assert ([legacy_idle] ≠ []) as Hne by discriminate.
  assert (∀ agent n s, agent ∈ [legacy_idle] →
            Legacy.action (Legacy.select_action agent n s) = None) as Hidle.
  { intros agent n s Hin. apply list_elem_of_singleton in Hin. rewrite Hin. reflexivity. }
  split; [exact Hne|]. split; [exact Hidle|].
  exact (legacy_play_never_ends legacy_idle_game [legacy_idle] Hne Hidle 1000).
Defined.
